(** * TamperApi: the tamper store, the header transforms and the URL codec

    A shallow embedding of the background script of the TamperApi extension
    (the store [TamperStore], the three [chrome.webRequest] listeners, the
    [chrome.runtime.onMessage] listener, the header helpers and
    [b64EncodeUnicode] / [b64DecodeUnicode]) together with
    [TamperApi.makeUrl] of the page script.

    Modelling conventions.
    - A JavaScript string is the list of its UTF-16 code units ([jsstring]).
    - A plain JavaScript object used as a dictionary is an association list
      in property enumeration order ([jsobj]); reading takes the first
      binding, [delete] drops the property, assignment overwrites in place or
      appends.  Of the prototype only [hasOwnProperty] is used by the
      scripts; a dictionary with a property of that name of its own hides
      it, and calling it then throws.
    - A TamperSpec is the record documented in the page script.  A property
      that may be missing, be [null] or have a value is an
      [option (option A)]: [None] is [undefined], [Some None] is [null].
      Reading a property of [null] or [undefined], and calling a method on
      them, throws a TypeError.  Values of other types than the documented
      ones (a number where a string is expected, say) are outside the
      model.
    - [deepClone] is [JSON.parse (JSON.stringify x)]; on the immutable values
      used here it is the identity ([undefined] apart, which it refuses),
      which is why no aliasing survives a store access.  The one place where
      the source relies on in-place mutation of a shared array (the response
      headers of [onHeadersReceived]) is written out explicitly.
    - A thrown exception is the [Throw] case of [result].
    - Host builtins whose behaviour is fixed by the language standards and
      that the codec is made of ([btoa], [atob], [encodeURIComponent],
      [decodeURIComponent]) are written out.  Those that the scripts use as
      black boxes ([String.prototype.toLowerCase], the RegExp engine,
      [JSON.stringify], [JSON.parse]) are the fields of the class [Host],
      the RegExp constructor with its SyntaxError; the laws hold for every
      host, and a reference host runs the scripts on concrete inputs. *)

From Stdlib Require Import List ZArith Lia Bool String Ascii DecimalString.
From Stdlib Require DecimalZ.
Import ListNotations.
Open Scope Z_scope.

(** ** Strings *)

Definition jsstring := list Z.

Definition str (s : string) : jsstring :=
  map (fun a => Z.of_N (N_of_ascii a)) (list_ascii_of_string s).

Definition streq (a b : jsstring) : bool :=
  if list_eq_dec Z.eq_dec a b then true else false.

(** ** Exceptions *)

Inductive exn : Type :=
| Error (msg : string)
| TypeError
| URIError
| InvalidCharacterError
| SyntaxError.

Inductive result (A : Type) : Type :=
| Ok (a : A)
| Throw (e : exn).
Arguments Ok {A} a.
Arguments Throw {A} e.

Definition bind {A B : Type} (r : result A) (k : A -> result B) : result B :=
  match r with
  | Ok a => k a
  | Throw e => Throw e
  end.

Notation "x <- r ;; k" := (bind r (fun x => k))
  (at level 61, r at next level, right associativity).

(** ** Objects used as dictionaries *)

Section Obj.
Context {V : Type}.

Definition jsobj := list (jsstring * V).

(** [o[k]]: the value of property [k], [None] for [undefined]. *)
Fixpoint oget (k : jsstring) (o : jsobj) : option V :=
  match o with
  | [] => None
  | (k', v) :: o' => if streq k k' then Some v else oget k o'
  end.

(** [delete o[k]]. *)
Fixpoint odelete (k : jsstring) (o : jsobj) : jsobj :=
  match o with
  | [] => []
  | (k', v) :: o' =>
      if streq k k' then odelete k o' else (k', v) :: odelete k o'
  end.

(** [o[k] = v]: an existing property keeps its place in the enumeration
    order, a new one goes last.  (A name that is an array index would be
    enumerated before the others; the keys of the store hold [::] and are
    never one.) *)
Fixpoint oset (k : jsstring) (v : V) (o : jsobj) : jsobj :=
  match o with
  | [] => [(k, v)]
  | (k', v') :: o' =>
      if streq k k' then (k, v) :: o' else (k', v') :: oset k v o'
  end.

Definition okeys (o : jsobj) : list jsstring := map fst o.

End Obj.
Arguments jsobj V : clear implicits.

(** [l.includes(s)] on an array of strings. *)
Definition includes (l : list jsstring) (s : jsstring) : bool :=
  existsb (streq s) l.


(** ** Data model *)

(** A property that may be missing, be [null] or have a value is an
    [option (option A)]: [None] is [undefined], [Some None] is [null]. *)

(** An entry of [details.requestHeaders] / [details.responseHeaders].  The
    browser gives a header a [value] or, for a value that is no text, a
    [binaryValue] only; [value] then reads as [undefined]. *)
Record header : Type := {
  name : jsstring;
  value : option (option jsstring)
}.

(** The [response] part of a TamperSpec. *)
Record Response : Type := {
  r_headers : option (option (jsobj (option jsstring)));
  r_remove : option (option (list jsstring))
}.

(** The [opts] part of a TamperSpec. *)
Record Opts : Type := {
  once : option (option bool)
}.

(** A TamperSpec as it comes out of [JSON.parse]: every part may be
    missing or [null].  [requestId] is missing, [null] or a request
    identifier; [key] is the property the store stamps on what it holds. *)
Record TamperSpec : Type := {
  headers : option (option (jsobj (option jsstring)));
  remove : option (option (list jsstring));
  response : option (option Response);
  opts : option (option Opts);
  requestId : option (option jsstring);
  key : option jsstring
}.

Definition emptySpec : TamperSpec :=
  {| headers := None; remove := None; response := None; opts := None;
     requestId := None; key := None |}.

Definition emptyResponse : Response :=
  {| r_headers := None; r_remove := None |}.

Definition emptyOpts : Opts := {| once := None |}.

Definition with_requestId (s : TamperSpec) (id : option (option jsstring))
    : TamperSpec :=
  {| headers := headers s; remove := remove s; response := response s;
     opts := opts s; requestId := id; key := key s |}.

Definition with_key (s : TamperSpec) (k : option jsstring) : TamperSpec :=
  {| headers := headers s; remove := remove s; response := response s;
     opts := opts s; requestId := requestId s; key := k |}.

(** A serialised regular expression, [[source, flags]] ([RegexSpec] of the
    background script); the flags may be missing or [null]. *)
Record RegexSpec : Type := {
  re_source : jsstring;
  re_flags : option (option jsstring)
}.

(** The argument of [addPattern] and the shape of an entry of
    [_patternMods]. *)
Record PatternParams : Type := {
  regexes : option (option (list RegexSpec));
  urls : option (option (list jsstring));
  tamper : option (option TamperSpec)
}.

Record TamperStore : Type := {
  _data : jsobj TamperSpec;
  _patternMods : list PatternParams
}.

(** [new TamperStore()]. *)
Definition newTamperStore : TamperStore :=
  {| _data := []; _patternMods := [] |}.

(** The [details] argument of the webRequest listeners. *)
Module details.
Record t : Type := {
  url : jsstring;
  tabId : Z;
  frameId : Z;
  requestId : jsstring;
  statusCode : Z;
  requestHeaders : list header;
  responseHeaders : list header
}.
End details.

(** ** Spec normaliser *)

(** One iteration of the loop of [defaults]: a property whose type is
    [undefined] takes the default; a [null] one stays. *)
Definition orDefault {A : Type} (field : option (option A)) (dflt : A)
    : option (option A) :=
  match field with
  | None => Some (Some dflt)
  | Some _ => field
  end.

(** [defaults(obj, dict)]: a missing [obj] is a fresh empty object, reading
    a property of [null] is a TypeError, and [fill] is the loop over the
    properties of [dict]. *)
Definition defaults {A : Type} (obj : option (option A)) (empty : A)
    (fill : A -> A) : result A :=
  match obj with
  | None => Ok (fill empty)
  | Some None => Throw TypeError
  | Some (Some o) => Ok (fill o)
  end.

(** The loop of [defaults] for the dictionary with [headers], [remove],
    [response] and [opts]. *)
Definition fillSpec (s : TamperSpec) : TamperSpec :=
  {| headers := orDefault (headers s) [];
     remove := orDefault (remove s) [];
     response := orDefault (response s) emptyResponse;
     opts := orDefault (opts s) emptyOpts;
     requestId := requestId s;
     key := key s |}.

(** The loop of [defaults] for the dictionary with [headers] and
    [remove]. *)
Definition fillResponse (r : Response) : Response :=
  {| r_headers := orDefault (r_headers r) [];
     r_remove := orDefault (r_remove r) [] |}.

(** The loop of [doNormalize] over the enumerated header names.  A header
    whose value is [null] is deleted and its name pushed on [remove];
    pushing on a [remove] that is missing or [null] is a TypeError. *)
Fixpoint doNormalizeLoop (names : list jsstring)
    (hdrs : jsobj (option jsstring)) (rem : option (option (list jsstring)))
    : result (jsobj (option jsstring) * option (option (list jsstring))) :=
  match names with
  | [] => Ok (hdrs, rem)
  | n :: names' =>
      match oget n hdrs with
      | Some None =>
          match rem with
          | Some (Some r) =>
              doNormalizeLoop names' (odelete n hdrs) (Some (Some (r ++ [n])))
          | _ => Throw TypeError
          end
      | _ => doNormalizeLoop names' hdrs rem
      end
  end.

(** [doNormalize(obj)] on the [headers] and [remove] properties of [obj];
    enumerating a [headers] that is missing or [null] runs no iteration. *)
Definition doNormalize (hdrs : option (option (jsobj (option jsstring))))
    (rem : option (option (list jsstring)))
    : result (option (option (jsobj (option jsstring))) *
              option (option (list jsstring))) :=
  match hdrs with
  | Some (Some h) =>
      hr <- doNormalizeLoop (okeys h) h rem ;;
      Ok (Some (Some (fst hr)), snd hr)
  | _ => Ok (hdrs, rem)
  end.

(** [_normalizeTamperSpec(tamperSpec = {})].  The second call of [defaults]
    is given [tamperSpec.response], which the first call has left an object
    or [null]; were it missing, [doNormalize] would read a property of
    [undefined]. *)
Definition _normalizeTamperSpec (arg : option (option TamperSpec))
    : result TamperSpec :=
  let tamperSpec :=
    match arg with
    | None => Some (Some emptySpec)
    | Some _ => arg
    end in
  tamperSpec <- defaults tamperSpec emptySpec fillSpec ;;
  match response tamperSpec with
  | None => Throw TypeError
  | Some resp =>
      resp <- defaults (Some resp) emptyResponse fillResponse ;;
      top <- doNormalize (headers tamperSpec) (remove tamperSpec) ;;
      sub <- doNormalize (r_headers resp) (r_remove resp) ;;
      Ok {| headers := fst top; remove := snd top;
            response :=
              Some (Some {| r_headers := fst sub; r_remove := snd sub |});
            opts := opts tamperSpec;
            requestId := requestId tamperSpec;
            key := key tamperSpec |}
  end.

(** *** The parts of a spec, as the statements read them *)

(** The object under a property that may be missing or [null]. *)
Definition object {A : Type} (field : option (option A)) : option A :=
  match field with
  | Some (Some a) => Some a
  | _ => None
  end.

(** The spec the normaliser works on: the argument, or a fresh empty one. *)
Definition argumentSpec (arg : option (option TamperSpec)) : TamperSpec :=
  match object arg with
  | Some s => s
  | None => emptySpec
  end.

(** [s.headers[X]] and [s.response.headers[X]] of a possibly missing spec
    with possibly missing parts. *)
Definition headerOf (arg : option (option TamperSpec)) (X : jsstring)
    : option (option jsstring) :=
  match object arg with
  | Some s =>
      match object (headers s) with
      | Some h => oget X h
      | None => None
      end
  | None => None
  end.

Definition responseHeaderOf (arg : option (option TamperSpec)) (X : jsstring)
    : option (option jsstring) :=
  match object arg with
  | Some s =>
      match object (response s) with
      | Some resp =>
          match object (r_headers resp) with
          | Some h => oget X h
          | None => None
          end
      | None => None
      end
  | None => None
  end.

(** [s.remove] and [s.response.remove], empty when missing. *)
Definition removeOf (arg : option (option TamperSpec)) : list jsstring :=
  match object arg with
  | Some s =>
      match object (remove s) with
      | Some r => r
      | None => []
      end
  | None => []
  end.

Definition responseRemoveOf (arg : option (option TamperSpec))
    : list jsstring :=
  match object arg with
  | Some s =>
      match object (response s) with
      | Some resp =>
          match object (r_remove resp) with
          | Some r => r
          | None => []
          end
      | None => []
      end
  | None => []
  end.

(** What is left of a header entry: an entry with a value stays, a missing
    one and one mapped to [null] are not there. *)
Definition kept (entry : option (option jsstring))
    : option (option jsstring) :=
  match entry with
  | Some (Some v) => Some (Some v)
  | _ => None
  end.

(** All four structural properties and [opts] are present, none of them
    [null], and no header is mapped to [null]. *)
Record normalized (n : TamperSpec) : Prop := {
  norm_headers : exists h, headers n = Some (Some h) /\
                           forall X, oget X h <> Some None;
  norm_remove : exists r, remove n = Some (Some r);
  norm_response : exists rh rr,
      response n =
        Some (Some {| r_headers := Some (Some rh);
                      r_remove := Some (Some rr) |}) /\
      forall X, oget X rh <> Some None;
  norm_opts : exists o, opts n = Some (Some o)
}.

(** The property is not [null]. *)
Definition notNull {A : Type} (field : option (option A)) : Prop :=
  field <> Some None.

(** A spec of the typedef: a part may be missing, none is [null]. *)
Record withoutNull (s : TamperSpec) : Prop := {
  plain_headers : notNull (headers s);
  plain_remove : notNull (remove s);
  plain_response : notNull (response s);
  plain_parts : forall resp,
      response s = Some (Some resp) ->
      notNull (r_headers resp) /\ notNull (r_remove resp);
  plain_opts : notNull (opts s)
}.

(** A missing spec, or one of the typedef. *)
Definition plainArgument (arg : option (option TamperSpec)) : Prop :=
  match arg with
  | None => True
  | Some None => False
  | Some (Some s) => withoutNull s
  end.

(** Proves [withoutNull] of a spec written out. *)
Ltac typedef_spec :=
  constructor; unfold notNull; simpl;
  try discriminate;
  try (intros resp Hresp; inversion Hresp; subst; simpl;
       split; discriminate).
(** ** Transport codec *)

(** *** Hexadecimal digits and UTF-8 *)

Definition inRange (lo hi c : Z) : bool := (lo <=? c) && (c <=? hi).

Definition hexUpper (d : Z) : Z := if d <? 10 then 48 + d else 55 + d.

Definition hexLower (d : Z) : Z := if d <? 10 then 48 + d else 87 + d.

(** The value of a hexadecimal digit of either case. *)
Definition hexValue (c : Z) : option Z :=
  if inRange 48 57 c then Some (c - 48)
  else if inRange 65 70 c then Some (c - 55)
  else if inRange 97 102 c then Some (c - 87)
  else None.

(** [[0-9A-F]]. *)
Definition isUpperHex (c : Z) : bool := inRange 48 57 c || inRange 65 70 c.

Definition isLeadSurrogate (c : Z) : bool := inRange 55296 56319 c.

Definition isTrailSurrogate (c : Z) : bool := inRange 56320 57343 c.

(** The octets of the UTF-8 encoding of a code point. *)
Definition utf8Encode (cp : Z) : list Z :=
  if cp <? 128 then [cp]
  else if cp <? 2048 then [192 + cp / 64; 128 + cp mod 64]
  else if cp <? 65536 then
    [224 + cp / 4096; 128 + (cp / 64) mod 64; 128 + cp mod 64]
  else
    [240 + cp / 262144; 128 + (cp / 4096) mod 64;
     128 + (cp / 64) mod 64; 128 + cp mod 64].

(** The code units of a code point. *)
Definition utf16Encode (v : Z) : list Z :=
  if v <? 65536 then [v]
  else [55296 + (v - 65536) / 1024; 56320 + (v - 65536) mod 1024].

(** *** [encodeURIComponent] *)

(** The characters [encodeURIComponent] leaves alone: letters, digits and
    [- _ . ! ~ * ' ( )]. *)
Definition isUnreserved (c : Z) : bool :=
  inRange 65 90 c || inRange 97 122 c || inRange 48 57 c ||
  existsb (Z.eqb c) [45; 95; 46; 33; 126; 42; 39; 40; 41].

(** [%XX] with upper-case digits. *)
Definition percentEncode (b : Z) : list Z :=
  [37; hexUpper (b / 16); hexUpper (b mod 16)].

Fixpoint encodeURIComponent (s : jsstring) : result jsstring :=
  match s with
  | [] => Ok []
  | c :: rest =>
      if isUnreserved c then
        r <- encodeURIComponent rest ;; Ok (c :: r)
      else if isTrailSurrogate c then Throw URIError
      else if isLeadSurrogate c then
        match rest with
        | c2 :: rest2 =>
            if isTrailSurrogate c2 then
              let cp := (c - 55296) * 1024 + (c2 - 56320) + 65536 in
              r <- encodeURIComponent rest2 ;;
              Ok (flat_map percentEncode (utf8Encode cp) ++ r)
            else Throw URIError
        | [] => Throw URIError
        end
      else
        r <- encodeURIComponent rest ;;
        Ok (flat_map percentEncode (utf8Encode c) ++ r)
  end.

(** *** [b64EncodeUnicode] *)

(** [.replace(/%([0-9A-F]{2})/g, toSolidBytes)]: every escape becomes the
    character whose code is the escaped number. *)
Fixpoint replaceEscapes (s : jsstring) : jsstring :=
  match s with
  | [] => []
  | c :: tail =>
      if c =? 37 then
        match tail with
        | a :: b :: rest =>
            match (if isUpperHex a && isUpperHex b then hexValue a else None),
                  hexValue b with
            | Some x, Some y => (16 * x + y) :: replaceEscapes rest
            | _, _ => c :: replaceEscapes tail
            end
        | _ => c :: replaceEscapes tail
        end
      else c :: replaceEscapes tail
  end.

(** The base64 alphabet, by index. *)
Definition b64char (i : Z) : Z :=
  if i <? 26 then 65 + i
  else if i <? 52 then 97 + (i - 26)
  else if i <? 62 then 48 + (i - 52)
  else if i =? 62 then 43
  else 47.

Fixpoint btoaLoop (bytes : list Z) : list Z :=
  match bytes with
  | [] => []
  | [a] => [b64char (a / 4); b64char ((a mod 4) * 16); 61; 61]
  | [a; b] =>
      [b64char (a / 4); b64char ((a mod 4) * 16 + b / 16);
       b64char ((b mod 16) * 4); 61]
  | a :: b :: c :: rest =>
      b64char (a / 4) :: b64char ((a mod 4) * 16 + b / 16) ::
      b64char ((b mod 16) * 4 + c / 64) :: b64char (c mod 64) ::
      btoaLoop rest
  end.

(** [btoa]: a character above 255 is an InvalidCharacterError. *)
Definition btoa (s : jsstring) : result jsstring :=
  if forallb (inRange 0 255) s then Ok (btoaLoop s)
  else Throw InvalidCharacterError.

Definition b64EncodeUnicode (s : jsstring) : result jsstring :=
  e <- encodeURIComponent s ;; btoa (replaceEscapes e).

(** *** [atob] *)

Definition isAsciiWhitespace (c : Z) : bool :=
  existsb (Z.eqb c) [9; 10; 12; 13; 32].

(** The index of a character of the base64 alphabet. *)
Definition b64index (c : Z) : option Z :=
  if inRange 65 90 c then Some (c - 65)
  else if inRange 97 122 c then Some (c - 97 + 26)
  else if inRange 48 57 c then Some (c - 48 + 52)
  else if c =? 43 then Some 62
  else if c =? 47 then Some 63
  else None.

(** One or two trailing [=] are dropped when the length is a multiple of
    four. *)
Definition stripPadding (s : jsstring) : jsstring :=
  if Z.of_nat (List.length s) mod 4 =? 0 then
    match rev s with
    | x1 :: r1 =>
        if x1 =? 61 then
          match r1 with
          | x2 :: r2 => if x2 =? 61 then rev r2 else rev r1
          | [] => rev r1
          end
        else s
    | [] => s
    end
  else s.

Fixpoint b64indices (s : jsstring) : result (list Z) :=
  match s with
  | [] => Ok []
  | c :: rest =>
      match b64index c with
      | Some i => r <- b64indices rest ;; Ok (i :: r)
      | None => Throw InvalidCharacterError
      end
  end.

Fixpoint atobLoop (sextets : list Z) : result (list Z) :=
  match sextets with
  | [] => Ok []
  | [_] => Throw InvalidCharacterError
  | [a; b] => Ok [a * 4 + b / 16]
  | [a; b; c] => Ok [a * 4 + b / 16; (b mod 16) * 16 + c / 4]
  | a :: b :: c :: d :: rest =>
      r <- atobLoop rest ;;
      Ok (a * 4 + b / 16 :: (b mod 16) * 16 + c / 4 :: (c mod 4) * 64 + d :: r)
  end.

Definition atob (s : jsstring) : result jsstring :=
  let data := stripPadding (filter (fun c => negb (isAsciiWhitespace c)) s) in
  sextets <- b64indices data ;; atobLoop sextets.

(** *** [decodeURIComponent] *)

(** The input of [decodeURIComponent] once its escapes are read: a plain
    character or an escaped octet. *)
Inductive token : Type :=
| Lit (c : Z)
| Octet (b : Z).

Fixpoint unescapeTokens (s : jsstring) : result (list token) :=
  match s with
  | [] => Ok []
  | c :: tail =>
      if c =? 37 then
        match tail with
        | a :: b :: rest =>
            match hexValue a, hexValue b with
            | Some x, Some y =>
                r <- unescapeTokens rest ;; Ok (Octet (16 * x + y) :: r)
            | _, _ => Throw URIError
            end
        | _ => Throw URIError
        end
      else r <- unescapeTokens tail ;; Ok (Lit c :: r)
  end.

Definition isContinuation (b : Z) : bool := inRange 128 191 b.

(** A code point of at least [lo] that is no surrogate. *)
Definition validScalar (lo v : Z) : bool :=
  inRange lo 1114111 v && negb (inRange 55296 57343 v).

(** Escaped octets are read as UTF-8; a sequence that is not the UTF-8
    encoding of a code point is a URIError. *)
Fixpoint utf8Decode (ts : list token) : result jsstring :=
  match ts with
  | [] => Ok []
  | Lit c :: rest => r <- utf8Decode rest ;; Ok (c :: r)
  | Octet b :: rest =>
      if b <? 128 then r <- utf8Decode rest ;; Ok (b :: r)
      else if b <? 192 then Throw URIError
      else if b <? 224 then
        match rest with
        | Octet b1 :: rest1 =>
            let v := (b - 192) * 64 + (b1 - 128) in
            if isContinuation b1 && validScalar 128 v then
              r <- utf8Decode rest1 ;; Ok (utf16Encode v ++ r)
            else Throw URIError
        | _ => Throw URIError
        end
      else if b <? 240 then
        match rest with
        | Octet b1 :: Octet b2 :: rest2 =>
            let v := (b - 224) * 4096 + (b1 - 128) * 64 + (b2 - 128) in
            if isContinuation b1 && isContinuation b2 && validScalar 2048 v
            then r <- utf8Decode rest2 ;; Ok (utf16Encode v ++ r)
            else Throw URIError
        | _ => Throw URIError
        end
      else if b <? 248 then
        match rest with
        | Octet b1 :: Octet b2 :: Octet b3 :: rest3 =>
            let v := (b - 240) * 262144 + (b1 - 128) * 4096 +
                     (b2 - 128) * 64 + (b3 - 128) in
            if isContinuation b1 && isContinuation b2 && isContinuation b3 &&
               validScalar 65536 v
            then r <- utf8Decode rest3 ;; Ok (utf16Encode v ++ r)
            else Throw URIError
        | _ => Throw URIError
        end
      else Throw URIError
  end.

Definition decodeURIComponent (s : jsstring) : result jsstring :=
  ts <- unescapeTokens s ;; utf8Decode ts.

(** *** [b64DecodeUnicode] *)

(** ['%' + ('00' + c.charCodeAt(0).toString(16)).slice(-2)]. *)
Definition escapeByte (c : Z) : list Z :=
  [37; hexLower ((c / 16) mod 16); hexLower (c mod 16)].

Definition b64DecodeUnicode (s : jsstring) : result jsstring :=
  bin <- atob s ;; decodeURIComponent (flat_map escapeByte bin).

(** *** Recognising a tagged URL *)

Definition delimiter : jsstring := str "$TamperApi:".

(** A character that [.] does not match. *)
Definition isLineTerminator (c : Z) : bool :=
  existsb (Z.eqb c) [10; 13; 8232; 8233].

(** No character of the string is a slash. *)
Definition noSlash (s : jsstring) : bool :=
  forallb (fun c => negb (c =? 47)) s.

(** No character of the string is a line terminator. *)
Definition noLineTerminator (s : jsstring) : bool :=
  forallb (fun c => negb (isLineTerminator c)) s.

Fixpoint startsWith (p s : jsstring) : option jsstring :=
  match p, s with
  | [], _ => Some s
  | a :: p', b :: s' => if a =? b then startsWith p' s' else None
  | _ :: _, [] => None
  end.

(** The match of the regular expression of [onBeforeRequest] against the
    URL: from the start any characters but line terminators (group 1,
    greedy), then the delimiter, then any characters but a slash (group 3)
    up to the end.  The result is groups 1 and 3, [None] for [null]; the
    first group being greedy, the longest prefix is tried first. *)
Fixpoint matchTag (s : jsstring) : option (jsstring * jsstring) :=
  let here :=
    match startsWith delimiter s with
    | Some token =>
        if noSlash token then Some ([], token)
        else None
    | None => None
    end in
  match s with
  | [] => here
  | c :: rest =>
      match (if isLineTerminator c then None else matchTag rest) with
      | Some (orig, token) => Some (c :: orig, token)
      | None => here
      end
  end.

(** *** Well-formed text *)

(** A string of 16-bit code units in which every surrogate is paired. *)
Fixpoint wellFormed (s : jsstring) : bool :=
  match s with
  | [] => true
  | c :: rest =>
      if isLeadSurrogate c then
        match rest with
        | c2 :: rest2 => isTrailSurrogate c2 && wellFormed rest2
        | [] => false
        end
      else inRange 0 65535 c && negb (isTrailSurrogate c) && wellFormed rest
  end.

(** The octets of the UTF-8 encoding of a string. *)
Fixpoint utf8Bytes (s : jsstring) : list Z :=
  match s with
  | [] => []
  | c :: rest =>
      if isLeadSurrogate c then
        match rest with
        | c2 :: rest2 =>
            utf8Encode ((c - 55296) * 1024 + (c2 - 56320) + 65536) ++
            utf8Bytes rest2
        | [] => []
        end
      else utf8Encode c ++ utf8Bytes rest
  end.

(** A character of the base64 alphabet or the padding character. *)
Definition isBase64Char (c : Z) : bool :=
  inRange 65 90 c || inRange 97 122 c || inRange 48 57 c ||
  (c =? 43) || (c =? 47) || (c =? 61).

Definition isByte (b : Z) : Prop := 0 <= b <= 255.


(** *** Tagged URLs and text, as properties *)

(** The URL is [u], the delimiter and a token: [u] has no line terminator
    and the token no slash. *)
Definition tagged (url u token : jsstring) : Prop :=
  url = u ++ delimiter ++ token /\
  noLineTerminator u = true /\ noSlash token = true.

(** A string of 16-bit code units. *)
Definition codeUnits (s : jsstring) : Prop :=
  Forall (fun c => 0 <= c <= 65535) s.
(** ** Reference instances of the host builtins

    The theorems below hold for every host.  To run the scripts on concrete
    inputs, the builtins are instantiated here: [JSON.stringify] and
    [JSON.parse] on the JSON values a TamperSpec is made of (objects,
    arrays, strings, booleans and [null]), ASCII lower-casing, and a RegExp
    engine for sources made of literal characters and dots. *)

#[local] Unset Elimination Schemes.
Inductive json : Type :=
| JNull
| JBool (b : bool)
| JString (s : jsstring)
| JArray (l : list json)
| JObject (l : list (jsstring * json)).
#[local] Set Elimination Schemes.

Definition hex4 (c : Z) : list Z :=
  [hexLower ((c / 4096) mod 16); hexLower ((c / 256) mod 16);
   hexLower ((c / 16) mod 16); hexLower (c mod 16)].

Definition unicodeEscape (c : Z) : list Z := 92 :: 117 :: hex4 c.

(** The two-character escapes of a JSON string, and the control characters
    that are written as a Unicode escape. *)
Definition shortEscape (c : Z) : option (list Z) :=
  if c =? 8 then Some [92; 98]
  else if c =? 9 then Some [92; 116]
  else if c =? 10 then Some [92; 110]
  else if c =? 12 then Some [92; 102]
  else if c =? 13 then Some [92; 114]
  else if c =? 34 then Some [92; 34]
  else if c =? 92 then Some [92; 92]
  else if c <? 32 then Some (unicodeEscape c)
  else None.

Fixpoint quoteChars (s : jsstring) : jsstring :=
  match s with
  | [] => []
  | c :: rest =>
      match shortEscape c with
      | Some e => e ++ quoteChars rest
      | None =>
          if isLeadSurrogate c then
            match rest with
            | c2 :: rest2 =>
                if isTrailSurrogate c2 then c :: c2 :: quoteChars rest2
                else unicodeEscape c ++ quoteChars rest
            | [] => unicodeEscape c
            end
          else if isTrailSurrogate c then unicodeEscape c ++ quoteChars rest
          else c :: quoteChars rest
      end
  end.

Definition quoteJSONString (s : jsstring) : jsstring :=
  34 :: quoteChars s ++ [34].

Fixpoint joinComma (l : list jsstring) : jsstring :=
  match l with
  | [] => []
  | [x] => x
  | x :: l' => x ++ 44 :: joinComma l'
  end.

Fixpoint stringifyJson (j : json) : jsstring :=
  match j with
  | JNull => str "null"
  | JBool true => str "true"
  | JBool false => str "false"
  | JString s => quoteJSONString s
  | JArray l => 91 :: joinComma (map stringifyJson l) ++ [93]
  | JObject l =>
      123 :: joinComma
               (map (fun kv =>
                       match kv with
                       | (k, v) => quoteJSONString k ++ 58 :: stringifyJson v
                       end) l) ++ [125]
  end.

Fixpoint skipWs (s : jsstring) : jsstring :=
  match s with
  | c :: rest =>
      if existsb (Z.eqb c) [9; 10; 13; 32] then skipWs rest else s
  | [] => []
  end.

Definition simpleEscape (e : Z) : option Z :=
  if e =? 34 then Some 34
  else if e =? 92 then Some 92
  else if e =? 47 then Some 47
  else if e =? 98 then Some 8
  else if e =? 102 then Some 12
  else if e =? 110 then Some 10
  else if e =? 114 then Some 13
  else if e =? 116 then Some 9
  else None.

Definition consFst {A : Type} (c : Z) (r : option (jsstring * A))
    : option (jsstring * A) :=
  match r with
  | Some (s, x) => Some (c :: s, x)
  | None => None
  end.

(** The characters of a JSON string after its opening quote, and what
    follows the closing quote. *)
Fixpoint parseStringBody (s : jsstring) : option (jsstring * jsstring) :=
  match s with
  | [] => None
  | c :: rest =>
      if c =? 34 then Some ([], rest)
      else if c =? 92 then
        match rest with
        | e :: rest1 =>
            if e =? 117 then
              match rest1 with
              | h1 :: h2 :: h3 :: h4 :: rest2 =>
                  match hexValue h1, hexValue h2, hexValue h3, hexValue h4 with
                  | Some a, Some b, Some c', Some d =>
                      consFst (4096 * a + 256 * b + 16 * c' + d)
                              (parseStringBody rest2)
                  | _, _, _, _ => None
                  end
              | _ => None
              end
            else
              match simpleEscape e with
              | Some ch => consFst ch (parseStringBody rest1)
              | None => None
              end
        | [] => None
        end
      else if c <? 32 then None
      else consFst c (parseStringBody rest)
  end.

Definition keyword (w : string) (v : json) (s : jsstring)
    : option (json * jsstring) :=
  match startsWith (str w) s with
  | Some rest => Some (v, rest)
  | None => None
  end.

Fixpoint parseValue (fuel : nat) (s : jsstring) : option (json * jsstring) :=
  match fuel with
  | O => None
  | S f =>
      match skipWs s with
      | [] => None
      | c :: rest =>
          if c =? 34 then
            match parseStringBody rest with
            | Some (x, r) => Some (JString x, r)
            | None => None
            end
          else if c =? 91 then
            match skipWs rest with
            | c1 :: r1 =>
                if c1 =? 93 then Some (JArray [], r1)
                else
                  match parseElements f rest with
                  | Some (l, r) => Some (JArray l, r)
                  | None => None
                  end
            | [] => None
            end
          else if c =? 123 then
            match skipWs rest with
            | c1 :: r1 =>
                if c1 =? 125 then Some (JObject [], r1)
                else
                  match parseMembers f rest with
                  | Some (l, r) => Some (JObject l, r)
                  | None => None
                  end
            | [] => None
            end
          else if c =? 110 then keyword "null" JNull (c :: rest)
          else if c =? 116 then keyword "true" (JBool true) (c :: rest)
          else if c =? 102 then keyword "false" (JBool false) (c :: rest)
          else None
      end
  end
with parseElements (fuel : nat) (s : jsstring)
    : option (list json * jsstring) :=
  match fuel with
  | O => None
  | S f =>
      match parseValue f s with
      | Some (v, r) =>
          match skipWs r with
          | c :: r' =>
              if c =? 44 then
                match parseElements f r' with
                | Some (l, r'') => Some (v :: l, r'')
                | None => None
                end
              else if c =? 93 then Some ([v], r')
              else None
          | [] => None
          end
      | None => None
      end
  end
with parseMembers (fuel : nat) (s : jsstring)
    : option (list (jsstring * json) * jsstring) :=
  match fuel with
  | O => None
  | S f =>
      match skipWs s with
      | c0 :: r0 =>
          if c0 =? 34 then
            match parseStringBody r0 with
            | Some (k, r1) =>
                match skipWs r1 with
                | c2 :: r2 =>
                    if c2 =? 58 then
                      match parseValue f r2 with
                      | Some (v, r3) =>
                          match skipWs r3 with
                          | c4 :: r4 =>
                              if c4 =? 44 then
                                match parseMembers f r4 with
                                | Some (l, r5) => Some ((k, v) :: l, r5)
                                | None => None
                                end
                              else if c4 =? 125 then Some ([(k, v)], r4)
                              else None
                          | [] => None
                          end
                      | None => None
                      end
                    else None
                | [] => None
                end
            | None => None
            end
          else None
      | [] => None
      end
  end.

Definition parseJson (s : jsstring) : option json :=
  match parseValue (2 * List.length s + 2) s with
  | Some (j, rest) =>
      match skipWs rest with
      | [] => Some j
      | _ :: _ => None
      end
  | None => None
  end.

Definition optField {A : Type} (field : string) (f : A -> json)
    (x : option (option A)) : list (jsstring * json) :=
  match x with
  | Some (Some a) => [(str field, f a)]
  | Some None => [(str field, JNull)]
  | None => []
  end.

Definition stringOrNull (v : option jsstring) : json :=
  match v with
  | Some s => JString s
  | None => JNull
  end.

Definition headersToJson (h : jsobj (option jsstring)) : json :=
  JObject (map (fun kv => (fst kv, stringOrNull (snd kv))) h).

Definition removeToJson (r : list jsstring) : json := JArray (map JString r).

Definition responseToJson (r : Response) : json :=
  JObject (optField "headers" headersToJson (r_headers r) ++
           optField "remove" removeToJson (r_remove r)).

Definition optsToJson (o : Opts) : json :=
  JObject (optField "once" JBool (once o)).

Definition specToJson (s : TamperSpec) : json :=
  JObject (optField "headers" headersToJson (headers s) ++
           optField "remove" removeToJson (remove s) ++
           optField "response" responseToJson (response s) ++
           optField "opts" optsToJson (opts s) ++
           optField "requestId" JString (requestId s) ++
           match key s with
           | Some k => [(str "key", JString k)]
           | None => []
           end).

Fixpoint traverse {A B : Type} (f : A -> option B) (l : list A)
    : option (list B) :=
  match l with
  | [] => Some []
  | a :: l' =>
      match f a, traverse f l' with
      | Some b, Some r => Some (b :: r)
      | _, _ => None
      end
  end.

(** The properties of a parsed object: a repeated name keeps its first
    place and takes its last value. *)
Definition properties {V : Type} (members : list (jsstring * V)) : jsobj V :=
  fold_left (fun o kv => oset (fst kv) (snd kv) o) members [].

Definition jsonToString (j : json) : option jsstring :=
  match j with
  | JString s => Some s
  | _ => None
  end.

Definition jsonToStringOrNull (j : json) : option (option jsstring) :=
  match j with
  | JString s => Some (Some s)
  | JNull => Some None
  | _ => None
  end.

Definition jsonToBool (j : json) : option bool :=
  match j with
  | JBool b => Some b
  | _ => None
  end.

Definition jsonToHeaders (j : json) : option (jsobj (option jsstring)) :=
  match j with
  | JObject l =>
      traverse (fun kv =>
                  match jsonToStringOrNull (snd kv) with
                  | Some v => Some (fst kv, v)
                  | None => None
                  end) (properties l)
  | _ => None
  end.

Definition jsonToRemove (j : json) : option (list jsstring) :=
  match j with
  | JArray l => traverse jsonToString l
  | _ => None
  end.

(** A property that may be missing or [null]; a present one of another
    type than the typedef gives it is refused. *)
Definition field {A : Type} (conv : json -> option A) (f : string)
    (o : jsobj json) : option (option (option A)) :=
  match oget (str f) o with
  | None => Some None
  | Some JNull => Some (Some None)
  | Some j =>
      match conv j with
      | Some a => Some (Some (Some a))
      | None => None
      end
  end.

(** A property that may be missing, not [null]. *)
Definition fieldOfValue {A : Type} (conv : json -> option A) (f : string)
    (o : jsobj json) : option (option A) :=
  match oget (str f) o with
  | None => Some None
  | Some j =>
      match conv j with
      | Some a => Some (Some a)
      | None => None
      end
  end.

Definition jsonToResponse (j : json) : option Response :=
  match j with
  | JObject l =>
      let o := properties l in
      match field jsonToHeaders "headers" o, field jsonToRemove "remove" o with
      | Some h, Some r => Some {| r_headers := h; r_remove := r |}
      | _, _ => None
      end
  | _ => None
  end.

Definition jsonToOpts (j : json) : option Opts :=
  match j with
  | JObject l =>
      match field jsonToBool "once" (properties l) with
      | Some b => Some {| once := b |}
      | None => None
      end
  | _ => None
  end.

Definition specOfJson (j : json) : option TamperSpec :=
  match j with
  | JObject l =>
      let o := properties l in
      match field jsonToHeaders "headers" o, field jsonToRemove "remove" o,
            field jsonToResponse "response" o, field jsonToOpts "opts" o,
            field jsonToString "requestId" o,
            fieldOfValue jsonToString "key" o with
      | Some h, Some r, Some resp, Some op, Some id, Some k =>
          Some {| headers := h; remove := r; response := resp; opts := op;
                  requestId := id; key := k |}
      | _, _, _, _, _, _ => None
      end
  | _ => None
  end.

Definition refStringify (s : TamperSpec) : jsstring :=
  stringifyJson (specToJson s).

(** The text of [null] and the texts of the values of the typedef are
    parsed; other JSON is refused. *)
Definition refParse (text : jsstring) : result (option TamperSpec) :=
  match parseJson text with
  | Some JNull => Ok None
  | Some j =>
      match specOfJson j with
      | Some s => Ok (Some s)
      | None => Throw TypeError
      end
  | None => Throw SyntaxError
  end.

(** Lower-casing of the ASCII letters. *)
Definition asciiLower (s : jsstring) : jsstring :=
  map (fun c => if inRange 65 90 c then c + 32 else c) s.

(** The reference RegExp: the source, read as literal characters and dots,
    and whether case is ignored. *)
Record refRegExp : Type := {
  pattern : jsstring;
  ignoreCase : bool
}.

(** The source has an opening parenthesis and neither a closing one, nor a
    backslash, nor a bracket: a group that is not closed. *)
Definition unclosedGroup (source : jsstring) : bool :=
  existsb (Z.eqb 40) source &&
  negb (existsb (fun c => (c =? 41) || (c =? 92) || (c =? 91)) source).

Fixpoint distinct (l : list Z) : bool :=
  match l with
  | [] => true
  | c :: l' => negb (existsb (Z.eqb c) l') && distinct l'
  end.

(** Flags are letters of [dgimsuvy], none of them twice. *)
Definition validFlags (flags : jsstring) : bool :=
  forallb (fun c => existsb (Z.eqb c) (str "dgimsuvy")) flags &&
  distinct flags.

(** [new RegExp(source, flags)], [None] when it throws its SyntaxError;
    [null] flags are the text [null], which names no flags. *)
Definition refNewRegExp (source : jsstring)
    (flags : option (option jsstring)) : option refRegExp :=
  if unclosedGroup source then None
  else
    match flags with
    | None => Some {| pattern := source; ignoreCase := false |}
    | Some None => None
    | Some (Some f) =>
        if validFlags f
        then Some {| pattern := source;
                     ignoreCase := existsb (Z.eqb 105) f |}
        else None
    end.

(** The pattern at the start of the string; a dot stands for any character
    but a line terminator. *)
Fixpoint patternAt (p s : jsstring) : bool :=
  match p, s with
  | [], _ => true
  | a :: p', b :: s' =>
      (if a =? 46 then negb (isLineTerminator b) else a =? b) &&
      patternAt p' s'
  | _ :: _, [] => false
  end.

Fixpoint contains (p s : jsstring) : bool :=
  patternAt p s ||
  match s with
  | [] => false
  | _ :: s' => contains p s'
  end.

Definition refStringMatch (url : jsstring) (re : refRegExp) : bool :=
  if ignoreCase re then contains (asciiLower (pattern re)) (asciiLower url)
  else contains (pattern re) url.

(** ** Keys and copies *)

(** [deepClone]: a JSON round trip, which leaves a value of the data model
    as it is; [JSON.stringify(undefined)] is [undefined], which
    [JSON.parse] refuses, so the copy of a missing value is a
    SyntaxError. *)
Definition deepClone {A : Type} (obj : A) : A := obj.

Definition deepCloneOrMissing {A : Type} (obj : option A) : result A :=
  match obj with
  | Some a => Ok (deepClone a)
  | None => Throw SyntaxError
  end.

(** The decimal rendering of an integer, as string concatenation does it. *)
Definition numberToString (n : Z) : jsstring :=
  str (NilZero.string_of_int (Z.to_int n)).

Definition makeKey (tabId frameId : Z) (url : jsstring) : jsstring :=
  numberToString tabId ++ str "::" ++ numberToString frameId ++ str "::" ++ url.

(** A possibly missing string where a string is built or a property is
    named: [undefined] is rendered as its name. *)
Definition propertyKey (k : option jsstring) : jsstring :=
  match k with
  | Some s => s
  | None => str "undefined"
  end.

(** A value concatenated to a string: [undefined] and [null] are rendered
    as their names. *)
Definition asText (v : option (option jsstring)) : jsstring :=
  match v with
  | Some (Some s) => s
  | Some None => str "null"
  | None => str "undefined"
  end.

(** ** Tamper store *)

(** [addPattern(params)]: the two tests are on [typeof ... === "undefined"],
    so a [null] passes them. *)
Definition addPattern (st : TamperStore) (params : PatternParams)
    : result TamperStore :=
  match regexes params, urls params with
  | None, None =>
      Throw (Error "neither params.regexes nor params.urls specified.")
  | _, _ =>
      match tamper params with
      | None => Throw (Error "params.tamper not specified.")
      | Some t =>
          let params := deepClone params in
          n <- _normalizeTamperSpec (Some t) ;;
          Ok {| _data := _data st;
                _patternMods :=
                  {| regexes := regexes params; urls := urls params;
                     tamper := Some (Some n) |} :: _patternMods st |}
      end
  end.

(** [setDirect(key, value)], [value] being missing, [null] or a spec. *)
Definition setDirect (st : TamperStore) (key : jsstring)
    (value : option (option TamperSpec)) : result TamperStore :=
  value <- deepCloneOrMissing value ;;
  value <- _normalizeTamperSpec (Some value) ;;
  let value := with_key value (Some key) in
  Ok {| _data := oset key value (_data st);
        _patternMods := _patternMods st |}.

Definition getDirect (st : TamperStore) (key : jsstring)
    : option TamperSpec :=
  match oget key (_data st) with
  | None => None
  | Some value => Some (deepClone value)
  end.

Definition removeDirect (st : TamperStore) (key : jsstring) : TamperStore :=
  {| _data := odelete key (_data st); _patternMods := _patternMods st |}.

Definition set (st : TamperStore) (tabId frameId : Z) (url : jsstring)
    (modifyOpts : option (option TamperSpec)) : result TamperStore :=
  let key := makeKey tabId frameId url in
  setDirect st key modifyOpts.

(** [TamperStore.prototype.remove]; [remove] alone names the property of a
    TamperSpec. *)
Definition remove_ (st : TamperStore) (tabId frameId : Z) (url : jsstring)
    : TamperStore :=
  let key := makeKey tabId frameId url in
  removeDirect st key.

(** [modifyOpts.requestId === requestId]. *)
Definition hasRequestId (id : jsstring) (modifyOpts : TamperSpec) : bool :=
  match requestId modifyOpts with
  | Some (Some r) => streq r id
  | _ => false
  end.

Fixpoint getByRequestIdLoop (id : jsstring) (entries : jsobj TamperSpec)
    : option TamperSpec :=
  match entries with
  | [] => None
  | (_, modifyOpts) :: rest =>
      if hasRequestId id modifyOpts then Some (deepClone modifyOpts)
      else getByRequestIdLoop id rest
  end.

Definition getByRequestId (st : TamperStore) (id : jsstring)
    : option TamperSpec :=
  getByRequestIdLoop id (_data st).

(** ** Store states and their invariants *)

(** An association of the typedef: neither list is [null], and the spec is
    none or one of the typedef. *)
Record plainParams (p : PatternParams) : Prop := {
  plain_regexes : notNull (regexes p);
  plain_urls : notNull (urls p);
  plain_tamper : plainArgument (tamper p)
}.

(** The properties every object has from [Object.prototype]. *)
Definition objectPrototypeNames : list jsstring :=
  [str "__proto__"; str "constructor"; str "hasOwnProperty";
   str "isPrototypeOf"; str "propertyIsEnumerable"; str "toLocaleString";
   str "toString"; str "valueOf"; str "__defineGetter__";
   str "__defineSetter__"; str "__lookupGetter__"; str "__lookupSetter__"].

(** A key under which [_data] holds what is assigned to it as a property
    of its own, and reads as [undefined] before: the composite keys are
    such, the names of [Object.prototype] are not. *)
Definition ownKey (key : jsstring) : Prop := ~ In key objectPrototypeNames.

(** The states the store goes through: built by [new TamperStore()] and
    changed by its methods only, the specs and associations given to them
    being such that [okSpec] and [okParams] hold, and the keys given to
    [setDirect] naming no property of [Object.prototype]. *)
Inductive reachableWith (okSpec : option (option TamperSpec) -> Prop)
    (okParams : PatternParams -> Prop) : TamperStore -> Prop :=
| reach_new : reachableWith okSpec okParams newTamperStore
| reach_addPattern st params st' :
    reachableWith okSpec okParams st -> okParams params ->
    addPattern st params = Ok st' -> reachableWith okSpec okParams st'
| reach_setDirect st key value st' :
    reachableWith okSpec okParams st -> okSpec value -> ownKey key ->
    setDirect st key value = Ok st' -> reachableWith okSpec okParams st'
| reach_set st tabId frameId url value st' :
    reachableWith okSpec okParams st -> okSpec value ->
    set st tabId frameId url value = Ok st' ->
    reachableWith okSpec okParams st'
| reach_removeDirect st key :
    reachableWith okSpec okParams st ->
    reachableWith okSpec okParams (removeDirect st key)
| reach_remove st tabId frameId url :
    reachableWith okSpec okParams st ->
    reachableWith okSpec okParams (remove_ st tabId frameId url).

(** The states reached whatever the methods are given. *)
Definition reachable : TamperStore -> Prop :=
  reachableWith (fun _ => True) (fun _ => True).

(** The states reached when the methods are given specs and associations
    of the typedef. *)
Definition reachablePlain : TamperStore -> Prop :=
  reachableWith plainArgument plainParams.

(** The normaliser returns the spec as it is: what it has returned once,
    it returns again. *)
Definition settledSpec (s : TamperSpec) : Prop :=
  _normalizeTamperSpec (Some (Some s)) = Ok s.

(** A stored spec is normalised and stamped with the key it is stored
    under. *)
Definition entryOk (kv : jsstring * TamperSpec) : Prop :=
  normalized (snd kv) /\ key (snd kv) = Some (fst kv).

(** A pattern entry has a matcher and a normalised [tamper]. *)
Definition patternOk (e : PatternParams) : Prop :=
  ((exists rs, regexes e = Some (Some rs)) \/
   (regexes e = None /\ exists us, urls e = Some (Some us))) /\
  exists t, tamper e = Some (Some t) /\ normalized t.

Record storeOk (st : TamperStore) : Prop := {
  ok_data : Forall entryOk (_data st);
  ok_keys : NoDup (okeys (_data st));
  ok_patterns : Forall patternOk (_patternMods st)
}.

(** What holds of a stored spec whatever the store was given: the
    normaliser has returned it, and it is stamped with its key. *)
Definition entryKept (kv : jsstring * TamperSpec) : Prop :=
  settledSpec (snd kv) /\ key (snd kv) = Some (fst kv).

Definition patternKept (e : PatternParams) : Prop :=
  (regexes e <> None \/ urls e <> None) /\
  exists t, tamper e = Some (Some t) /\ settledSpec t.

Record storeKept (st : TamperStore) : Prop := {
  kept_data : Forall entryKept (_data st);
  kept_keys : NoDup (okeys (_data st));
  kept_patterns : Forall patternKept (_patternMods st)
}.

(** [opts.once] is set. *)
Definition isOnce (s : TamperSpec) : bool :=
  match opts s with
  | Some (Some o) =>
      match once o with
      | Some (Some true) => true
      | _ => false
      end
  | _ => false
  end.

(** No stored spec but the one under [k] carries the request identifier. *)
Definition onlyBearer (st : TamperStore) (id k : jsstring) : Prop :=
  forall k' s', In (k', s') (_data st) -> hasRequestId id s' = true -> k' = k.

(** ** Example data *)

(** The store an operation leaves, the empty store if it throws. *)
Definition run (r : result TamperStore) : TamperStore :=
  match r with
  | Ok st => st
  | Throw _ => newTamperStore
  end.

Definition urlA : jsstring := str "http://a".
Definition urlB : jsstring := str "http://b".
Definition urlX : jsstring := str "http://x.test/a".

Definition specOrigin : TamperSpec :=
  {| headers := Some (Some [(str "Origin", Some (str "evil.test"))]);
     remove := None; response := None; opts := None;
     requestId := None; key := None |}.

(** A header value made of a question mark: its token holds a slash. *)
Definition specQuestion : TamperSpec :=
  {| headers := Some (Some [(str "a", Some (str "?"))]);
     remove := None; response := None; opts := None;
     requestId := None; key := None |}.

(** Header names and values beyond ASCII: Latin letters with diacritics, a
    check mark and a character outside the basic plane. *)
Definition specUnicode : TamperSpec :=
  {| headers :=
       Some (Some [(str "X-" ++ [220; 110; 239],
                    Some [10003; 32; 55357; 56832]);
                   (str "Origin", None)]);
     remove := Some (Some [[233]]);
     response :=
       Some (Some {| r_headers := Some (Some [(str "a", Some (str "%/+"))]);
                     r_remove := None |});
     opts := Some (Some {| once := Some (Some true) |});
     requestId := None; key := None |}.

(** A spec with parts that are [null]. *)
Definition specNullParts : TamperSpec :=
  {| headers := Some None; remove := None;
     response := None; opts := Some None;
     requestId := None; key := None |}.


(** A spec that sets a header named [hasOwnProperty] and maps [Origin] to
    [null]. *)
Definition specOwnProperty : TamperSpec :=
  {| headers := Some (Some [(str "hasOwnProperty", Some (str "x"));
                            (str "Origin", None)]);
     remove := None; response := None; opts := None;
     requestId := None; key := None |}.

(** A spec bound to the request 7, as the store holds it under a key. *)
Definition boundSpec (isOnce : option (option bool)) (k : jsstring)
    : TamperSpec :=
  {| headers := Some (Some []); remove := Some (Some []);
     response := Some (Some {| r_headers := Some (Some []);
                               r_remove := Some (Some []) |});
     opts := Some (Some {| once := isOnce |});
     requestId := Some (Some (str "7")); key := Some k |}.

Definition specBound : TamperSpec :=
  with_requestId emptySpec (Some (Some (str "7"))).

Definition specOnce : TamperSpec :=
  {| headers := None; remove := None; response := None;
     opts := Some (Some {| once := Some (Some true) |});
     requestId := Some (Some (str "7")); key := None |}.

(** A spec that sets the response header [Location]. *)
Definition specSetsLocation : TamperSpec :=
  {| headers := None; remove := None;
     response :=
       Some (Some {| r_headers := Some (Some [(str "Location", Some urlB)]);
                     r_remove := None |});
     opts := None; requestId := Some (Some (str "7")); key := None |}.

(** The same spec as the store holds it under the key of [http://a]. *)
Definition storedSetsLocation : TamperSpec :=
  {| headers := Some (Some []); remove := Some (Some []);
     response :=
       Some (Some {| r_headers := Some (Some [(str "Location", Some urlB)]);
                     r_remove := Some (Some []) |});
     opts := Some (Some {| once := None |});
     requestId := Some (Some (str "7")); key := Some (makeKey 1 0 urlA) |}.

(** A bound spec that sets the response header [hasOwnProperty]. *)
Definition specOwnResponse : TamperSpec :=
  {| headers := None; remove := None;
     response :=
       Some (Some {| r_headers :=
                       Some (Some [(str "hasOwnProperty", Some (str "x"))]);
                     r_remove := None |});
     opts := Some (Some {| once := Some (Some true) |});
     requestId := Some (Some (str "7")); key := None |}.

Definition patternUrlX : PatternParams :=
  {| regexes := None; urls := Some (Some [urlX]);
     tamper := Some (Some specOrigin) |}.

Definition patternRegexX : PatternParams :=
  {| regexes := Some (Some [{| re_source := str "x.test";
                               re_flags := None |}]);
     urls := None; tamper := Some (Some specQuestion) |}.

(** An association with an empty list of regexes and a list of urls. *)
Definition patternBoth : PatternParams :=
  {| regexes := Some (Some []); urls := Some (Some [urlX]);
     tamper := Some (Some emptySpec) |}.

Definition patternUrlA : PatternParams :=
  {| regexes := None; urls := Some (Some [urlA]);
     tamper := Some (Some emptySpec) |}.

(** An association whose regular expression is an unclosed group. *)
Definition patternUnclosed : PatternParams :=
  {| regexes := Some (Some [{| re_source := str "("; re_flags := None |}]);
     urls := None; tamper := Some (Some emptySpec) |}.

(** An association whose list of regexes is [null] and that has no
    urls. *)
Definition patternNullRegexes : PatternParams :=
  {| regexes := Some None; urls := None; tamper := Some (Some emptySpec) |}.

Definition storePatterns : TamperStore :=
  run (addPattern (run (addPattern newTamperStore patternUrlX)) patternRegexX).

Definition storeBoth : TamperStore :=
  run (addPattern newTamperStore patternBoth).

Definition storeUnclosed : TamperStore :=
  run (addPattern (run (addPattern newTamperStore patternUrlX))
                  patternUnclosed).

Definition storeBound : TamperStore :=
  run (set newTamperStore 1 0 urlA (Some (Some specBound))).

Definition storeBoundPattern : TamperStore :=
  run (set (run (addPattern newTamperStore patternUrlA)) 1 0 urlA
           (Some (Some specBound))).

Definition storeOnce : TamperStore :=
  run (set newTamperStore 1 0 urlA (Some (Some specOnce))).

(** Two stored specs that carry the same request identifier. *)
Definition storeTwice : TamperStore :=
  run (set storeOnce 1 0 urlB (Some (Some specOnce))).

Definition storeSetsLocation : TamperStore :=
  run (set newTamperStore 1 0 urlA (Some (Some specSetsLocation))).

Definition storeNullParts : TamperStore :=
  run (set newTamperStore 1 0 urlA (Some (Some specNullParts))).

Definition storeOwnResponse : TamperStore :=
  run (set newTamperStore 1 0 urlA (Some (Some specOwnResponse))).

Definition event (u : jsstring) (status : Z) (responseHeaders : list header)
    : details.t :=
  {| details.url := u; details.tabId := 1; details.frameId := 0;
     details.requestId := str "7"; details.statusCode := status;
     details.requestHeaders := [];
     details.responseHeaders := responseHeaders |}.

Definition locationB : header :=
  {| name := str "Location"; value := Some (Some urlB) |}.

(** A [Location] header that has a [binaryValue] and no [value]. *)
Definition locationBinary : header :=
  {| name := str "Location"; value := None |}.

Definition tokenOrigin : jsstring :=
  str "eyJoZWFkZXJzIjp7Ik9yaWdpbiI6ImV2aWwudGVzdCJ9fQ==".

(** ** Messages of the content script *)

(** A [TamperApiMsg].  [command] is missing or a string; [options], the
    argument of [addPattern] for the command [MetaTamper], may be missing
    as well. *)
Record TamperApiMsg : Type := {
  command : option jsstring;
  options : option PatternParams
}.

(** What the listener passes to [sendResponse]: an object with [success]
    and [msg], or a text. *)
Inductive reply : Type :=
| Outcome (success : bool) (msg : string)
| Text (msg : string).

(** [addMetaTamper]: [tamperState.addPattern(params)]; reading a property
    of a missing [params] is a TypeError. *)
Definition addMetaTamper (st : TamperStore) (params : option PatternParams)
    : result TamperStore :=
  match params with
  | None => Throw TypeError
  | Some p => addPattern st p
  end.

(** The [chrome.runtime.onMessage] listener: the store it leaves and the
    argument of its call of [sendResponse], if it makes one, or what it
    throws.  A missing and an empty [command] are both falsy; an unknown
    command is logged and not answered. *)
Definition onMessage (st : TamperStore) (msg : TamperApiMsg)
    : TamperStore * result (option reply) :=
  let noCommand :=
    (st, Ok (Some (Outcome false
       "msg did not have 'command' property, which is required."))) in
  match command msg with
  | None => noCommand
  | Some cmd =>
      if streq cmd [] then noCommand
      else if streq cmd (str "sendBackground") then
        (st, Ok (Some (Text
           "this is a response from background script to content script via sendResponse callback.")))
      else if streq cmd (str "RegisterCb") then
        (st, Throw (Error "not implemented."))
      else if streq cmd (str "MetaTamper") then
        match addMetaTamper st (options msg) with
        | Throw e => (st, Throw e)
        | Ok st' =>
            (st', Ok (Some (Outcome true
                "MetaTamper entry created successfully.")))
        end
      else (st, Ok None)
  end.

(** A request with its request headers, in tab 1 and frame 0. *)
Definition request (u : jsstring) (requestHeaders : list header)
    : details.t :=
  {| details.url := u; details.tabId := 1; details.frameId := 0;
     details.requestId := str "7"; details.statusCode := 0;
     details.requestHeaders := requestHeaders;
     details.responseHeaders := [] |}.

(** A one-shot spec registered for [http://a]. *)
Definition specOnceOnly : TamperSpec :=
  {| headers := Some (Some [(str "Origin", Some (str "evil.test"))]);
     remove := None; response := None;
     opts := Some (Some {| once := Some (Some true) |});
     requestId := None; key := None |}.

Definition patternOnceA : PatternParams :=
  {| regexes := None; urls := Some (Some [urlA]);
     tamper := Some (Some specOnceOnly) |}.

Definition storeOncePattern : TamperStore :=
  run (addPattern newTamperStore patternOnceA).

(** The spec of [specOnceOnly] as the pattern list holds it. *)
Definition normalOnceOnly : TamperSpec :=
  {| headers := Some (Some [(str "Origin", Some (str "evil.test"))]);
     remove := Some (Some []);
     response := Some (Some {| r_headers := Some (Some []);
                               r_remove := Some (Some []) |});
     opts := Some (Some {| once := Some (Some true) |});
     requestId := None; key := None |}.

(** The token of [specQuestion]; it holds a slash. *)
Definition tokenQuestion : jsstring := str "eyJoZWFkZXJzIjp7ImEiOiI/In19".

(** A token in the URL-safe alphabet. *)
Definition tokenUrlSafe : jsstring := str "e30-".

(** ** Host builtins *)

(** What the scripts take from the JavaScript host. *)
Class Host : Type := {
  (** [String.prototype.toLowerCase] *)
  toLowerCase : jsstring -> jsstring;
  (** the RegExp objects *)
  RegExp : Type;
  (** [new RegExp(source, flags)], [None] when the constructor throws its
      SyntaxError *)
  newRegExp : jsstring -> option (option jsstring) -> option RegExp;
  (** [url.match(regex)] is not [null] *)
  stringMatch : jsstring -> RegExp -> bool;
  (** [JSON.stringify] on a TamperSpec *)
  JSON_stringify : TamperSpec -> jsstring;
  (** [JSON.parse] on the text of [null] ([None]) and on the text of a
      TamperSpec; no law draws on what it gives on the text of another
      value, or on its throwing *)
  JSON_parse : jsstring -> result (option TamperSpec)
}.

(** The reference host: ASCII lower-casing, regular expressions made of
    literal characters and dots, and the reference JSON. *)
#[export] Instance referenceHost : Host := {
  toLowerCase := asciiLower;
  RegExp := refRegExp;
  newRegExp := refNewRegExp;
  stringMatch := refStringMatch;
  JSON_stringify := refStringify;
  JSON_parse := refParse
}.

Section Engine.
Context {host : Host}.

(** ** Header transform *)

(** [a.toLowerCase() === b.toLowerCase()]. *)
Definition sameName (a b : jsstring) : bool :=
  streq (toLowerCase a) (toLowerCase b).

(** [o.hasOwnProperty(k)]: the method of [Object.prototype], unless [o] has
    a property of that name of its own; a value out of [JSON.parse] is no
    function, and calling it is a TypeError. *)
Definition hasOwnProperty {V : Type} (o : jsobj V) (k : jsstring)
    : result bool :=
  match oget (str "hasOwnProperty") o with
  | Some _ => Throw TypeError
  | None =>
      Ok (match oget k o with
          | Some _ => true
          | None => false
          end)
  end.

(** The inner loop of [setHeaders]: every header named [toSetKey] (up to
    case) is replaced by one with the same name and the new value; the
    flag is [foundHeaderToSet]. *)
Fixpoint overwriteAll (toSetKey : jsstring) (setHeaderTo : option jsstring)
    (headers : list header) : list header * bool :=
  match headers with
  | [] => ([], false)
  | h :: rest =>
      let (rest', found) := overwriteAll toSetKey setHeaderTo rest in
      if sameName toSetKey (name h)
      then ({| name := name h; value := Some setHeaderTo |} :: rest', true)
      else (h :: rest', found)
  end.

(** The body of the outer loop of [setHeaders] after its test. *)
Definition setHeader (headers : list header)
    (entry : jsstring * option jsstring) : list header :=
  let (toSetKey, setHeaderTo) := entry in
  let (headers', foundHeaderToSet) :=
    overwriteAll toSetKey setHeaderTo headers in
  if foundHeaderToSet then headers'
  else headers' ++ [{| name := toSetKey; value := Some setHeaderTo |}].

(** The outer loop of [setHeaders] over the enumerated entries of
    [toSet]. *)
Fixpoint setHeadersLoop (toSet entries : jsobj (option jsstring))
    (headers : list header) : result (list header) :=
  match entries with
  | [] => Ok headers
  | entry :: rest =>
      own <- hasOwnProperty toSet (fst entry) ;;
      if (own : bool) then setHeadersLoop toSet rest (setHeader headers entry)
      else setHeadersLoop toSet rest headers
  end.

Definition setHeaders (headers : list header)
    (toSet : jsobj (option jsstring)) : result (list header) :=
  setHeadersLoop toSet toSet headers.

(** The splice loop of [removeHeaders], [lowered] being the lower-cased
    [toRemove]. *)
Fixpoint removeLoop (lowered : list jsstring) (headers : list header)
    : list header :=
  match headers with
  | [] => []
  | h :: rest =>
      if includes lowered (toLowerCase (name h))
      then removeLoop lowered rest
      else h :: removeLoop lowered rest
  end.

Definition removeHeaders (headers : list header) (toRemove : list jsstring)
    : list header :=
  removeLoop (map toLowerCase toRemove) headers.

(** [getHeader]: the [value] of the first header with that name, which is
    [undefined] ([None]) for a header without [value], and [null] when
    there is no such header. *)
Fixpoint getHeader (headers : list header) (key : jsstring)
    : option (option jsstring) :=
  match headers with
  | [] => Some None
  | h :: rest =>
      if streq (toLowerCase (name h)) (toLowerCase key) then value h
      else getHeader rest key
  end.

(** *** What [setHeaders] is specified to compute *)

(** The value [toSet] assigns to a header name, compared without case. *)
Fixpoint assignedTo (n : jsstring) (toSet : jsobj (option jsstring))
    : option (option jsstring) :=
  match toSet with
  | [] => None
  | (k, v) :: toSet' => if sameName k n then Some v else assignedTo n toSet'
  end.

(** A pre-existing header keeps its name and takes the assigned value. *)
Definition overwritten (toSet : jsobj (option jsstring)) (h : header)
    : header :=
  match assignedTo (name h) toSet with
  | Some v => {| name := name h; value := Some v |}
  | None => h
  end.

Definition hasHeader (headers : list header) (k : jsstring) : bool :=
  existsb (fun h => sameName k (name h)) headers.

Definition asHeader (entry : jsstring * option jsstring) : header :=
  {| name := fst entry; value := Some (snd entry) |}.

(** The entries of [toSet] that name no pre-existing header, as headers. *)
Definition appended (headers : list header)
    (toSet : jsobj (option jsstring)) : list header :=
  map asHeader
      (filter (fun kv => negb (hasHeader headers (fst kv))) toSet).

(** No two names of [toSet] are equal up to case. *)
Definition distinctNames (toSet : jsobj (option jsstring)) : Prop :=
  NoDup (map (fun kv => toLowerCase (fst kv)) toSet).

(** [toSet] has no property named [hasOwnProperty]. *)
Definition plainNames {V : Type} (toSet : jsobj V) : Prop :=
  oget (str "hasOwnProperty") toSet = None.

(** The effect of one entry of [toSet] on one header. *)
Definition overwriteOne (k : jsstring) (v : option jsstring) (h : header)
    : header :=
  if sameName k (name h) then {| name := name h; value := Some v |} else h.

(** ** Pattern scan and resolution *)

(** [makeRegex(regexSpec)]. *)
Definition makeRegex (regexSpec : RegexSpec) : result RegExp :=
  match newRegExp (re_source regexSpec) (re_flags regexSpec) with
  | Some regex => Ok regex
  | None => Throw SyntaxError
  end.

(** [regexes.some((regex) => url.match(makeRegex(regex)))]: the regexes are
    made and tried in turn up to the first that matches. *)
Fixpoint someRegex (url : jsstring) (regexes : list RegexSpec)
    : result bool :=
  match regexes with
  | [] => Ok false
  | regex :: rest =>
      made <- makeRegex regex ;;
      if stringMatch url made then Ok true else someRegex url rest
  end.

(** The test of one entry of [_patternMods]: the regexes when the entry has
    a list of them (an empty list is truthy as well), its urls otherwise;
    [some] on an [urls] that is missing or [null] is a TypeError. *)
Definition entryMatched (url : jsstring) (patternEntry : PatternParams)
    : result bool :=
  match regexes patternEntry with
  | Some (Some rs) => someRegex url rs
  | _ =>
      match urls patternEntry with
      | Some (Some us) =>
          Ok (existsb (fun allowedUrl => streq url allowedUrl) us)
      | _ => Throw TypeError
      end
  end.

(** The [some] loop of [_scanPatternMods]: the [tamper] of the first entry
    that matches, [Ok None] when the variable [tamperSpec] stays [null]. *)
Fixpoint scanLoop (url : jsstring) (entries : list PatternParams)
    : result (option (option (option TamperSpec))) :=
  match entries with
  | [] => Ok None
  | patternEntry :: rest =>
      matched <- entryMatched url patternEntry ;;
      if (matched : bool) then Ok (Some (tamper patternEntry))
      else scanLoop url rest
  end.

(** [deepClone] of the scan result, which is [null] when nothing
    matched. *)
Definition _scanPatternMods (st : TamperStore) (url : jsstring)
    : result (option TamperSpec) :=
  found <- scanLoop url (_patternMods st) ;;
  match found with
  | None => Ok None
  | Some tamperSpec => deepCloneOrMissing tamperSpec
  end.

Definition get (st : TamperStore) (tabId frameId : Z) (url : jsstring)
    : result (option TamperSpec) :=
  let key := makeKey tabId frameId url in
  match getDirect st key with
  | Some tamperSpec => Ok (Some tamperSpec)
  | None => _scanPatternMods st url
  end.

(** ** Request lifecycle *)

Definition decodeReqModifyOpts (s : jsstring) : result (option TamperSpec) :=
  text <- b64DecodeUnicode s ;; JSON_parse text.

(** [TamperApi.makeUrl] of the page script. *)
Definition makeUrl (url : jsstring) (tamperSpec : TamperSpec)
    : result jsstring :=
  token <- b64EncodeUnicode (JSON_stringify tamperSpec) ;;
  Ok (url ++ delimiter ++ token).

(** The listeners work on the one store [tamperState]; each is given by
    the store it leaves and by what it returns or throws. *)

(** The [onBeforeRequest] listener; it returns the [redirectUrl], if any.
    Setting [requestId] on a decoded [null] is a TypeError. *)
Definition onBeforeRequest (st : TamperStore) (d : details.t)
    : TamperStore * result (option jsstring) :=
  match matchTag (details.url d) with
  | None => (st, Ok None)
  | Some (origUrl, token) =>
      match decodeReqModifyOpts token with
      | Throw e => (st, Throw e)
      | Ok None => (st, Throw TypeError)
      | Ok (Some reqModifyOpts) =>
          let reqModifyOpts := with_requestId reqModifyOpts (Some None) in
          match set st (details.tabId d) (details.frameId d) origUrl
                    (Some (Some reqModifyOpts)) with
          | Throw e => (st, Throw e)
          | Ok st' => (st', Ok (Some origUrl))
          end
      end
  end.

(** The request-phase header changes of [onBeforeSendHeaders]: each of the
    two is made when the property is truthy, that is an object. *)
Definition tamperRequest (reqModifyOpts : TamperSpec)
    (requestHeaders : list header) : result (list header) :=
  requestHeaders <-
    match headers reqModifyOpts with
    | Some (Some toSet) => setHeaders requestHeaders toSet
    | _ => Ok requestHeaders
    end ;;
  Ok (match remove reqModifyOpts with
      | Some (Some toRemove) => removeHeaders requestHeaders toRemove
      | _ => requestHeaders
      end).

(** The [onBeforeSendHeaders] listener; it returns the [requestHeaders], if
    any. *)
Definition onBeforeSendHeaders (st : TamperStore) (d : details.t)
    : TamperStore * result (option (list header)) :=
  match get st (details.tabId d) (details.frameId d) (details.url d) with
  | Throw e => (st, Throw e)
  | Ok None => (st, Ok None)
  | Ok (Some reqModifyOpts) =>
      match tamperRequest reqModifyOpts (details.requestHeaders d) with
      | Throw e => (st, Throw e)
      | Ok requestHeaders =>
          let reqModifyOpts :=
            with_requestId reqModifyOpts
                           (Some (Some (details.requestId d))) in
          match set st (details.tabId d) (details.frameId d) (details.url d)
                    (Some (Some reqModifyOpts)) with
          | Throw e => (st, Throw e)
          | Ok st' => (st', Ok (Some requestHeaders))
          end
      end
  end.

(** The message of the error [checkIfRedirect] throws. *)
Definition noLocation : string :=
  "tamperApi::checkIfRedirect: found 301 status but no location header.".

(** [checkIfRedirect] on the status code and on the response headers that
    [details] holds when it is called.  It returns [null] ([Some None]) for
    a status that is no redirect and throws when [getHeader] returns
    [null]; a [Location] header without [value] makes it return
    [undefined] ([None]). *)
Definition checkIfRedirect (statusCode : Z) (responseHeaders : list header)
    : result (option (option jsstring)) :=
  if (statusCode =? 301) || (statusCode =? 302) then
    match getHeader responseHeaders (str "Location") with
    | Some None => Throw (Error noLocation)
    | redirectTarget => Ok redirectTarget
    end
  else Ok (Some None).

(** The response-phase header changes of [onHeadersReceived].  [setHeaders]
    and [removeHeaders] work in place on the array [details.responseHeaders]
    and return it, so the outcome is both the local [responseHeaders] and
    what [details] holds afterwards; when the [response] part is falsy the
    local stays [null] and the array is untouched. *)
Definition tamperResponse (reqModifyOpts : TamperSpec)
    (responseHeaders : list header)
    : result (option (list header) * list header) :=
  match response reqModifyOpts with
  | Some (Some resp) =>
      hs <-
        match r_headers resp with
        | Some (Some toSet) => setHeaders responseHeaders toSet
        | _ => Ok responseHeaders
        end ;;
      let hs :=
        match r_remove resp with
        | Some (Some toRemove) => removeHeaders hs toRemove
        | _ => hs
        end in
      Ok (Some hs, hs)
  | _ => Ok (None, responseHeaders)
  end.

(** [reqModifyOpts.opts.once] as a condition; reading [once] of an [opts]
    that is missing or [null] is a TypeError. *)
Definition onceSet (reqModifyOpts : TamperSpec) : result bool :=
  match opts reqModifyOpts with
  | Some (Some o) =>
      match once o with
      | Some (Some true) => Ok true
      | _ => Ok false
      end
  | _ => Throw TypeError
  end.

(** The [onHeadersReceived] listener; it returns the [responseHeaders], if
    any.  The redirect target is what [checkIfRedirect] returned when that
    is not [null]; in the key, [undefined] is rendered as its name. *)
Definition onHeadersReceived (st : TamperStore) (d : details.t)
    : TamperStore * result (option (list header)) :=
  match getByRequestId st (details.requestId d) with
  | None => (st, Ok None)
  | Some reqModifyOpts =>
      match tamperResponse reqModifyOpts (details.responseHeaders d) with
      | Throw e => (st, Throw e)
      | Ok (responseHeaders, heldByDetails) =>
          match checkIfRedirect (details.statusCode d) heldByDetails with
          | Throw e => (st, Throw e)
          | Ok (Some None) =>
              match onceSet reqModifyOpts with
              | Throw e => (st, Throw e)
              | Ok true =>
                  (removeDirect st (propertyKey (key reqModifyOpts)),
                   Ok responseHeaders)
              | Ok false => (st, Ok responseHeaders)
              end
          | Ok redirectTarget =>
              let st1 := removeDirect st (propertyKey (key reqModifyOpts)) in
              match set st1 (details.tabId d) (details.frameId d)
                        (asText redirectTarget)
                        (Some (Some reqModifyOpts)) with
              | Throw e => (st1, Throw e)
              | Ok st2 => (st2, Ok responseHeaders)
              end
          end
      end
  end.

(** ** Resolution as specified *)

(** The regular expression can be made. *)
Definition compiles (r : RegexSpec) : Prop :=
  newRegExp (re_source r) (re_flags r) <> None.

(** The regular expression can be made and matches the URL. *)
Definition regexMatches (url : jsstring) (r : RegexSpec) : bool :=
  match newRegExp (re_source r) (re_flags r) with
  | Some regex => stringMatch url regex
  | None => false
  end.

(** An association applies to a URL through its regexes when it has a list
    of them, through its urls otherwise. *)
Definition matchesUrl (url : jsstring) (e : PatternParams) : bool :=
  match regexes e with
  | Some (Some rs) => existsb (regexMatches url) rs
  | _ =>
      match urls e with
      | Some (Some us) => existsb (fun allowedUrl => streq url allowedUrl) us
      | _ => false
      end
  end.

(** An association applies to a URL through its regexes or through its
    urls. *)
Definition matchesEither (url : jsstring) (e : PatternParams) : bool :=
  match regexes e with
  | Some (Some rs) => existsb (regexMatches url) rs
  | _ => false
  end ||
  match urls e with
  | Some (Some us) => existsb (fun allowedUrl => streq url allowedUrl) us
  | _ => false
  end.

(** The scan can test the association: its regexes can all be made or,
    when it has no list of regexes, it has a list of urls. *)
Definition testable (e : PatternParams) : Prop :=
  match regexes e with
  | Some (Some rs) => Forall compiles rs
  | _ => exists us, urls e = Some (Some us)
  end.

(** The direct entry under the composite key if there is one, otherwise the
    [tamper] of the first association of the list that applies, otherwise
    [null]. *)
Definition resolve (applies : jsstring -> PatternParams -> bool)
    (st : TamperStore) (tabId frameId : Z) (url : jsstring)
    : option TamperSpec :=
  match oget (makeKey tabId frameId url) (_data st) with
  | Some s => Some s
  | None =>
      match find (applies url) (_patternMods st) with
      | Some e => object (tamper e)
      | None => None
      end
  end.

(** A spec survives its JSON text: the text is well-formed and is parsed
    back to the spec. *)
Definition JSON_representable (s : TamperSpec) : Prop :=
  wellFormed (JSON_stringify s) = true /\
  JSON_parse (JSON_stringify s) = Ok (Some s).

(** The spec sets no request header under the name [hasOwnProperty]. *)
Definition requestCallable (reqModifyOpts : TamperSpec) : Prop :=
  forall toSet,
    headers reqModifyOpts = Some (Some toSet) -> plainNames toSet.

(** The spec sets no response header under the name [hasOwnProperty]. *)
Definition responseCallable (reqModifyOpts : TamperSpec) : Prop :=
  forall resp toSet,
    response reqModifyOpts = Some (Some resp) ->
    r_headers resp = Some (Some toSet) -> plainNames toSet.

(** The spec as given, before it is normalised, gives no value to a
    request header, respectively a response header, named
    [hasOwnProperty]. *)
Definition noOwnRequestHeader (s : TamperSpec) : Prop :=
  kept (headerOf (Some (Some s)) (str "hasOwnProperty")) = None.

Definition noOwnResponseHeader (s : TamperSpec) : Prop :=
  kept (responseHeaderOf (Some (Some s)) (str "hasOwnProperty")) = None.

(** What [getHeader] finds under [Location] once the response-phase
    changes of the spec are made. *)
Definition locationSeen (reqModifyOpts : TamperSpec)
    (responseHeaders : list header) : result (option (option jsstring)) :=
  out <- tamperResponse reqModifyOpts responseHeaders ;;
  Ok (getHeader (snd out) (str "Location")).

(** The spec sets no response header named [Location]. *)
Definition setsNoLocation (reqModifyOpts : TamperSpec) : Prop :=
  forall resp toSet k v,
    response reqModifyOpts = Some (Some resp) ->
    r_headers resp = Some (Some toSet) ->
    In (k, v) toSet -> sameName k (str "Location") = false.

(** The spec removes no response header named [Location]. *)
Definition removesNoLocation (reqModifyOpts : TamperSpec) : Prop :=
  forall resp toRemove n,
    response reqModifyOpts = Some (Some resp) ->
    r_remove resp = Some (Some toRemove) ->
    In n toRemove -> sameName n (str "Location") = false.

Definition isRedirectStatus (statusCode : Z) : bool :=
  (statusCode =? 301) || (statusCode =? 302).

(** ** The statements read without their provisos *)

Definition get_as_stated : Prop :=
  forall st tabId frameId url,
    reachable st ->
    get st tabId frameId url = Ok (resolve matchesEither st tabId frameId url).

Definition setHeaders_as_stated : Prop :=
  forall hs toSet,
    setHeaders hs toSet =
      Ok (map (overwritten toSet) hs ++ appended hs toSet).

Definition redirect_as_stated : Prop :=
  forall st d spec urlA urlB,
    reachable st ->
    oget (makeKey (details.tabId d) (details.frameId d) urlA) (_data st) =
      Some spec ->
    hasRequestId (details.requestId d) spec = true ->
    isRedirectStatus (details.statusCode d) = true ->
    getHeader (details.responseHeaders d) (str "Location") =
      Some (Some urlB) ->
    let st' := fst (onHeadersReceived st d) in
    get st' (details.tabId d) (details.frameId d) urlA = Ok None /\
    get st' (details.tabId d) (details.frameId d) urlB = Ok (Some spec).

Definition retirement_as_stated : Prop :=
  forall st d k spec,
    reachable st ->
    In (k, spec) (_data st) ->
    hasRequestId (details.requestId d) spec = true ->
    isRedirectStatus (details.statusCode d) = false ->
    let st' := fst (onHeadersReceived st d) in
    if isOnce spec then
      getDirect st' k = None /\
      getByRequestId st' (details.requestId d) = None
    else
      st' = st /\ getByRequestId st' (details.requestId d) = Some spec.

Definition malformed_redirect_as_stated : Prop :=
  forall st d spec,
    getByRequestId st (details.requestId d) = Some spec ->
    isRedirectStatus (details.statusCode d) = true ->
    hasHeader (details.responseHeaders d) (str "Location") = false ->
    onHeadersReceived st d = (st, Throw (Error noLocation)).

Definition tagging_as_stated : Prop :=
  forall st d u s,
    JSON_representable s ->
    exists token,
      b64EncodeUnicode (JSON_stringify s) = Ok token /\
      noSlash token = true /\
      (details.url d = u ++ delimiter ++ token ->
       snd (onBeforeRequest st d) = Ok (Some u) /\
       getDirect (fst (onBeforeRequest st d))
                 (makeKey (details.tabId d) (details.frameId d) u) =
         Some (with_requestId s (Some None))).


Definition store_invariant_as_stated : Prop :=
  forall st, reachable st -> storeOk st.

(** ** The header transforms in closed form *)

(** The value that the last entry of [toSet] with that name, compared
    without case, assigns. *)
Fixpoint lastAssigned (n : jsstring) (toSet : jsobj (option jsstring))
    : option (option jsstring) :=
  match toSet with
  | [] => None
  | (k, v) :: toSet' =>
      match lastAssigned n toSet' with
      | Some w => Some w
      | None => if sameName k n then Some v else None
      end
  end.

(** A header keeps its name and takes the value last assigned to it. *)
Definition settled (toSet : jsobj (option jsstring)) (h : header) : header :=
  match lastAssigned (name h) toSet with
  | Some v => {| name := name h; value := Some v |}
  | None => h
  end.

(** The entries of [toSet] whose name is, up to case, none of [seen] and
    that of no earlier entry. *)
Fixpoint newNames (seen : list jsstring) (toSet : jsobj (option jsstring))
    : jsobj (option jsstring) :=
  match toSet with
  | [] => []
  | (k, v) :: toSet' =>
      if existsb (sameName k) seen then newNames seen toSet'
      else (k, v) :: newNames (k :: seen) toSet'
  end.

(** The header is named, up to case, by one of [toRemove]. *)
Definition removed (toRemove : list jsstring) (h : header) : bool :=
  existsb (fun n => sameName n (name h)) toRemove.
End Engine.

(** ** Lemmas on strings and objects *)

Lemma streq_true (a b : jsstring) : streq a b = true <-> a = b.
Proof.
  unfold streq. destruct (list_eq_dec Z.eq_dec a b); split; congruence.
Qed.

Lemma streq_false (a b : jsstring) : streq a b = false <-> a <> b.
Proof.
  unfold streq. destruct (list_eq_dec Z.eq_dec a b); split; congruence.
Qed.

Lemma streq_refl (a : jsstring) : streq a a = true.
Proof. now apply streq_true. Qed.

Lemma streq_sym (a b : jsstring) : streq a b = streq b a.
Proof.
  destruct (streq b a) eqn:E.
  - apply streq_true in E. subst. apply streq_refl.
  - apply streq_false in E. apply streq_false. congruence.
Qed.

Section ObjLemmas.
Context {V : Type}.
Implicit Types (o : jsobj V) (k : jsstring).

Lemma oget_odelete_same k o : oget k (odelete k o) = None.
Proof.
  induction o as [|[k' v] o IH]; simpl; auto.
  destruct (streq k k') eqn:E; simpl; auto. now rewrite E.
Qed.

Lemma oget_odelete_other k k' o :
  k <> k' -> oget k (odelete k' o) = oget k o.
Proof.
  intros Hne. induction o as [|[k2 v] o IH]; simpl; auto.
  destruct (streq k' k2) eqn:E.
  - apply streq_true in E. subst k2.
    destruct (streq k k') eqn:E2; auto.
    apply streq_true in E2. contradiction.
  - simpl. now rewrite IH.
Qed.

Lemma oget_oset_same k v o : oget k (oset k v o) = Some v.
Proof.
  induction o as [|[k' v'] o IH]; simpl.
  - now rewrite streq_refl.
  - destruct (streq k k') eqn:E; simpl.
    + now rewrite streq_refl.
    + now rewrite E.
Qed.

Lemma oget_oset_other k k' v o :
  k <> k' -> oget k (oset k' v o) = oget k o.
Proof.
  intros Hne. apply streq_false in Hne.
  induction o as [|[k2 v2] o IH]; simpl.
  - now rewrite Hne.
  - destruct (streq k' k2) eqn:E; simpl.
    + apply streq_true in E. subst k2. now rewrite Hne.
    + now rewrite IH.
Qed.

Lemma oget_In k v o : oget k o = Some v -> In (k, v) o.
Proof.
  induction o as [|[k' v'] o IH]; simpl; [discriminate|].
  destruct (streq k k') eqn:E.
  - apply streq_true in E. intros [= ->]. subst. now left.
  - intros H. right. auto.
Qed.

Lemma In_odelete k kv o : In kv (odelete k o) -> In kv o /\ fst kv <> k.
Proof.
  induction o as [|[k' v'] o IH]; simpl; [tauto|].
  destruct (streq k k') eqn:E.
  - intros H. destruct (IH H). auto.
  - intros [<-|H].
    + split; auto. simpl. apply streq_false in E. congruence.
    + destruct (IH H). auto.
Qed.

Lemma In_oset k v kv o : In kv (oset k v o) -> kv = (k, v) \/ In kv o.
Proof.
  induction o as [|[k' v'] o IH]; simpl.
  - intros [<-|[]]. now left.
  - destruct (streq k k') eqn:E; simpl.
    + intros [<-|H]; auto.
    + intros [<-|H]; auto. destruct (IH H); auto.
Qed.
Lemma Forall_oset (P : jsstring * V -> Prop) k v o :
  Forall P o -> P (k, v) -> Forall P (oset k v o).
Proof.
  intros Ho Hkv. induction Ho as [|[k' v'] o Hx Ho IH]; simpl.
  - now constructor.
  - destruct (streq k k'); constructor; auto.
Qed.

Lemma Forall_odelete (P : jsstring * V -> Prop) k o :
  Forall P o -> Forall P (odelete k o).
Proof.
  intros Ho. induction Ho as [|[k' v'] o Hx Ho IH]; simpl; auto.
  destruct (streq k k'); auto.
Qed.

Lemma okeys_oset k v o k' :
  In k' (okeys (oset k v o)) -> k' = k \/ In k' (okeys o).
Proof.
  unfold okeys. intros H. apply in_map_iff in H.
  destruct H as [[k2 v2] [<- Hin]]. apply In_oset in Hin.
  destruct Hin as [[= -> ->]|Hin]; [now left|].
  right. now apply (in_map fst) in Hin.
Qed.

Lemma okeys_odelete k o k' :
  In k' (okeys (odelete k o)) -> In k' (okeys o) /\ k' <> k.
Proof.
  unfold okeys. intros H. apply in_map_iff in H.
  destruct H as [[k2 v2] [<- Hin]]. apply In_odelete in Hin.
  destruct Hin as [Hin Hne]. split; auto.
  now apply (in_map fst) in Hin.
Qed.

Lemma NoDup_oset k v o : NoDup (okeys o) -> NoDup (okeys (oset k v o)).
Proof.
  induction o as [|[k' v'] o IH]; simpl; intros Hnd.
  - constructor; [intros []|constructor].
  - inversion Hnd as [|? ? Hk Ho]; subst.
    destruct (streq k k') eqn:E; simpl.
    + apply streq_true in E. subst k'. now constructor.
    + constructor; auto. intros Hin. apply okeys_oset in Hin.
      apply streq_false in E. destruct Hin; auto.
Qed.

Lemma NoDup_odelete k o : NoDup (okeys o) -> NoDup (okeys (odelete k o)).
Proof.
  induction o as [|[k' v'] o IH]; simpl; intros Hnd; auto.
  inversion Hnd as [|? ? Hk Ho]; subst.
  destruct (streq k k'); simpl; auto.
  constructor; auto. intros Hin. apply okeys_odelete in Hin. tauto.
Qed.

Lemma In_oget k v o : NoDup (okeys o) -> In (k, v) o -> oget k o = Some v.
Proof.
  induction o as [|[k' v'] o IH]; simpl; intros Hnd Hin; [destruct Hin|].
  inversion Hnd as [|? ? Hk Ho]; subst.
  destruct Hin as [[= -> ->]|Hin].
  - now rewrite streq_refl.
  - destruct (streq k k') eqn:E; auto.
    apply streq_true in E. subst k'. exfalso. apply Hk.
    now apply (in_map fst) in Hin.
Qed.

End ObjLemmas.


(** *** Lemmas on the normaliser *)

Lemma oget_okeys {V : Type} (X : jsstring) (o : jsobj V) v :
  oget X o = Some v -> In X (okeys o).
Proof.
  intros H. apply oget_In in H. unfold okeys.
  now apply (in_map fst) in H.
Qed.

Lemma kept_other (e : option (option jsstring)) :
  e <> Some None -> kept e = e.
Proof. destruct e as [[v|]|]; auto. congruence. Qed.

Lemma kept_not_null e : kept e <> Some None.
Proof. now destruct e as [[v|]|]. Qed.

Lemma includes_In l X : includes l X = true <-> In X l.
Proof.
  unfold includes. rewrite existsb_exists. split.
  - intros (x & Hx & E). apply streq_true in E. now subst.
  - intros H. exists X. split; auto. apply streq_refl.
Qed.

(** With a [remove] list the loop returns; it pushes exactly the enumerated
    names mapped to [null] and leaves exactly the other entries. *)
Lemma doNormalizeLoop_spec names : forall hdrs r,
  exists h' m,
    doNormalizeLoop names hdrs (Some (Some r)) =
      Ok (h', Some (Some (r ++ m))) /\
    (forall X, In X m <-> In X names /\ oget X hdrs = Some None) /\
    (forall X, oget X h' =
               if includes names X then kept (oget X hdrs) else oget X hdrs).
Proof.
  induction names as [|n names IH]; intros hdrs r; cbn [doNormalizeLoop].
  - exists hdrs, []. rewrite app_nil_r. split; [reflexivity|].
    split; [intros X; simpl; tauto|]. reflexivity.
  - assert (Hkeep : oget n hdrs <> Some None ->
              exists h' m,
                doNormalizeLoop names hdrs (Some (Some r)) =
                  Ok (h', Some (Some (r ++ m))) /\
                (forall X, In X m <->
                           In X (n :: names) /\ oget X hdrs = Some None) /\
                (forall X, oget X h' =
                           if includes (n :: names) X
                           then kept (oget X hdrs) else oget X hdrs)).
    { intros Hn. destruct (IH hdrs r) as (h' & m & Hrun & Hm & Hh).
      exists h', m. split; [exact Hrun|]. split.
      - intros X. rewrite Hm. simpl. split; [tauto|].
        intros [[<-|H] HX]; [congruence|tauto].
      - intros X. rewrite Hh. unfold includes. cbn [existsb].
        destruct (streq X n) eqn:E; auto.
        apply streq_true in E. subst X. simpl.
        rewrite (kept_other _ Hn). now destruct (existsb (streq n) names). }
    destruct (oget n hdrs) as [[v|]|] eqn:E;
      [apply Hkeep; discriminate| |apply Hkeep; discriminate].
    clear Hkeep.
    destruct (IH (odelete n hdrs) (r ++ [n])) as (h' & m & Hrun & Hm & Hh).
    exists h', (n :: m). split.
    { rewrite Hrun. now rewrite <- app_assoc. }
    split.
    + intros X. simpl. rewrite Hm.
      destruct (list_eq_dec Z.eq_dec X n) as [->|Hne].
      * rewrite oget_odelete_same. split; auto.
      * rewrite oget_odelete_other by assumption. split.
        -- intros [H|H]; [congruence|tauto].
        -- intros [[H|H] HX]; [congruence|tauto].
    + intros X. rewrite Hh. unfold includes. cbn [existsb].
      destruct (streq X n) eqn:EX.
      * apply streq_true in EX. subst X.
        rewrite oget_odelete_same, E. simpl.
        now destruct (existsb (streq n) names).
      * apply streq_false in EX. now rewrite oget_odelete_other.
Qed.

Lemma doNormalizeLoop_noop names : forall hdrs rem,
  (forall X, In X names -> oget X hdrs <> Some None) ->
  doNormalizeLoop names hdrs rem = Ok (hdrs, rem).
Proof.
  induction names as [|n names IH]; intros hdrs rem Hnn; simpl; auto.
  destruct (oget n hdrs) as [[v|]|] eqn:E.
  - apply IH. intros X HX. apply Hnn. now right.
  - exfalso. apply (Hnn n); auto. now left.
  - apply IH. intros X HX. apply Hnn. now right.
Qed.

(** Without a [remove] list the loop throws at the first enumerated name
    mapped to [null]. *)
Lemma doNormalizeLoop_throws names : forall hdrs rem X,
  object rem = None -> In X names -> oget X hdrs = Some None ->
  doNormalizeLoop names hdrs rem = Throw TypeError.
Proof.
  induction names as [|n names IH]; intros hdrs rem X Hrem Hin HX;
    [destruct Hin|].
  cbn [doNormalizeLoop].
  destruct (oget n hdrs) as [[v|]|] eqn:E.
  - destruct Hin as [->|Hin]; [congruence|]. eapply IH; eauto.
  - now destruct rem as [[r|]|].
  - destruct Hin as [->|Hin]; [congruence|]. eapply IH; eauto.
Qed.

Lemma doNormalize_spec hdrs r :
  exists h' m,
    doNormalize (Some (Some hdrs)) (Some (Some r)) =
      Ok (Some (Some h'), Some (Some (r ++ m))) /\
    (forall X, In X m <-> oget X hdrs = Some None) /\
    (forall X, oget X h' = kept (oget X hdrs)).
Proof.
  unfold doNormalize.
  destruct (doNormalizeLoop_spec (okeys hdrs) hdrs r)
    as (h' & m & Hrun & Hm & Hh).
  exists h', m. rewrite Hrun. split; [reflexivity|]. split.
  - intros X. rewrite Hm. split; [tauto|].
    intros HX. split; auto. eapply oget_okeys; eauto.
  - intros X. rewrite Hh. destruct (includes (okeys hdrs) X) eqn:Hin; auto.
    destruct (oget X hdrs) as [e|] eqn:E; auto.
    apply oget_okeys, includes_In in E. congruence.
Qed.

Lemma doNormalize_noop hdrs rem :
  (forall X, oget X hdrs <> Some None) ->
  doNormalize (Some (Some hdrs)) rem = Ok (Some (Some hdrs), rem).
Proof.
  intros H. unfold doNormalize. now rewrite doNormalizeLoop_noop.
Qed.

Lemma doNormalize_throws hdrs rem X :
  object rem = None -> oget X hdrs = Some None ->
  doNormalize (Some (Some hdrs)) rem = Throw TypeError.
Proof.
  intros Hrem HX. unfold doNormalize.
  rewrite (doNormalizeLoop_throws _ _ _ X); auto.
  eapply oget_okeys; eauto.
Qed.

(** Without a [remove] list the loop returns only when no enumerated name
    is mapped to [null], and then changes nothing. *)
Lemma doNormalizeLoop_unchanged names : forall hdrs rem h' rem',
  object rem = None ->
  doNormalizeLoop names hdrs rem = Ok (h', rem') ->
  h' = hdrs /\ rem' = rem /\
  forall X, In X names -> oget X hdrs <> Some None.
Proof.
  induction names as [|n names IH]; intros hdrs rem h' rem' Hrem Hrun.
  - simpl in Hrun. inversion Hrun. split; [auto|split; [auto|intros X []]].
  - cbn [doNormalizeLoop] in Hrun.
    destruct (oget n hdrs) as [[v|]|] eqn:E.
    + destruct (IH _ _ _ _ Hrem Hrun) as (-> & -> & Hnn).
      split; [auto|split; [auto|]]. intros X [<-|HX]; [congruence|auto].
    + destruct rem as [[r|]|]; discriminate.
    + destruct (IH _ _ _ _ Hrem Hrun) as (-> & -> & Hnn).
      split; [auto|split; [auto|]]. intros X [<-|HX]; [congruence|auto].
Qed.

(** Whatever [doNormalize] returns, it returns again unchanged, and it
    leaves no part undefined that was not. *)
Lemma doNormalize_settles hdrs rem h' rem' :
  doNormalize hdrs rem = Ok (h', rem') ->
  doNormalize h' rem' = Ok (h', rem') /\
  (hdrs <> None -> h' <> None) /\ (rem <> None -> rem' <> None) /\
  (forall h, h' = Some (Some h) -> forall X, oget X h <> Some None).
Proof.
  intros Hrun. destruct hdrs as [[h|]|].
  - destruct rem as [[r|]|].
    + destruct (doNormalize_spec h r) as (h1 & m & Hrun' & _ & Hh).
      rewrite Hrun' in Hrun. inversion Hrun; subst h' rem'.
      assert (Hnn : forall X, oget X h1 <> Some None)
        by (intros X; rewrite Hh; apply kept_not_null).
      split; [now apply doNormalize_noop|].
      split; [discriminate|split; [discriminate|]].
      intros h0 E. now inversion E; subst.
    + unfold doNormalize in Hrun.
      destruct (doNormalizeLoop (okeys h) h (Some None)) as [[h1 r1]|e] eqn:E;
        [|discriminate].
      simpl in Hrun. inversion Hrun; subst h' rem'.
      apply doNormalizeLoop_unchanged in E; [|reflexivity].
      destruct E as (-> & -> & Hnn).
      assert (Hnn' : forall X, oget X h <> Some None).
      { intros X HX. apply (Hnn X); auto. eapply oget_okeys; eauto. }
      split; [now apply doNormalize_noop|].
      split; [discriminate|split; [discriminate|]].
      intros h0 E. now inversion E; subst.
    + unfold doNormalize in Hrun.
      destruct (doNormalizeLoop (okeys h) h None) as [[h1 r1]|e] eqn:E;
        [|discriminate].
      simpl in Hrun. inversion Hrun; subst h' rem'.
      apply doNormalizeLoop_unchanged in E; [|reflexivity].
      destruct E as (-> & -> & Hnn).
      assert (Hnn' : forall X, oget X h <> Some None).
      { intros X HX. apply (Hnn X); auto. eapply oget_okeys; eauto. }
      split; [now apply doNormalize_noop|].
      split; [discriminate|split; [congruence|]].
      intros h0 E. now inversion E; subst.
  - simpl in Hrun. inversion Hrun; subst.
    split; [reflexivity|split; [auto|split; [auto|discriminate]]].
  - simpl in Hrun. inversion Hrun; subst.
    split; [reflexivity|split; [auto|split; [auto|discriminate]]].
Qed.

(** [doNormalize] throws nothing but a [TypeError]. *)
Lemma doNormalizeLoop_TypeError names : forall hdrs rem e,
  doNormalizeLoop names hdrs rem = Throw e -> e = TypeError.
Proof.
  induction names as [|n names IH]; intros hdrs rem e H; [discriminate|].
  cbn [doNormalizeLoop] in H.
  destruct (oget n hdrs) as [[v|]|]; eauto.
  destruct rem as [[r|]|]; eauto; congruence.
Qed.

Lemma doNormalize_TypeError hdrs rem e :
  doNormalize hdrs rem = Throw e -> e = TypeError.
Proof.
  unfold doNormalize. destruct hdrs as [[h|]|]; try discriminate.
  destruct (doNormalizeLoop (okeys h) h rem) as [[h1 r1]|e'] eqn:E;
    [discriminate|].
  simpl. intros H. inversion H; subst. eapply doNormalizeLoop_TypeError; eauto.
Qed.

Lemma orDefault_plain {A : Type} (field : option (option A)) (d : A) :
  notNull field ->
  orDefault field d =
    Some (Some (match object field with Some a => a | None => d end)).
Proof. destruct field as [[a|]|]; auto. intros H. now elim H. Qed.

Lemma orDefault_present {A : Type} (field : option (option A)) (d : A) :
  field <> None -> orDefault field d = field.
Proof. destruct field; auto. congruence. Qed.

Lemma orDefault_not_missing {A : Type} (field : option (option A)) (d : A) :
  orDefault field d <> None.
Proof. now destruct field. Qed.

Lemma emptySpec_withoutNull : withoutNull emptySpec.
Proof. constructor; discriminate. Qed.

Lemma plainArgument_spec arg :
  plainArgument arg ->
  withoutNull (argumentSpec arg) /\
  _normalizeTamperSpec arg =
    _normalizeTamperSpec (Some (Some (argumentSpec arg))).
Proof.
  destruct arg as [[s|]|]; simpl; intros H.
  - now split.
  - destruct H.
  - split; [apply emptySpec_withoutNull|reflexivity].
Qed.

(** On a missing spec and on a spec without a [null] part the normaliser
    returns, and what it returns is described by the fields of its
    argument. *)
Lemma normalize_spec (arg : option (option TamperSpec)) :
  plainArgument arg ->
  exists n h m rh mr o,
    _normalizeTamperSpec arg = Ok n /\
    n = {| headers := Some (Some h);
           remove := Some (Some (removeOf arg ++ m));
           response :=
             Some (Some {| r_headers := Some (Some rh);
                           r_remove :=
                             Some (Some (responseRemoveOf arg ++ mr)) |});
           opts := Some (Some o);
           requestId := requestId (argumentSpec arg);
           key := key (argumentSpec arg) |} /\
    (forall X, oget X h = kept (headerOf arg X)) /\
    (forall X, In X m <-> headerOf arg X = Some None) /\
    (forall X, oget X rh = kept (responseHeaderOf arg X)) /\
    (forall X, In X mr <-> responseHeaderOf arg X = Some None).
Proof.
  intros Hplain. destruct (plainArgument_spec arg Hplain) as (Hs & ->).
  assert (Eh : forall X, headerOf arg X =
                         headerOf (Some (Some (argumentSpec arg))) X).
  { now destruct arg as [[s|]|]. }
  assert (Erh : forall X, responseHeaderOf arg X =
                          responseHeaderOf (Some (Some (argumentSpec arg))) X).
  { now destruct arg as [[s|]|]. }
  assert (Er : removeOf arg = removeOf (Some (Some (argumentSpec arg)))).
  { now destruct arg as [[s|]|]. }
  assert (Err : responseRemoveOf arg =
                responseRemoveOf (Some (Some (argumentSpec arg)))).
  { now destruct arg as [[s|]|]. }
  rewrite Er, Err.
  setoid_rewrite Eh. setoid_rewrite Erh.
  clear Eh Erh Er Err Hplain.
  generalize dependent (argumentSpec arg). clear arg. intros s Hs.
  destruct Hs as [Hh Hr Hresp Hparts Ho].
  unfold _normalizeTamperSpec, defaults, fillSpec.
  cbn [bind response headers remove opts requestId key].
  unfold headerOf, responseHeaderOf, removeOf, responseRemoveOf.
  cbn [object].
  rewrite (orDefault_plain (response s) emptyResponse Hresp).
  rewrite (orDefault_plain (headers s) [] Hh).
  rewrite (orDefault_plain (remove s) [] Hr).
  rewrite (orDefault_plain (opts s) emptyOpts Ho).
  cbn [bind]. unfold fillResponse. cbn [r_headers r_remove].
  assert (Hsub : notNull (r_headers match object (response s) with
                                    | Some a => a | None => emptyResponse end)
                 /\ notNull (r_remove match object (response s) with
                                      | Some a => a | None => emptyResponse
                                      end)).
  { destruct (response s) as [[resp|]|] eqn:E; simpl.
    - now apply Hparts.
    - now elim Hresp.
    - split; discriminate. }
  destruct Hsub as (Hrh & Hrr).
  rewrite !orDefault_plain by assumption.
  destruct (doNormalize_spec
              match object (headers s) with Some a => a | None => [] end
              match object (remove s) with Some a => a | None => [] end)
    as (h & m & Htop & Hm & Hhh).
  destruct (doNormalize_spec
              match object (r_headers match object (response s) with
                                      | Some a => a | None => emptyResponse
                                      end) with Some a => a | None => [] end
              match object (r_remove match object (response s) with
                                     | Some a => a | None => emptyResponse
                                     end) with Some a => a | None => [] end)
    as (rh & mr & Hsub' & Hmr & Hrhh).
  rewrite Htop. cbn [bind fst snd]. rewrite Hsub'. cbn [bind fst snd].
  eexists _, h, m, rh, mr, _. split; [reflexivity|].
  split.
  { destruct (object (response s)) as [resp|]; reflexivity. }
  split; [|split; [|split]]; intros X.
  - rewrite Hhh. now destruct (object (headers s)).
  - rewrite Hm. now destruct (object (headers s)).
  - rewrite Hrhh. destruct (object (response s)) as [resp|]; simpl;
      [|reflexivity]. now destruct (object (r_headers resp)).
  - rewrite Hmr. destruct (object (response s)) as [resp|]; simpl;
      [|reflexivity]. now destruct (object (r_headers resp)).
Qed.

Lemma normalize_total (arg : option (option TamperSpec)) :
  plainArgument arg ->
  exists n h r rh rr o,
    _normalizeTamperSpec arg = Ok n /\
    n = {| headers := Some (Some h); remove := Some (Some r);
           response := Some (Some {| r_headers := Some (Some rh);
                                     r_remove := Some (Some rr) |});
           opts := Some (Some o);
           requestId := requestId (argumentSpec arg);
           key := key (argumentSpec arg) |} /\
    (forall X, oget X h <> Some None) /\
    (forall X, oget X rh <> Some None).
Proof.
  intros Hplain. destruct (normalize_spec arg Hplain)
    as (n & h & m & rh & mr & o & Hrun & Hn & Hh & _ & Hrh & _).
  exists n, h, (removeOf arg ++ m), rh, (responseRemoveOf arg ++ mr), o.
  split; [exact Hrun|]. split; [exact Hn|]. split; intros X.
  - rewrite Hh. apply kept_not_null.
  - rewrite Hrh. apply kept_not_null.
Qed.

Lemma normalize_Ok_normalized arg n :
  plainArgument arg -> _normalizeTamperSpec arg = Ok n -> normalized n.
Proof.
  intros Hplain. destruct (normalize_total arg Hplain)
    as (n' & h & r & rh & rr & o & Hrun & -> & Hnn & Hnn').
  rewrite Hrun. intros [= <-].
  constructor; simpl; eauto.
Qed.

(** The steps of a run of the normaliser that returns. *)
Lemma normalize_Ok_inv arg n :
  _normalizeTamperSpec arg = Ok n ->
  exists s resp top sub,
    (arg = None /\ s = emptySpec \/ arg = Some (Some s)) /\
    orDefault (response s) emptyResponse = Some (Some resp) /\
    doNormalize (orDefault (headers s) []) (orDefault (remove s) [])
      = Ok top /\
    doNormalize (orDefault (r_headers resp) []) (orDefault (r_remove resp) [])
      = Ok sub /\
    n = {| headers := fst top; remove := snd top;
           response :=
             Some (Some {| r_headers := fst sub; r_remove := snd sub |});
           opts := orDefault (opts s) emptyOpts;
           requestId := requestId s; key := key s |}.
Proof.
  unfold _normalizeTamperSpec. intros H.
  assert (Hs : exists s, (arg = None /\ s = emptySpec \/ arg = Some (Some s))
                         /\ defaults match arg with
                                     | None => Some (Some emptySpec)
                                     | Some _ => arg end emptySpec fillSpec
                            = Ok (fillSpec s)).
  { destruct arg as [[s|]|]; [exists s|discriminate|exists emptySpec]; auto. }
  destruct Hs as (s & Harg & Hd). rewrite Hd in H. cbn [bind] in H.
  cbn [fillSpec response headers remove opts requestId key] in H.
  destruct (orDefault (response s) emptyResponse) as [[resp|]|] eqn:Eresp;
    try discriminate.
  cbn [defaults bind fillResponse r_headers r_remove] in H.
  destruct (doNormalize (orDefault (headers s) []) (orDefault (remove s) []))
    as [top|e] eqn:Etop; [|discriminate].
  cbn [bind] in H.
  destruct (doNormalize (orDefault (r_headers resp) [])
                        (orDefault (r_remove resp) []))
    as [sub|e] eqn:Esub; [|discriminate].
  cbn [bind] in H. inversion H.
  exists s, resp, top, sub. repeat split; auto.
Qed.

(** The normaliser throws nothing but a [TypeError]. *)
Lemma normalize_TypeError arg e :
  _normalizeTamperSpec arg = Throw e -> e = TypeError.
Proof.
  unfold _normalizeTamperSpec.
  destruct (defaults match arg with
                     | None => Some (Some emptySpec)
                     | Some _ => arg end emptySpec fillSpec) as [s|e'] eqn:Ed.
  - cbn [bind]. destruct (response s) as [[resp|]|]; cbn [defaults bind];
      try congruence.
    destruct (doNormalize (headers s) (remove s)) as [top|e1] eqn:E1;
      cbn [bind].
    + destruct (doNormalize (r_headers (fillResponse resp))
                            (r_remove (fillResponse resp)))
        as [sub|e2] eqn:E2; cbn [bind]; [discriminate|].
      intros [= <-]. eapply doNormalize_TypeError; eauto.
    + intros [= <-]. eapply doNormalize_TypeError; eauto.
  - cbn [bind]. intros [= <-]. destruct arg as [[s|]|]; simpl in Ed;
      congruence.
Qed.

Lemma normalize_null : _normalizeTamperSpec (Some None) = Throw TypeError.
Proof. reflexivity. Qed.

Lemma normalize_null_response s :
  response s = Some None ->
  _normalizeTamperSpec (Some (Some s)) = Throw TypeError.
Proof.
  intros H. unfold _normalizeTamperSpec, defaults, fillSpec.
  cbn [bind response]. rewrite H. reflexivity.
Qed.

(** What the normaliser returns, it returns again when run on it. *)
Lemma normalize_settled arg n :
  _normalizeTamperSpec arg = Ok n -> settledSpec n.
Proof.
  intros H. apply normalize_Ok_inv in H.
  destruct H as (s & resp & [h r] & [rh rr] & _ & _ & Htop & Hsub & ->).
  apply doNormalize_settles in Htop. apply doNormalize_settles in Hsub.
  destruct Htop as (Htop & Hh & Hr & _). destruct Hsub as (Hsub & Hrh & Hrr & _).
  cbn [fst snd] in *.
  unfold settledSpec, _normalizeTamperSpec, defaults, fillSpec.
  cbn [bind response headers remove opts requestId key orDefault].
  unfold fillResponse. cbn [r_headers r_remove].
  rewrite (orDefault_present h), (orDefault_present r),
    (orDefault_present rh), (orDefault_present rr)
    by (auto using orDefault_not_missing).
  rewrite Htop, Hsub. cbn [bind fst snd].
  now rewrite orDefault_present by apply orDefault_not_missing.
Qed.

Lemma normalize_keeps_ids s n :
  _normalizeTamperSpec (Some (Some s)) = Ok n ->
  requestId n = requestId s /\ key n = key s.
Proof.
  intros H. apply normalize_Ok_inv in H.
  destruct H as (s' & resp & top & sub & [[E _]|E] & _ & _ & _ & ->);
    [discriminate|].
  inversion E; subst. now split.
Qed.

(** The normaliser neither reads nor writes [requestId] and [key]. *)
Lemma normalize_with_ids s id k :
  _normalizeTamperSpec (Some (Some (with_key (with_requestId s id) k))) =
  (n <- _normalizeTamperSpec (Some (Some s)) ;;
   Ok (with_key (with_requestId n id) k)).
Proof.
  unfold _normalizeTamperSpec, defaults, fillSpec.
  cbn [bind response headers remove opts requestId key with_key
       with_requestId].
  destruct (orDefault (response s) emptyResponse) as [[resp|]|];
    cbn [bind]; try reflexivity.
  destruct (doNormalize (orDefault (headers s) []) (orDefault (remove s) []))
    as [top|e]; cbn [bind]; [|reflexivity].
  destruct (doNormalize _ _) as [sub|e]; cbn [bind]; reflexivity.
Qed.

Lemma with_ids_same s : with_key (with_requestId s (requestId s)) (key s) = s.
Proof. now destruct s. Qed.

Lemma settled_with_key s k : settledSpec s -> settledSpec (with_key s k).
Proof.
  unfold settledSpec. intros H.
  replace (with_key s k) with (with_key (with_requestId s (requestId s)) k)
    by now destruct s.
  rewrite normalize_with_ids, H. reflexivity.
Qed.

Lemma settled_with_requestId s id :
  settledSpec s -> settledSpec (with_requestId s id).
Proof.
  unfold settledSpec. intros H.
  replace (with_requestId s id)
    with (with_key (with_requestId s id) (key s)) by now destruct s.
  rewrite normalize_with_ids, H. reflexivity.
Qed.

(** A normalised spec is left as it is. *)
Lemma normalize_normalized n :
  normalized n -> _normalizeTamperSpec (Some (Some n)) = Ok n.
Proof.
  intros [(h & Hh & Hnn) (r & Hr) (rh & rr & Hresp & Hnn') (o & Ho)].
  destruct n as [hs rm resp op id k]. simpl in *. subst.
  unfold _normalizeTamperSpec.
  cbn [defaults bind fillSpec fillResponse orDefault headers remove response
       opts r_headers r_remove].
  rewrite !doNormalize_noop by assumption. reflexivity.
Qed.

Lemma normalized_with_key n k : normalized n -> normalized (with_key n k).
Proof. intros [H1 H2 H3 H4]. constructor; assumption. Qed.

Lemma normalized_with_requestId n id :
  normalized n -> normalized (with_requestId n id).
Proof. intros [H1 H2 H3 H4]. constructor; assumption. Qed.

Lemma normalized_withoutNull n : normalized n -> withoutNull n.
Proof.
  intros [(h & Hh & _) (r & Hr) (rh & rr & Hresp & _) (o & Ho)].
  constructor; unfold notNull; try congruence.
  intros resp E. rewrite Hresp in E. inversion E; subst. simpl.
  split; discriminate.
Qed.

(** The parts of a spec the normaliser has returned: none is missing, and
    a mapping among them maps no name to [null]. *)
Lemma normalize_Ok_parts arg n :
  _normalizeTamperSpec arg = Ok n ->
  headers n <> None /\ remove n <> None /\ opts n <> None /\
  (forall h, headers n = Some (Some h) -> forall X, oget X h <> Some None) /\
  exists resp,
    response n = Some (Some resp) /\
    r_headers resp <> None /\ r_remove resp <> None /\
    (forall h, r_headers resp = Some (Some h) ->
               forall X, oget X h <> Some None).
Proof.
  intros H. apply normalize_Ok_inv in H.
  destruct H as (s & resp & [h r] & [rh rr] & _ & _ & Htop & Hsub & ->).
  apply doNormalize_settles in Htop. apply doNormalize_settles in Hsub.
  destruct Htop as (_ & Hh & Hr & Hnn). destruct Hsub as (_ & Hrh & Hrr & Hnn').
  cbn [fst snd headers remove opts response] in *.
  repeat split; auto using orDefault_not_missing.
  eexists. split; [reflexivity|]. cbn [r_headers r_remove].
  repeat split; auto using orDefault_not_missing.
Qed.

(** ** The store invariants *)

Lemma setDirect_inv st k v st' :
  setDirect st k v = Ok st' ->
  exists s n,
    v = Some s /\ _normalizeTamperSpec (Some s) = Ok n /\
    st' = {| _data := oset k (with_key n (Some k)) (_data st);
             _patternMods := _patternMods st |}.
Proof.
  unfold setDirect, deepCloneOrMissing, deepClone. intros H.
  destruct v as [s|]; [|discriminate]. cbn [bind] in H.
  destruct (_normalizeTamperSpec (Some s)) as [n|e] eqn:En; [|discriminate].
  cbn [bind] in H. inversion H. eauto.
Qed.

Lemma setDirect_Ok st k v :
  withoutNull v ->
  exists n,
    _normalizeTamperSpec (Some (Some v)) = Ok n /\ normalized n /\
    requestId n = requestId v /\
    setDirect st k (Some (Some v)) =
      Ok {| _data := oset k (with_key n (Some k)) (_data st);
            _patternMods := _patternMods st |}.
Proof.
  intros Hv.
  destruct (normalize_total (Some (Some v)) Hv)
    as (n & h & r & rh & rr & o & Hrun & Hn & _).
  exists n. split; [exact Hrun|].
  split; [now apply (normalize_Ok_normalized (Some (Some v)))|].
  split; [now apply normalize_keeps_ids|].
  unfold setDirect, deepCloneOrMissing, deepClone. cbn [bind].
  now rewrite Hrun.
Qed.

Lemma setDirect_settled st k n :
  settledSpec n ->
  setDirect st k (Some (Some n)) =
    Ok {| _data := oset k (with_key n (Some k)) (_data st);
          _patternMods := _patternMods st |}.
Proof.
  intros Hn. unfold setDirect, deepCloneOrMissing, deepClone. cbn [bind].
  now rewrite Hn.
Qed.

Lemma settled_normalized n : normalized n -> settledSpec n.
Proof. apply normalize_normalized. Qed.

Lemma setDirect_normalized st k n :
  normalized n ->
  setDirect st k (Some (Some n)) =
    Ok {| _data := oset k (with_key n (Some k)) (_data st);
          _patternMods := _patternMods st |}.
Proof. intros Hn. now apply setDirect_settled, settled_normalized. Qed.

Lemma addPattern_Ok st params st' :
  addPattern st params = Ok st' ->
  (regexes params <> None \/ urls params <> None) /\
  exists t n,
    tamper params = Some t /\ _normalizeTamperSpec (Some t) = Ok n /\
    st' = {| _data := _data st;
             _patternMods :=
               {| regexes := regexes params; urls := urls params;
                  tamper := Some (Some n) |} :: _patternMods st |}.
Proof.
  unfold addPattern, deepClone. intros H.
  assert (Hm : regexes params <> None \/ urls params <> None).
  { destruct (regexes params); [left; discriminate|].
    destruct (urls params); [right; discriminate|discriminate]. }
  split; [exact Hm|].
  destruct (tamper params) as [t|].
  - destruct (_normalizeTamperSpec (Some t)) as [n|e] eqn:En.
    + exists t, n. split; [reflexivity|]. split; [exact En|].
      destruct (regexes params), (urls params); simpl in H;
        try discriminate; now injection H as <-.
    + destruct (regexes params), (urls params); discriminate.
  - destruct (regexes params), (urls params); discriminate.
Qed.

Lemma storeOk_new : storeOk newTamperStore.
Proof. constructor; simpl; constructor. Qed.

Lemma storeKept_new : storeKept newTamperStore.
Proof. constructor; simpl; constructor. Qed.

Lemma storeOk_setDirect st k v st' :
  plainArgument v ->
  storeOk st -> setDirect st k v = Ok st' -> storeOk st'.
Proof.
  intros Hv [Hd Hk Hp] H.
  destruct (setDirect_inv _ _ _ _ H) as (s & n & -> & Hn & ->).
  assert (Hnorm : normalized n)
    by (eapply (normalize_Ok_normalized (Some s)); eauto).
  constructor; simpl; auto.
  - apply Forall_oset; auto. split; simpl; auto.
    now apply normalized_with_key.
  - now apply NoDup_oset.
Qed.

Lemma storeKept_setDirect st k v st' :
  storeKept st -> setDirect st k v = Ok st' -> storeKept st'.
Proof.
  intros [Hd Hk Hp] H.
  destruct (setDirect_inv _ _ _ _ H) as (s & n & -> & Hn & ->).
  constructor; simpl; auto.
  - apply Forall_oset; auto. split; simpl; auto.
    apply settled_with_key. eapply normalize_settled; eauto.
  - now apply NoDup_oset.
Qed.

Lemma storeOk_removeDirect st k : storeOk st -> storeOk (removeDirect st k).
Proof.
  intros [Hd Hk Hp]. constructor; simpl; auto.
  - now apply Forall_odelete.
  - now apply NoDup_odelete.
Qed.

Lemma storeKept_removeDirect st k :
  storeKept st -> storeKept (removeDirect st k).
Proof.
  intros [Hd Hk Hp]. constructor; simpl; auto.
  - now apply Forall_odelete.
  - now apply NoDup_odelete.
Qed.

Lemma storeOk_addPattern st params st' :
  plainParams params ->
  storeOk st -> addPattern st params = Ok st' -> storeOk st'.
Proof.
  intros [Hr Hu Ht] [Hd Hk Hp] H. apply addPattern_Ok in H.
  destruct H as (Hm & t & n & Et & Hn & ->).
  constructor; simpl; auto.
  constructor; auto. split; simpl.
  - destruct (regexes params) as [[rs|]|]; [left; eauto|now elim Hr|].
    right. split; auto.
    destruct (urls params) as [[us|]|]; [eauto|now elim Hu|].
    destruct Hm; congruence.
  - exists n. split; auto. rewrite Et in Ht.
    eapply (normalize_Ok_normalized (Some t)); eauto.
Qed.

Lemma storeKept_addPattern st params st' :
  storeKept st -> addPattern st params = Ok st' -> storeKept st'.
Proof.
  intros [Hd Hk Hp] H. apply addPattern_Ok in H.
  destruct H as (Hm & t & n & Et & Hn & ->).
  constructor; simpl; auto.
  constructor; auto. split; simpl; auto.
  exists n. split; auto. eapply normalize_settled; eauto.
Qed.

Lemma reachablePlain_storeOk st : reachablePlain st -> storeOk st.
Proof.
  induction 1.
  - apply storeOk_new.
  - eapply storeOk_addPattern; eauto.
  - eapply storeOk_setDirect; eauto.
  - unfold set in *. eapply storeOk_setDirect; eauto.
  - now apply storeOk_removeDirect.
  - unfold remove_. now apply storeOk_removeDirect.
Qed.

Lemma reachable_storeKept st : reachable st -> storeKept st.
Proof.
  induction 1.
  - apply storeKept_new.
  - eapply storeKept_addPattern; eauto.
  - eapply storeKept_setDirect; eauto.
  - unfold set in *. eapply storeKept_setDirect; eauto.
  - now apply storeKept_removeDirect.
  - unfold remove_. now apply storeKept_removeDirect.
Qed.

Lemma reachableWith_mono (okSpec okSpec' : option (option TamperSpec) -> Prop)
    (okParams okParams' : PatternParams -> Prop) st :
  (forall v, okSpec v -> okSpec' v) ->
  (forall p, okParams p -> okParams' p) ->
  reachableWith okSpec okParams st -> reachableWith okSpec' okParams' st.
Proof.
  intros Hs Hp. induction 1.
  - apply reach_new.
  - eapply reach_addPattern; eauto.
  - eapply reach_setDirect; eauto.
  - eapply reach_set; eauto.
  - now apply reach_removeDirect.
  - now apply reach_remove.
Qed.

Lemma reachablePlain_reachable st : reachablePlain st -> reachable st.
Proof. apply reachableWith_mono; auto. Qed.

Lemma storeOk_storeKept st : storeOk st -> storeKept st.
Proof.
  intros [Hd Hk Hp]. constructor; auto.
  - eapply Forall_impl; [|exact Hd]. intros kv [Hn Hkey].
    split; auto. now apply settled_normalized.
  - eapply Forall_impl; [|exact Hp].
    intros e ([(rs & Hr)|(Hr & us & Hu)] & t & Ht & Hn).
    + split; [left; congruence|]. exists t. split; auto.
      now apply settled_normalized.
    + split; [right; congruence|]. exists t. split; auto.
      now apply settled_normalized.
Qed.

Lemma storeOk_entry st k s :
  storeOk st -> In (k, s) (_data st) -> normalized s /\ key s = Some k.
Proof.
  intros [Hd _ _] Hin. rewrite Forall_forall in Hd.
  exact (Hd _ Hin).
Qed.

Lemma storeKept_entry st k s :
  storeKept st -> In (k, s) (_data st) -> settledSpec s /\ key s = Some k.
Proof.
  intros [Hd _ _] Hin. rewrite Forall_forall in Hd.
  exact (Hd _ Hin).
Qed.

Lemma getByRequestIdLoop_In id entries s :
  getByRequestIdLoop id entries = Some s ->
  exists k, In (k, s) entries /\ hasRequestId id s = true.
Proof.
  induction entries as [|[k v] entries IH]; simpl; [discriminate|].
  destruct (hasRequestId id v) eqn:E.
  - unfold deepClone. intros [= <-]. exists k. auto.
  - intros H. destruct (IH H) as (k' & Hin & Hid). eauto.
Qed.

Lemma getByRequestIdLoop_None id entries :
  (forall k s, In (k, s) entries -> hasRequestId id s = false) ->
  getByRequestIdLoop id entries = None.
Proof.
  induction entries as [|[k v] entries IH]; simpl; auto.
  intros H. rewrite (H k v) by now left. apply IH.
  intros k' s' Hin. apply (H k' s'). now right.
Qed.

Lemma getByRequestIdLoop_only id entries k s :
  NoDup (okeys entries) -> In (k, s) entries ->
  hasRequestId id s = true ->
  (forall k' s', In (k', s') entries -> hasRequestId id s' = true -> k' = k) ->
  getByRequestIdLoop id entries = Some s.
Proof.
  intros Hnd Hin Hid Honly.
  destruct (getByRequestIdLoop id entries) as [s'|] eqn:E.
  - apply getByRequestIdLoop_In in E. destruct E as (k' & Hin' & Hid').
    pose proof (Honly _ _ Hin' Hid'). subst k'.
    pose proof (In_oget _ _ _ Hnd Hin) as H1.
    pose proof (In_oget _ _ _ Hnd Hin') as H2. congruence.
  - exfalso. clear Hnd Honly.
    induction entries as [|[k1 v1] entries IH]; simpl in *; [auto|].
    destruct (hasRequestId id v1) eqn:E1; [discriminate|].
    destruct Hin as [[= -> ->]|Hin]; [congruence|auto].
Qed.

Lemma makeKey_inj tabId frameId a b :
  makeKey tabId frameId a = makeKey tabId frameId b -> a = b.
Proof.
  unfold makeKey. intros H.
  repeat apply app_inv_head in H. exact H.
Qed.

Lemma onceSet_normalized spec :
  normalized spec -> onceSet spec = Ok (isOnce spec).
Proof.
  intros [_ _ _ (o & Ho)]. unfold onceSet, isOnce. rewrite Ho.
  now destruct (once o) as [[[|]|]|].
Qed.

Lemma onceSet_object spec o :
  opts spec = Some (Some o) -> onceSet spec = Ok (isOnce spec).
Proof.
  intros Ho. unfold onceSet, isOnce. rewrite Ho.
  now destruct (once o) as [[[|]|]|].
Qed.

Lemma getByRequestId_stored st id spec :
  storeOk st -> getByRequestId st id = Some spec ->
  exists k, In (k, spec) (_data st) /\ hasRequestId id spec = true /\
            normalized spec /\ key spec = Some k.
Proof.
  intros Hok H. apply getByRequestIdLoop_In in H.
  destruct H as (k & Hin & Hid). exists k.
  destruct (storeOk_entry _ _ _ Hok Hin). auto.
Qed.

Lemma getByRequestId_kept st id spec :
  storeKept st -> getByRequestId st id = Some spec ->
  exists k, In (k, spec) (_data st) /\ hasRequestId id spec = true /\
            settledSpec spec /\ key spec = Some k.
Proof.
  intros Hok H. apply getByRequestIdLoop_In in H.
  destruct H as (k & Hin & Hid). exists k.
  destruct (storeKept_entry _ _ _ Hok Hin). auto.
Qed.

(** A composite key holds a colon, the names of [Object.prototype] do
    not. *)
Lemma makeKey_ownKey tabId frameId url : ownKey (makeKey tabId frameId url).
Proof.
  assert (Hcolon : In 58 (makeKey tabId frameId url)).
  { unfold makeKey. apply in_or_app. right. left. reflexivity. }
  intros Hin.
  assert (Hnone : Forall (fun n => ~ In 58 n) objectPrototypeNames).
  { vm_compute. repeat constructor; intuition discriminate. }
  rewrite Forall_forall in Hnone. exact (Hnone _ Hin Hcolon).
Qed.

(** ** The claims on the normaliser *)


(** C8: normalising is idempotent: normalising what the normaliser returned
    returns the same spec, so that normalising twice has the outcome of
    normalising once, whatever the argument; and the normaliser does
    return on a missing argument and on a spec none of whose parts is
    [null]. *)
Theorem normalize_idempotent (arg : option (option TamperSpec)) :
  (n <- _normalizeTamperSpec arg ;; _normalizeTamperSpec (Some (Some n))) =
    _normalizeTamperSpec arg /\
  (forall n, _normalizeTamperSpec arg = Ok n ->
             _normalizeTamperSpec (Some (Some n)) = Ok n) /\
  (plainArgument arg -> exists n, _normalizeTamperSpec arg = Ok n).
Proof.
  split; [|split].
  - destruct (_normalizeTamperSpec arg) as [n|e] eqn:E; cbn [bind];
      [|reflexivity].
    exact (normalize_settled _ _ E).
  - intros n E. exact (normalize_settled _ _ E).
  - intros Hplain.
    destruct (normalize_total arg Hplain) as (n & _ & _ & _ & _ & _ & E & _).
    eauto.
Qed.
(** ** The transport codec *)

Ltac boolean_tests :=
  repeat match goal with
    | H : _ && _ = true |- _ => apply andb_true_iff in H; destruct H
    | H : _ || _ = false |- _ => apply orb_false_iff in H; destruct H
    | H : negb _ = true |- _ => apply negb_true_iff in H
    | H : negb _ = false |- _ => apply negb_false_iff in H
    | H : (_ <=? _) = true |- _ => apply Z.leb_le in H
    | H : (_ <=? _) = false |- _ => apply Z.leb_gt in H
    | H : (_ <? _) = true |- _ => apply Z.ltb_lt in H
    | H : (_ <? _) = false |- _ => apply Z.ltb_ge in H
    | H : (_ =? _) = true |- _ => apply Z.eqb_eq in H
    | H : (_ =? _) = false |- _ => apply Z.eqb_neq in H
    end.

Lemma inRange_true lo hi c : inRange lo hi c = true <-> lo <= c <= hi.
Proof. unfold inRange. rewrite andb_true_iff, !Z.leb_le. tauto. Qed.

Lemma inRange_false lo hi c : inRange lo hi c = false <-> c < lo \/ hi < c.
Proof.
  unfold inRange. rewrite andb_false_iff, !Z.leb_gt. tauto.
Qed.

(** Decides the comparisons of a goal from the bounds at hand. *)
Ltac settle_tests :=
  repeat match goal with
    | |- context [inRange ?lo ?hi ?c] =>
        let E := fresh "E" in
        destruct (inRange lo hi c) eqn:E;
        [apply inRange_true in E | apply inRange_false in E];
        try (exfalso; Z.div_mod_to_equations; lia)
    | |- context [?a <? ?b] =>
        let E := fresh "E" in
        destruct (Z.ltb_spec a b) as [E|E];
        try (exfalso; Z.div_mod_to_equations; lia)
    | |- context [?a =? ?b] =>
        let E := fresh "E" in
        destruct (Z.eqb_spec a b) as [E|E];
        try (exfalso; Z.div_mod_to_equations; lia)
    end.

Lemma digit_cases d :
  0 <= d < 16 -> In d [0; 1; 2; 3; 4; 5; 6; 7; 8; 9; 10; 11; 12; 13; 14; 15].
Proof.
  intros H. cbn [In].
  assert (d = 0 \/ d = 1 \/ d = 2 \/ d = 3 \/ d = 4 \/ d = 5 \/ d = 6 \/
          d = 7 \/ d = 8 \/ d = 9 \/ d = 10 \/ d = 11 \/ d = 12 \/
          d = 13 \/ d = 14 \/ d = 15) by lia.
  intuition congruence.
Qed.

Ltac by_digit d H :=
  apply digit_cases in H; simpl in H;
  repeat (destruct H as [<-|H]; [reflexivity|]); destruct H.

Lemma hexValue_hexUpper d : 0 <= d < 16 -> hexValue (hexUpper d) = Some d.
Proof. intros H. by_digit d H. Qed.

Lemma isUpperHex_hexUpper d : 0 <= d < 16 -> isUpperHex (hexUpper d) = true.
Proof. intros H. by_digit d H. Qed.

Lemma hexValue_hexLower d : 0 <= d < 16 -> hexValue (hexLower d) = Some d.
Proof. intros H. by_digit d H. Qed.

Lemma replaceEscapes_escape a b rest x y :
  isUpperHex a = true -> isUpperHex b = true ->
  hexValue a = Some x -> hexValue b = Some y ->
  replaceEscapes (37 :: a :: b :: rest) = (16 * x + y) :: replaceEscapes rest.
Proof.
  intros Ha Hb Hx Hy. cbn [replaceEscapes Z.eqb Pos.eqb].
  now rewrite Ha, Hb, Hx, Hy.
Qed.

Lemma replaceEscapes_percentEncode b e :
  isByte b ->
  replaceEscapes (percentEncode b ++ e) = b :: replaceEscapes e.
Proof.
  unfold isByte. intros Hb. unfold percentEncode. cbn [app].
  rewrite (replaceEscapes_escape _ _ _ (b / 16) (b mod 16));
    try (apply isUpperHex_hexUpper || apply hexValue_hexUpper);
    try (Z.div_mod_to_equations; lia).
  f_equal. Z.div_mod_to_equations; lia.
Qed.

Lemma replaceEscapes_bytes bytes e :
  Forall isByte bytes ->
  replaceEscapes (flat_map percentEncode bytes ++ e) =
  bytes ++ replaceEscapes e.
Proof.
  induction 1 as [|b bytes Hb Hbs IH]; auto.
  cbn [flat_map]. rewrite <- app_assoc, replaceEscapes_percentEncode, IH by auto.
  reflexivity.
Qed.

Lemma replaceEscapes_plain c e :
  c <> 37 -> replaceEscapes (c :: e) = c :: replaceEscapes e.
Proof.
  intros Hc. cbn [replaceEscapes].
  destruct (Z.eqb_spec c 37); [contradiction|reflexivity].
Qed.

Lemma unescapeTokens_escape a b rest x y :
  hexValue a = Some x -> hexValue b = Some y ->
  unescapeTokens (37 :: a :: b :: rest) =
  (r <- unescapeTokens rest ;; Ok (Octet (16 * x + y) :: r)).
Proof.
  intros Hx Hy. cbn [unescapeTokens Z.eqb Pos.eqb].
  now rewrite Hx, Hy.
Qed.

Lemma unescapeTokens_escapeByte b rest :
  isByte b ->
  unescapeTokens (escapeByte b ++ rest) =
  (r <- unescapeTokens rest ;; Ok (Octet b :: r)).
Proof.
  unfold isByte. intros Hb. unfold escapeByte. cbn [app].
  rewrite (unescapeTokens_escape _ _ _ ((b / 16) mod 16) (b mod 16));
    try apply hexValue_hexLower; try (Z.div_mod_to_equations; lia).
  replace (16 * ((b / 16) mod 16) + b mod 16) with b
    by (Z.div_mod_to_equations; lia).
  reflexivity.
Qed.

Lemma unescapeTokens_bytes bin :
  Forall isByte bin ->
  unescapeTokens (flat_map escapeByte bin) = Ok (map Octet bin).
Proof.
  induction 1 as [|b bin Hb Hbs IH]; auto.
  cbn [flat_map]. rewrite unescapeTokens_escapeByte, IH by auto.
  reflexivity.
Qed.

Lemma utf8Encode_bytes cp :
  0 <= cp <= 1114111 -> Forall isByte (utf8Encode cp).
Proof.
  intros H. unfold utf8Encode, isByte.
  settle_tests; repeat constructor; Z.div_mod_to_equations; lia.
Qed.

Lemma list_ind2 {A : Type} (P : list A -> Prop) :
  P [] ->
  (forall a l, P l -> (forall b l', l = b :: l' -> P l') -> P (a :: l)) ->
  forall l, P l.
Proof.
  intros Hnil Hstep l.
  assert (H : P l /\ forall b l', l = b :: l' -> P l').
  { induction l as [|a l [IH1 IH2]].
    - split; [exact Hnil|discriminate].
    - split; [now apply Hstep|]. now intros b l' [= -> ->]. }
  apply H.
Qed.

Lemma isUnreserved_ascii c :
  isUnreserved c = true -> 0 <= c < 128 /\ c <> 37.
Proof.
  unfold isUnreserved. cbn [existsb]. intros H.
  repeat (apply orb_true_iff in H; destruct H as [H|H]);
    try discriminate; try (apply inRange_true in H; lia);
    apply Z.eqb_eq in H; lia.
Qed.

Lemma utf8Encode_ascii c : 0 <= c < 128 -> utf8Encode c = [c].
Proof. intros H. unfold utf8Encode. now settle_tests. Qed.

Lemma pair_code_point c c2 :
  isLeadSurrogate c = true -> isTrailSurrogate c2 = true ->
  65536 <= (c - 55296) * 1024 + (c2 - 56320) + 65536 <= 1114111.
Proof.
  unfold isLeadSurrogate, isTrailSurrogate. rewrite !inRange_true. lia.
Qed.

(** [encodeURIComponent] followed by the replacement of the escapes gives
    the UTF-8 octets of a well-formed string. *)
Lemma encode_solid_bytes s :
  wellFormed s = true ->
  exists e, encodeURIComponent s = Ok e /\ replaceEscapes e = utf8Bytes s.
Proof.
  induction s as [|c rest IH IH2] using list_ind2; intros Hwf.
  - exists []. now split.
  - cbn [encodeURIComponent wellFormed utf8Bytes] in *.
    destruct (isUnreserved c) eqn:Eu.
    + apply isUnreserved_ascii in Eu. destruct Eu as [Hc H37].
      assert (El : isLeadSurrogate c = false)
        by (apply inRange_false; lia).
      rewrite El in *. boolean_tests.
      destruct (IH ltac:(assumption)) as (e & -> & He).
      exists (c :: e). split; [reflexivity|].
      rewrite replaceEscapes_plain, He, utf8Encode_ascii by assumption.
      reflexivity.
    + destruct (isLeadSurrogate c) eqn:El.
      * assert (Et : isTrailSurrogate c = false).
        { apply inRange_true in El. apply inRange_false. lia. }
        rewrite Et. destruct rest as [|c2 rest2]; [discriminate|].
        boolean_tests.
        match goal with H : isTrailSurrogate c2 = true |- _ =>
          rewrite H; pose proof (pair_code_point _ _ El H) as Hcp end.
        destruct (IH2 _ _ eq_refl ltac:(assumption)) as (e & -> & He).
        eexists. split; [reflexivity|].
        rewrite replaceEscapes_bytes, He; auto.
        apply utf8Encode_bytes. lia.
      * boolean_tests.
        match goal with H : isTrailSurrogate c = false |- _ => rewrite H end.
        destruct (IH ltac:(assumption)) as (e & -> & He).
        eexists. split; [reflexivity|].
        rewrite replaceEscapes_bytes, He; auto.
        apply utf8Encode_bytes.
        match goal with H : inRange 0 65535 c = true |- _ =>
          apply inRange_true in H; lia end.
Qed.

Lemma utf8Bytes_bytes s : wellFormed s = true -> Forall isByte (utf8Bytes s).
Proof.
  induction s as [|c rest IH IH2] using list_ind2; intros Hwf.
  - constructor.
  - cbn [wellFormed utf8Bytes] in *.
    destruct (isLeadSurrogate c) eqn:El.
    + destruct rest as [|c2 rest2]; [discriminate|]. boolean_tests.
      apply Forall_app. split; [|eapply IH2; eauto].
      apply utf8Encode_bytes.
      match goal with H : isTrailSurrogate c2 = true |- _ =>
        pose proof (pair_code_point _ _ El H) end. lia.
    + boolean_tests. apply Forall_app. split; [|auto].
      apply utf8Encode_bytes.
      match goal with H : inRange 0 65535 c = true |- _ =>
        apply inRange_true in H; lia end.
Qed.

Lemma isContinuation_low6 x : isContinuation (128 + x mod 64) = true.
Proof. apply inRange_true. Z.div_mod_to_equations; lia. Qed.

Lemma validScalar_true lo v :
  lo <= v <= 1114111 -> ~ 55296 <= v <= 57343 -> validScalar lo v = true.
Proof.
  intros H1 H2. unfold validScalar.
  apply andb_true_iff. split; [now apply inRange_true|].
  apply negb_true_iff. apply inRange_false. lia.
Qed.

(** Decoding the octets of a code point gives back its code units. *)
Lemma utf8Decode_encode cp rest :
  0 <= cp <= 1114111 -> ~ 55296 <= cp <= 57343 ->
  utf8Decode (map Octet (utf8Encode cp) ++ rest) =
  (r <- utf8Decode rest ;; Ok (utf16Encode cp ++ r)).
Proof.
  intros Hcp Hsur. unfold utf8Encode.
  destruct (Z.ltb_spec cp 128) as [H1|H1];
    [|destruct (Z.ltb_spec cp 2048) as [H2|H2];
      [|destruct (Z.ltb_spec cp 65536) as [H3|H3]]];
    cbn [map app utf8Decode].
  - destruct (Z.ltb_spec cp 128); [|lia].
    unfold utf16Encode. destruct (Z.ltb_spec cp 65536); [|lia]. reflexivity.
  - replace ((192 + cp / 64 - 192) * 64 + (128 + cp mod 64 - 128)) with cp
      by (Z.div_mod_to_equations; lia).
    rewrite isContinuation_low6, (validScalar_true 128 cp) by lia.
    settle_tests. reflexivity.
  - replace ((224 + cp / 4096 - 224) * 4096 +
             (128 + (cp / 64) mod 64 - 128) * 64 + (128 + cp mod 64 - 128))
      with cp by (Z.div_mod_to_equations; lia).
    rewrite !isContinuation_low6, (validScalar_true 2048 cp) by lia.
    settle_tests. reflexivity.
  - replace ((240 + cp / 262144 - 240) * 262144 +
             (128 + (cp / 4096) mod 64 - 128) * 4096 +
             (128 + (cp / 64) mod 64 - 128) * 64 + (128 + cp mod 64 - 128))
      with cp by (Z.div_mod_to_equations; lia).
    rewrite !isContinuation_low6, (validScalar_true 65536 cp) by lia.
    settle_tests. reflexivity.
Qed.

Lemma utf16Encode_unit c : 0 <= c <= 65535 -> utf16Encode c = [c].
Proof. intros H. unfold utf16Encode. now settle_tests. Qed.

Lemma utf16Encode_pair c c2 :
  isLeadSurrogate c = true -> isTrailSurrogate c2 = true ->
  utf16Encode ((c - 55296) * 1024 + (c2 - 56320) + 65536) = [c; c2].
Proof.
  unfold isLeadSurrogate, isTrailSurrogate. rewrite !inRange_true.
  intros H1 H2. unfold utf16Encode. settle_tests.
  f_equal; [|f_equal]; Z.div_mod_to_equations; lia.
Qed.

(** Decoding the UTF-8 octets of a well-formed string gives the string. *)
Lemma utf8Decode_bytes s :
  wellFormed s = true -> utf8Decode (map Octet (utf8Bytes s)) = Ok s.
Proof.
  induction s as [|c rest IH IH2] using list_ind2; intros Hwf.
  - reflexivity.
  - cbn [wellFormed utf8Bytes] in *.
    destruct (isLeadSurrogate c) eqn:El.
    + destruct rest as [|c2 rest2]; [discriminate|]. boolean_tests.
      match goal with H : isTrailSurrogate c2 = true |- _ =>
        pose proof (pair_code_point _ _ El H) as Hcp;
        pose proof (utf16Encode_pair _ _ El H) as H16 end.
      rewrite map_app, utf8Decode_encode by lia.
      rewrite (IH2 _ _ eq_refl) by assumption.
      cbn [bind]. now rewrite H16.
    + boolean_tests.
      match goal with H : inRange 0 65535 c = true |- _ =>
        apply inRange_true in H end.
      apply inRange_false in El.
      match goal with H : isTrailSurrogate c = false |- _ =>
        apply inRange_false in H end.
      rewrite map_app, utf8Decode_encode by lia.
      rewrite IH by assumption. cbn [bind].
      now rewrite utf16Encode_unit by lia.
Qed.

Lemma list_ind3 {A : Type} (P : list A -> Prop) :
  P [] -> (forall a, P [a]) -> (forall a b, P [a; b]) ->
  (forall a b c l, P l -> P (a :: b :: c :: l)) ->
  forall l, P l.
Proof.
  intros H0 H1 H2 H3 l.
  assert (H : P l /\ (forall a, P (a :: l)) /\ (forall a b, P (a :: b :: l))).
  { induction l as [|x l (IH0 & IH1 & IH2)].
    - auto.
    - split; [apply IH1|]. split; [intros a; apply IH2|].
      intros a b. now apply H3. }
  apply H.
Qed.

Lemma b64index_b64char i : 0 <= i < 64 -> b64index (b64char i) = Some i.
Proof.
  intros H. unfold b64char.
  destruct (Z.ltb_spec i 26); [|destruct (Z.ltb_spec i 52);
    [|destruct (Z.ltb_spec i 62); [|destruct (Z.eqb_spec i 62)]]];
    unfold b64index; settle_tests; f_equal; lia.
Qed.

Lemma isBase64Char_b64char i :
  0 <= i < 64 -> isBase64Char (b64char i) = true.
Proof.
  intros H. unfold b64char.
  destruct (Z.ltb_spec i 26); [|destruct (Z.ltb_spec i 52);
    [|destruct (Z.ltb_spec i 62); [|destruct (Z.eqb_spec i 62)]]];
    unfold isBase64Char; settle_tests; reflexivity.
Qed.

Lemma b64char_not_pad i : 0 <= i < 64 -> (b64char i =? 61) = false.
Proof.
  intros H. apply Z.eqb_neq. unfold b64char.
  destruct (Z.ltb_spec i 26); [|destruct (Z.ltb_spec i 52);
    [|destruct (Z.ltb_spec i 62); [|destruct (Z.eqb_spec i 62)]]]; lia.
Qed.

Lemma b64indices_cons c i rest :
  b64index c = Some i ->
  b64indices (c :: rest) = (r <- b64indices rest ;; Ok (i :: r)).
Proof. intros H. cbn [b64indices]. now rewrite H. Qed.

Lemma btoaLoop_length bytes :
  exists n, List.length (btoaLoop bytes) = (4 * n)%nat.
Proof.
  induction bytes as [|a|a b|a b c rest [n IH]] using list_ind3.
  - now exists 0%nat.
  - now exists 1%nat.
  - now exists 1%nat.
  - exists (S n). cbn [btoaLoop List.length]. rewrite IH. lia.
Qed.

Lemma length_mod4 (s : jsstring) n :
  List.length s = (4 * n)%nat -> Z.of_nat (List.length s) mod 4 = 0.
Proof.
  intros ->. rewrite Nat2Z.inj_mul, Z.mul_comm. apply Z_mod_mult.
Qed.

Lemma stripPadding_last q1 q2 q3 q4 :
  (q4 =? 61) = false -> stripPadding [q1; q2; q3; q4] = [q1; q2; q3; q4].
Proof.
  intros H. unfold stripPadding. cbn [List.length rev app].
  rewrite H. now destruct (Z.of_nat 4 mod 4 =? 0).
Qed.

Lemma stripPadding_cons4 q1 q2 q3 q4 t n :
  List.length t = (4 * S n)%nat ->
  stripPadding (q1 :: q2 :: q3 :: q4 :: t) =
  q1 :: q2 :: q3 :: q4 :: stripPadding t.
Proof.
  intros Hlen. unfold stripPadding.
  rewrite (length_mod4 t (S n)) by assumption.
  rewrite (length_mod4 (q1 :: q2 :: q3 :: q4 :: t) (S (S n)))
    by (cbn [List.length]; lia).
  cbn [Z.eqb].
  change (q1 :: q2 :: q3 :: q4 :: t) with ([q1; q2; q3; q4] ++ t).
  rewrite rev_app_distr.
  assert (Hrev : List.length (rev t) = (4 * S n)%nat)
    by now rewrite length_rev.
  destruct (rev t) as [|x1 [|x2 r2]] eqn:E; try (cbn in Hrev; lia).
  cbn [app].
  assert (Ht : t = rev (x1 :: x2 :: r2)) by (rewrite <- E; now rewrite rev_involutive).
  destruct (x1 =? 61).
  - destruct (x2 =? 61).
    + rewrite rev_app_distr. reflexivity.
    + change (x2 :: r2 ++ rev [q1; q2; q3; q4])
        with ((x2 :: r2) ++ rev [q1; q2; q3; q4]).
      rewrite rev_app_distr. reflexivity.
  - reflexivity.
Qed.

Lemma filter_all {A : Type} (f : A -> bool) (l : list A) :
  Forall (fun x => f x = true) l -> filter f l = l.
Proof.
  induction 1 as [|x l Hx Hl IH]; simpl; auto. now rewrite Hx, IH.
Qed.

Lemma isBase64Char_not_whitespace c :
  isBase64Char c = true -> negb (isAsciiWhitespace c) = true.
Proof.
  unfold isBase64Char, isAsciiWhitespace. cbn [existsb]. intros H.
  apply negb_true_iff.
  repeat (apply orb_true_iff in H; destruct H as [H|H]);
    try (apply inRange_true in H); try (apply Z.eqb_eq in H);
    settle_tests; reflexivity.
Qed.

Lemma btoaLoop_chars bytes :
  Forall isByte bytes ->
  Forall (fun c => isBase64Char c = true) (btoaLoop bytes).
Proof.
  unfold isByte.
  induction bytes as [|a|a b|a b c rest IH] using list_ind3; intros Hb;
    cbn [btoaLoop].
  - constructor.
  - inversion Hb; subst.
    repeat constructor; apply isBase64Char_b64char;
      Z.div_mod_to_equations; lia.
  - inversion Hb as [|? ? Ha Hb']; subst. inversion Hb'; subst.
    repeat constructor; apply isBase64Char_b64char;
      Z.div_mod_to_equations; lia.
  - inversion Hb as [|? ? Ha Hb1]; subst.
    inversion Hb1 as [|? ? Hb2 Hb3]; subst.
    inversion Hb3 as [|? ? Hc Hrest]; subst.
    repeat (constructor;
            [apply isBase64Char_b64char; Z.div_mod_to_equations; lia|]).
    now apply IH.
Qed.

Lemma btoaLoop_length_pos a rest :
  exists n, List.length (btoaLoop (a :: rest)) = (4 * S n)%nat.
Proof.
  destruct rest as [|b [|c rest]].
  - now exists 0%nat.
  - now exists 0%nat.
  - destruct (btoaLoop_length rest) as [n Hn]. exists n.
    cbn [btoaLoop List.length]. rewrite Hn. lia.
Qed.

Ltac sextet := Z.div_mod_to_equations; lia.

(** Dropping the padding and decoding the sextets undoes [btoaLoop]. *)
Lemma atobLoop_btoaLoop bytes :
  Forall isByte bytes ->
  (sextets <- b64indices (stripPadding (btoaLoop bytes)) ;;
   atobLoop sextets) = Ok bytes.
Proof.
  unfold isByte.
  induction bytes as [|a|a b|a b c rest IH] using list_ind3; intros Hb.
  - reflexivity.
  - inversion Hb; subst. cbn [btoaLoop]. unfold stripPadding.
    cbn [List.length rev app].
    change (Z.of_nat 4 mod 4 =? 0) with true.
    change (61 =? 61) with true. cbn [rev app].
    rewrite (b64indices_cons _ (a / 4)) by (apply b64index_b64char; sextet).
    rewrite (b64indices_cons _ (a mod 4 * 16))
      by (apply b64index_b64char; sextet).
    cbn [b64indices bind atobLoop]. do 2 f_equal. sextet.
  - inversion Hb as [|? ? Ha Hb']; subst. inversion Hb'; subst.
    cbn [btoaLoop]. unfold stripPadding. cbn [List.length rev app].
    change (Z.of_nat 4 mod 4 =? 0) with true.
    change (61 =? 61) with true.
    rewrite b64char_not_pad by sextet. cbn [rev app].
    rewrite (b64indices_cons _ (a / 4)) by (apply b64index_b64char; sextet).
    rewrite (b64indices_cons _ (a mod 4 * 16 + b / 16))
      by (apply b64index_b64char; sextet).
    rewrite (b64indices_cons _ (b mod 16 * 4))
      by (apply b64index_b64char; sextet).
    cbn [b64indices bind atobLoop]. f_equal. f_equal; [|f_equal]; sextet.
  - inversion Hb as [|? ? Ha Hb1]; subst.
    inversion Hb1 as [|? ? Hb2 Hb3]; subst.
    inversion Hb3 as [|? ? Hc Hrest]; subst.
    specialize (IH Hrest). cbn [btoaLoop].
    assert (Hstrip :
      stripPadding (b64char (a / 4) :: b64char (a mod 4 * 16 + b / 16) ::
                    b64char (b mod 16 * 4 + c / 64) :: b64char (c mod 64) ::
                    btoaLoop rest) =
      b64char (a / 4) :: b64char (a mod 4 * 16 + b / 16) ::
      b64char (b mod 16 * 4 + c / 64) :: b64char (c mod 64) ::
      stripPadding (btoaLoop rest)).
    { destruct rest as [|x rest'].
      - cbn [btoaLoop]. rewrite stripPadding_last; [reflexivity|].
        apply b64char_not_pad. sextet.
      - destruct (btoaLoop_length_pos x rest') as [n Hn].
        eapply stripPadding_cons4; eauto. }
    rewrite Hstrip.
    rewrite (b64indices_cons _ (a / 4)) by (apply b64index_b64char; sextet).
    rewrite (b64indices_cons _ (a mod 4 * 16 + b / 16))
      by (apply b64index_b64char; sextet).
    rewrite (b64indices_cons _ (b mod 16 * 4 + c / 64))
      by (apply b64index_b64char; sextet).
    rewrite (b64indices_cons _ (c mod 64)) by (apply b64index_b64char; sextet).
    destruct (b64indices (stripPadding (btoaLoop rest))) as [sx|e];
      [|discriminate].
    cbn [bind] in *. cbn [atobLoop]. rewrite IH. cbn [bind].
    f_equal. f_equal; [|f_equal; [|f_equal]]; sextet.
Qed.

Lemma atob_btoaLoop bytes :
  Forall isByte bytes -> atob (btoaLoop bytes) = Ok bytes.
Proof.
  intros Hb. unfold atob.
  rewrite filter_all.
  - now apply atobLoop_btoaLoop.
  - eapply Forall_impl; [|apply btoaLoop_chars; exact Hb].
    intros c Hc. now apply isBase64Char_not_whitespace.
Qed.

Lemma btoa_bytes bytes :
  Forall isByte bytes -> btoa bytes = Ok (btoaLoop bytes).
Proof.
  intros Hb. unfold btoa.
  replace (forallb (inRange 0 255) bytes) with true; [reflexivity|].
  symmetry. apply forallb_forall. rewrite Forall_forall in Hb.
  intros x Hx. apply inRange_true. now apply Hb.
Qed.

(** The round trip of [b64EncodeUnicode] and [b64DecodeUnicode] on
    well-formed text; the token is made of the base64 alphabet and the
    padding character. *)
Lemma b64_roundtrip s :
  wellFormed s = true ->
  exists token,
    b64EncodeUnicode s = Ok token /\
    b64DecodeUnicode token = Ok s /\
    Forall (fun c => isBase64Char c = true) token.
Proof.
  intros Hwf.
  destruct (encode_solid_bytes s Hwf) as (e & He & Hsolid).
  pose proof (utf8Bytes_bytes s Hwf) as Hbytes.
  exists (btoaLoop (utf8Bytes s)). split; [|split].
  - unfold b64EncodeUnicode. rewrite He. cbn [bind].
    rewrite Hsolid. now apply btoa_bytes.
  - unfold b64DecodeUnicode. rewrite atob_btoaLoop by assumption.
    cbn [bind]. unfold decodeURIComponent.
    rewrite unescapeTokens_bytes by assumption. cbn [bind].
    now apply utf8Decode_bytes.
  - now apply btoaLoop_chars.
Qed.

(** ** Recognising the tag *)

Lemma delimiter_head : delimiter = 36 :: tl delimiter.
Proof. reflexivity. Qed.

Lemma delimiter_tail_no_dollar : Forall (fun c => c <> 36) (tl delimiter).
Proof.
  apply Forall_forall. intros c Hc. vm_compute in Hc.
  repeat (destruct Hc as [<-|Hc]; [discriminate|]). destruct Hc.
Qed.

Lemma matchTag_no_dollar t :
  Forall (fun c => c <> 36) t -> matchTag t = None.
Proof.
  induction 1 as [|c t Hc Ht IH].
  - reflexivity.
  - cbn [matchTag]. rewrite IH.
    replace (startsWith delimiter (c :: t)) with (@None jsstring).
    + now destruct (isLineTerminator c).
    + rewrite delimiter_head. cbn [startsWith].
      destruct (Z.eqb_spec 36 c); [lia|reflexivity].
Qed.

Lemma startsWith_app p s : startsWith p (p ++ s) = Some s.
Proof.
  induction p as [|a p IH]; cbn [startsWith app]; auto.
  now rewrite Z.eqb_refl.
Qed.

Lemma isBase64Char_not_dollar c : isBase64Char c = true -> c <> 36.
Proof.
  unfold isBase64Char. intros H.
  repeat (apply orb_true_iff in H; destruct H as [H|H]);
    try (apply inRange_true in H); try (apply Z.eqb_eq in H); lia.
Qed.

Lemma matchTag_delimiter token :
  Forall (fun c => isBase64Char c = true) token ->
  noSlash token = true ->
  matchTag (delimiter ++ token) = Some ([], token).
Proof.
  intros Hchars Hslash.
  assert (Hrest : matchTag (tl delimiter ++ token) = None).
  { apply matchTag_no_dollar. apply Forall_app. split.
    - apply delimiter_tail_no_dollar.
    - eapply Forall_impl; [|exact Hchars].
      intros c. apply isBase64Char_not_dollar. }
  assert (Hhere : startsWith delimiter (36 :: (tl delimiter ++ token)) =
                  Some token).
  { change (36 :: (tl delimiter ++ token)) with (delimiter ++ token).
    apply startsWith_app. }
  change (delimiter ++ token) with (36 :: (tl delimiter ++ token)).
  cbn [matchTag]. rewrite Hrest, Hhere, Hslash. reflexivity.
Qed.

Lemma matchTag_tagged u token :
  noLineTerminator u = true ->
  Forall (fun c => isBase64Char c = true) token ->
  noSlash token = true ->
  matchTag (u ++ delimiter ++ token) = Some (u, token).
Proof.
  intros Hu Hchars Hslash. induction u as [|c u IH].
  - now apply matchTag_delimiter.
  - cbn [forallb] in Hu. apply andb_true_iff in Hu. destruct Hu as [Hc Hu].
    apply negb_true_iff in Hc.
    change ((c :: u) ++ delimiter ++ token)
      with (c :: (u ++ delimiter ++ token)).
    cbn [matchTag]. now rewrite Hc, IH.
Qed.


(** ** Composite keys *)

Lemma str_inj a b : str a = str b -> a = b.
Proof.
  unfold str. intros H.
  rewrite <- (string_of_list_ascii_of_string a).
  rewrite <- (string_of_list_ascii_of_string b).
  f_equal. revert H.
  generalize (list_ascii_of_string a) (list_ascii_of_string b).
  induction l as [|x l IH]; intros [|y l']; simpl; try discriminate; auto.
  intros [= Hxy Hl]. f_equal; [|now apply IH].
  apply N2Z.inj in Hxy.
  rewrite <- (ascii_N_embedding x), <- (ascii_N_embedding y).
  now rewrite Hxy.
Qed.

Lemma string_of_uint_no_colon d :
  Forall (fun c => c <> 58) (str (NilEmpty.string_of_uint d)).
Proof.
  induction d; simpl; constructor; auto; discriminate.
Qed.

Lemma numberToString_no_colon n :
  Forall (fun c => c <> 58) (numberToString n).
Proof.
  unfold numberToString.
  assert (H : forall d, Forall (fun c => c <> 58)
                          (str (NilZero.string_of_uint d))).
  { intros d. destruct d; try apply (string_of_uint_no_colon (_ d)).
    repeat constructor. discriminate. }
  destruct (Z.to_int n) as [d|d]; simpl.
  - apply H.
  - constructor; [discriminate|]. apply H.
Qed.

Lemma to_int_not_nil n :
  Z.to_int n <> Decimal.Pos Decimal.Nil /\
  Z.to_int n <> Decimal.Neg Decimal.Nil.
Proof.
  split; intros H; pose proof (f_equal Z.of_int H) as H0;
    rewrite DecimalZ.of_to in H0; simpl in H0; subst n; discriminate.
Qed.

Lemma numberToString_inj a b : numberToString a = numberToString b -> a = b.
Proof.
  unfold numberToString. intros H. apply str_inj in H.
  apply DecimalZ.to_int_inj.
  destruct (to_int_not_nil a) as [Ha Ha'], (to_int_not_nil b) as [Hb Hb'].
  pose proof (NilZero.isi _ Ha Ha') as Ea.
  pose proof (NilZero.isi _ Hb Hb') as Eb.
  rewrite H in Ea. congruence.
Qed.

(** The text before the first colon, and what follows it. *)
Lemma split_at_colon (a a' r r' : jsstring) :
  Forall (fun c => c <> 58) a -> Forall (fun c => c <> 58) a' ->
  a ++ 58 :: r = a' ++ 58 :: r' -> a = a' /\ r = r'.
Proof.
  intros Ha. revert a'.
  induction Ha as [|x a Hx Ha IH]; intros a' Ha' H.
  - destruct Ha' as [|y a' Hy Ha']; simpl in H.
    + injection H as ->. now split.
    + injection H as Hxy _. congruence.
  - destruct Ha' as [|y a' Hy Ha']; simpl in H.
    + injection H as Hxy _. congruence.
    + injection H as -> H. destruct (IH _ Ha' H) as [-> ->]. now split.
Qed.

Lemma makeKey_components tabId frameId url tabId' frameId' url' :
  makeKey tabId frameId url = makeKey tabId' frameId' url' ->
  tabId = tabId' /\ frameId = frameId' /\ url = url'.
Proof.
  unfold makeKey. change (str "::") with [58; 58]. cbn [app]. intros H.
  apply split_at_colon in H; try apply numberToString_no_colon.
  destruct H as [Ht H]. injection H as H.
  apply split_at_colon in H; try apply numberToString_no_colon.
  destruct H as [Hf H]. injection H as H.
  apply numberToString_inj in Ht, Hf. auto.
Qed.

(** X5: the composite key tells requests apart: two keys are equal only
    when tab, frame and URL all are, whatever colons the URL holds. *)
Theorem makeKey_injective tabId frameId url tabId' frameId' url' :
  makeKey tabId frameId url = makeKey tabId' frameId' url' <->
  tabId = tabId' /\ frameId = frameId' /\ url = url'.
Proof.
  split.
  - apply makeKey_components.
  - now intros (-> & -> & ->).
Qed.

(** ** The split of a tagged URL *)

Lemma startsWith_sound p : forall s r, startsWith p s = Some r -> s = p ++ r.
Proof.
  induction p as [|a p IH]; intros s r; cbn [startsWith app].
  - now intros [= ->].
  - destruct s as [|b s]; [discriminate|].
    destruct (Z.eqb_spec a b); [|discriminate].
    intros H. apply IH in H. now subst.
Qed.

Lemma matchTag_unfold s :
  matchTag s =
  let here :=
    match startsWith delimiter s with
    | Some token => if noSlash token then Some (@nil Z, token) else None
    | None => None
    end in
  match s with
  | [] => here
  | c :: rest =>
      match (if isLineTerminator c then None else matchTag rest) with
      | Some (orig, token) => Some (c :: orig, token)
      | None => here
      end
  end.
Proof. now destruct s. Qed.

Lemma matchTag_sound s : forall u token,
  matchTag s = Some (u, token) -> tagged s u token.
Proof.
  assert (Hhere : forall s u token,
             match startsWith delimiter s with
             | Some token => if noSlash token then Some (@nil Z, token) else None
             | None => None
             end = Some (u, token) -> tagged s u token).
  { intros s0 u token H.
    destruct (startsWith delimiter s0) as [t|] eqn:E; [|discriminate].
    destruct (noSlash t) eqn:Es; [|discriminate].
    injection H as <- <-. apply startsWith_sound in E.
    now repeat split. }
  induction s as [|c rest IH]; intros u token; rewrite matchTag_unfold;
    cbv zeta.
  - apply Hhere.
  - destruct (isLineTerminator c) eqn:Ec; [apply Hhere|].
    destruct (matchTag rest) as [[orig t]|]; [|apply Hhere].
    intros [= <- <-]. destruct (IH _ _ eq_refl) as (-> & Hu & Ht).
    repeat split; auto. cbn [noLineTerminator forallb].
    now rewrite Ec.
Qed.

(** The first group is greedy: a split is found, and none has a longer
    first part. *)
Lemma matchTag_greedy u : forall token,
  noLineTerminator u = true -> noSlash token = true ->
  exists u' token',
    matchTag (u ++ delimiter ++ token) = Some (u', token') /\
    (List.length u <= List.length u')%nat.
Proof.
  induction u as [|c u IH]; intros token Hu Ht.
  - cbn [app]. rewrite matchTag_unfold, delimiter_head. cbv zeta.
    cbn [app].
    change (36 :: tl delimiter ++ token) with (delimiter ++ token).
    rewrite startsWith_app, Ht.
    destruct (if isLineTerminator 36 then None
              else matchTag (tl delimiter ++ token)) as [[orig t]|].
    + eexists _, _. split; [reflexivity|]. simpl. lia.
    + eexists _, _. split; [reflexivity|]. simpl. lia.
  - cbn [noLineTerminator forallb] in Hu. apply andb_true_iff in Hu.
    destruct Hu as [Hc Hu]. apply negb_true_iff in Hc.
    destruct (IH token Hu Ht) as (u' & token' & Hm & Hlen).
    change ((c :: u) ++ delimiter ++ token)
      with (c :: (u ++ delimiter ++ token)).
    rewrite matchTag_unfold. cbv zeta. rewrite Hc, Hm.
    eexists _, _. split; [reflexivity|]. simpl. lia.
Qed.

Lemma app_same_length {A : Type} (a b x y : list A) :
  List.length a = List.length b -> a ++ x = b ++ y -> a = b /\ x = y.
Proof.
  revert b. induction a as [|h a IH]; intros [|h' b]; simpl;
    try discriminate; auto.
  intros [= Hlen] [= -> H]. destruct (IH _ Hlen H) as [-> ->]. auto.
Qed.

Lemma matchTag_None s :
  matchTag s = None <-> forall u token, ~ tagged s u token.
Proof.
  split.
  - intros Hm u token (-> & Hu & Ht).
    destruct (matchTag_greedy u token Hu Ht) as (u' & t' & Hm' & _).
    congruence.
  - intros H. destruct (matchTag s) as [[u token]|] eqn:E; auto.
    apply matchTag_sound in E. now apply H in E.
Qed.

(** X10: what the regular expression of the request listener finds.  Its
    match gives u and the token exactly when the URL is u, the delimiter
    and the token, u holds no line terminator, the token no slash, and no
    other such split of the URL has a longer first part: a URL with
    several delimiters is split at the last one that only a slash-free
    text follows. *)
Theorem matchTag_longest_split s u token :
  matchTag s = Some (u, token) <->
  tagged s u token /\
  forall u' token',
    tagged s u' token' -> (List.length u' <= List.length u)%nat.
Proof.
  split.
  - intros Hm. split; [now apply matchTag_sound|].
    intros u' token' (-> & Hu & Ht).
    destruct (matchTag_greedy u' token' Hu Ht) as (u2 & t2 & Hm' & Hlen).
    rewrite Hm in Hm'. now injection Hm' as <- <-.
  - intros [(-> & Hu & Ht) Hmax].
    destruct (matchTag_greedy u token Hu Ht) as (u2 & t2 & Hm & Hlen).
    rewrite Hm. pose proof (matchTag_sound _ _ _ Hm) as Hs.
    pose proof (Hmax _ _ Hs) as Hlen'.
    destruct Hs as (Heq & _ & _).
    apply app_same_length in Heq; [|lia].
    destruct Heq as [<- Heq]. apply app_inv_head in Heq. now subst.
Qed.

Lemma matchTag_tagged_no_dollar u token :
  noLineTerminator u = true -> noSlash token = true ->
  Forall (fun c => c <> 36) token ->
  matchTag (u ++ delimiter ++ token) = Some (u, token).
Proof.
  intros Hu Ht Hd. induction u as [|c u IH].
  - assert (Hrest : matchTag (tl delimiter ++ token) = None).
    { apply matchTag_no_dollar. apply Forall_app. split; auto.
      apply delimiter_tail_no_dollar. }
    cbn [app]. rewrite matchTag_unfold, delimiter_head. cbv zeta.
    cbn [app]. rewrite Hrest.
    change (36 :: tl delimiter ++ token) with (delimiter ++ token).
    rewrite startsWith_app, Ht. now destruct (isLineTerminator 36).
  - cbn [noLineTerminator forallb] in Hu. apply andb_true_iff in Hu.
    destruct Hu as [Hc Hu]. apply negb_true_iff in Hc.
    change ((c :: u) ++ delimiter ++ token)
      with (c :: (u ++ delimiter ++ token)).
    rewrite matchTag_unfold. cbv zeta. now rewrite Hc, IH.
Qed.

(** A text with one occurrence of a character is split there only. *)
Lemma split_at_only {A : Type} (x : A) (a b a' b' : list A) :
  ~ In x a -> ~ In x b -> a ++ x :: b = a' ++ x :: b' -> a = a' /\ b = b'.
Proof.
  revert a'. induction a as [|h a IH]; intros a' Ha Hb H.
  - destruct a' as [|h' a']; simpl in H.
    + injection H as ->. now split.
    + injection H as <- ->. exfalso. apply Hb. apply in_elt.
  - destruct a' as [|h' a']; simpl in H.
    + injection H as -> _. exfalso. apply Ha. now left.
    + injection H as <- H.
      destruct (IH a') as [-> ->]; auto.
      intros Hin. apply Ha. now right.
Qed.

(** With a single dollar sign in the URL, a token with a slash leaves the
    regular expression without a match. *)
Lemma matchTag_slash u token :
  Forall (fun c => c <> 36) u -> Forall (fun c => c <> 36) token ->
  noSlash token = false ->
  matchTag (u ++ delimiter ++ token) = None.
Proof.
  intros Hu Ht Hs. apply matchTag_None.
  intros u' token' (Heq & _ & Hs').
  rewrite delimiter_head in Heq. cbn [app] in Heq.
  apply split_at_only in Heq.
  - destruct Heq as [_ Heq]. apply app_inv_head in Heq. congruence.
  - rewrite Forall_forall in Hu. intros Hin. now apply (Hu 36).
  - intros Hin. apply in_app_or in Hin. destruct Hin as [Hin|Hin].
    + pose proof delimiter_tail_no_dollar as Hd.
      rewrite Forall_forall in Hd. now apply (Hd 36).
    + rewrite Forall_forall in Ht. now apply (Ht 36).
Qed.

(** ** The codec outside its round trip *)

Lemma encodeURIComponent_illFormed s :
  codeUnits s -> wellFormed s = false -> encodeURIComponent s = Throw URIError.
Proof.
  unfold codeUnits.
  induction s as [|c rest IH IH2] using list_ind2; intros Hu Hwf.
  - discriminate.
  - inversion Hu as [|? ? Hc Hrest]; subst.
    cbn [encodeURIComponent wellFormed] in *.
    destruct (isUnreserved c) eqn:Eu.
    + apply isUnreserved_ascii in Eu.
      assert (El : isLeadSurrogate c = false) by (apply inRange_false; lia).
      assert (Et : isTrailSurrogate c = false) by (apply inRange_false; lia).
      rewrite El, Et in Hwf.
      replace (inRange 0 65535 c) with true in Hwf
        by (symmetry; apply inRange_true; lia).
      simpl in Hwf. now rewrite IH.
    + destruct (isTrailSurrogate c) eqn:Et; [reflexivity|].
      destruct (isLeadSurrogate c) eqn:El.
      * destruct rest as [|c2 rest2]; [reflexivity|].
        destruct (isTrailSurrogate c2); [|reflexivity].
        simpl in Hwf. inversion Hrest; subst.
        now rewrite (IH2 _ _ eq_refl).
      * replace (inRange 0 65535 c) with true in Hwf
          by (symmetry; apply inRange_true; lia).
        simpl in Hwf. now rewrite IH.
Qed.

(** X11: on a string of 16-bit code units [b64EncodeUnicode] returns
    exactly when every surrogate of the string is paired, and then gives
    the base64 text of the UTF-8 octets of the string; on a string with a
    lone surrogate it throws a URIError. *)
Theorem b64EncodeUnicode_defined s :
  codeUnits s ->
  b64EncodeUnicode s =
    if wellFormed s then Ok (btoaLoop (utf8Bytes s)) else Throw URIError.
Proof.
  intros Hu. destruct (wellFormed s) eqn:Hwf.
  - destruct (encode_solid_bytes s Hwf) as (e & He & Hsolid).
    unfold b64EncodeUnicode. rewrite He. cbn [bind]. rewrite Hsolid.
    apply btoa_bytes. now apply utf8Bytes_bytes.
  - unfold b64EncodeUnicode.
    now rewrite encodeURIComponent_illFormed.
Qed.

(** X12: distinct well-formed strings have distinct tokens. *)
Theorem b64EncodeUnicode_injective s s' :
  wellFormed s = true -> wellFormed s' = true -> s <> s' ->
  b64EncodeUnicode s <> b64EncodeUnicode s'.
Proof.
  intros Hs Hs' Hne H.
  destruct (b64_roundtrip s Hs) as (t & He & Hd & _).
  destruct (b64_roundtrip s' Hs') as (t' & He' & Hd' & _).
  rewrite He, He' in H. injection H as <-. congruence.
Qed.

Lemma b64index_None c : isBase64Char c = false -> b64index c = None.
Proof.
  unfold isBase64Char, b64index. intros H. boolean_tests.
  repeat match goal with H : inRange _ _ _ = false |- _ =>
    rewrite H; clear H end.
  now settle_tests.
Qed.

Lemma b64indices_invalid c : forall data,
  In c data -> b64index c = None ->
  b64indices data = Throw InvalidCharacterError.
Proof.
  induction data as [|x data IH]; intros Hin Hc; [destruct Hin|].
  cbn [b64indices]. destruct (b64index x) as [i|] eqn:E; [|reflexivity].
  destruct Hin as [->|Hin]; [congruence|].
  now rewrite IH.
Qed.

Lemma In_stripPadding c s : In c s -> c <> 61 -> In c (stripPadding s).
Proof.
  intros Hin Hc. unfold stripPadding.
  destruct (Z.of_nat (List.length s) mod 4 =? 0); auto.
  pose proof (proj1 (in_rev s c) Hin) as Hr.
  destruct (rev s) as [|x1 r1]; auto.
  destruct (Z.eqb_spec x1 61) as [->|]; auto.
  destruct Hr as [Hr|Hr]; [congruence|].
  destruct r1 as [|x2 r2]; [destruct Hr|].
  destruct (Z.eqb_spec x2 61) as [->|].
  - destruct Hr as [Hr|Hr]; [congruence|]. now apply in_rev in Hr.
  - now apply -> in_rev.
Qed.

Lemma isBase64Char_61 c : isBase64Char c = false -> c <> 61.
Proof. intros H ->. discriminate. Qed.

(** A character that is neither of the base64 alphabet, nor the padding
    character, nor white space makes [atob] throw. *)
Lemma atob_invalid s c :
  In c s -> isBase64Char c = false -> isAsciiWhitespace c = false ->
  atob s = Throw InvalidCharacterError.
Proof.
  intros Hin Hc Hw. unfold atob.
  rewrite (b64indices_invalid c); auto.
  - apply In_stripPadding; [|now apply isBase64Char_61].
    apply filter_In. split; auto. now rewrite Hw.
  - now apply b64index_None.
Qed.

(** ** What the decoder accepts *)

Lemma b64index_range c i : b64index c = Some i -> 0 <= i < 64.
Proof.
  unfold b64index.
  destruct (inRange 65 90 c) eqn:E1;
    [apply inRange_true in E1; intros [= <-]; lia|].
  destruct (inRange 97 122 c) eqn:E2;
    [apply inRange_true in E2; intros [= <-]; lia|].
  destruct (inRange 48 57 c) eqn:E3;
    [apply inRange_true in E3; intros [= <-]; lia|].
  destruct (c =? 43); [intros [= <-]; lia|].
  destruct (c =? 47); [intros [= <-]; lia|discriminate].
Qed.

Lemma b64indices_range s : forall l,
  b64indices s = Ok l -> Forall (fun i => 0 <= i < 64) l.
Proof.
  induction s as [|c s IH]; intros l; cbn [b64indices].
  - intros [= <-]. constructor.
  - destruct (b64index c) as [i|] eqn:E; [|discriminate].
    destruct (b64indices s) as [r|e]; [|discriminate].
    cbn [bind]. intros [= <-]. constructor; auto.
    eapply b64index_range; eauto.
Qed.

Lemma atobLoop_bytes n : forall l,
  (List.length l <= n)%nat -> Forall (fun i => 0 <= i < 64) l ->
  forall bin, atobLoop l = Ok bin -> Forall isByte bin.
Proof.
  unfold isByte.
  induction n as [|n IH]; intros l Hlen Hl bin.
  - destruct l; [|simpl in Hlen; lia]. intros [= <-]. constructor.
  - destruct l as [|a [|b [|c [|d rest]]]]; cbn [atobLoop].
    + intros [= <-]. constructor.
    + discriminate.
    + inversion Hl as [|? ? Ha Hl1]; subst. inversion Hl1; subst.
      intros [= <-]. repeat constructor; Z.div_mod_to_equations; lia.
    + inversion Hl as [|? ? Ha Hl1]; subst.
      inversion Hl1 as [|? ? Hb Hl2]; subst. inversion Hl2; subst.
      intros [= <-]. repeat constructor; Z.div_mod_to_equations; lia.
    + inversion Hl as [|? ? Ha Hl1]; subst.
      inversion Hl1 as [|? ? Hb Hl2]; subst.
      inversion Hl2 as [|? ? Hc Hl3]; subst.
      inversion Hl3 as [|? ? Hd Hl4]; subst.
      destruct (atobLoop rest) as [r|e] eqn:E; [|discriminate].
      cbn [bind]. intros [= <-].
      assert (Hr : Forall (fun b => 0 <= b <= 255) r).
      { apply (IH rest); auto. simpl in Hlen. lia. }
      repeat constructor; auto; Z.div_mod_to_equations; lia.
Qed.

Lemma atob_bytes s bin : atob s = Ok bin -> Forall isByte bin.
Proof.
  unfold atob.
  destruct (b64indices _) as [l|e] eqn:E; [|discriminate].
  cbn [bind]. eapply atobLoop_bytes; [reflexivity|].
  eapply b64indices_range; eauto.
Qed.

(** Octets that decode are the UTF-8 encoding of what they decode to, and
    that is well-formed text: no other octet sequence is accepted. *)
Lemma utf8Decode_exact n : forall bin,
  (List.length bin <= n)%nat -> Forall isByte bin ->
  forall s, utf8Decode (map Octet bin) = Ok s ->
  wellFormed s = true /\ utf8Bytes s = bin.
Proof.
  unfold isByte.
  induction n as [|n IH]; intros bin Hlen Hb s.
  { destruct bin; [|simpl in Hlen; lia]. intros [= <-]. now split. }
  destruct bin as [|b rest]; [intros [= <-]; now split|].
  inversion Hb as [|? ? Hb0 Hrest]; subst.
  cbn [map utf8Decode].
  destruct (Z.ltb_spec b 128) as [H1|H1].
  { destruct (utf8Decode (map Octet rest)) as [r|e] eqn:E; [|discriminate].
    cbn [bind]. intros [= <-].
    destruct (IH rest ltac:(simpl in Hlen; lia) Hrest r E) as [Hw Hu].
    cbn [wellFormed utf8Bytes].
    replace (isLeadSurrogate b) with false
      by (symmetry; apply inRange_false; lia).
    replace (isTrailSurrogate b) with false
      by (symmetry; apply inRange_false; lia).
    replace (inRange 0 65535 b) with true
      by (symmetry; apply inRange_true; lia).
    rewrite Hw, Hu, utf8Encode_ascii by lia. now split. }
  destruct (Z.ltb_spec b 192) as [H2|H2]; [discriminate|].
  destruct (Z.ltb_spec b 224) as [H3|H3].
  { destruct rest as [|b1 rest1]; [discriminate|]. cbn [map].
    inversion Hrest as [|? ? Hb1 Hrest1]; subst.
    set (v := (b - 192) * 64 + (b1 - 128)).
    destruct (isContinuation b1) eqn:Ec1; [|discriminate].
    destruct (validScalar 128 v) eqn:Ev; [|discriminate].
    cbn [andb].
    destruct (utf8Decode (map Octet rest1)) as [r|e] eqn:E; [|discriminate].
    cbn [bind]. intros [= <-].
    destruct (IH rest1 ltac:(simpl in Hlen; lia) Hrest1 r E) as [Hw Hu].
    apply inRange_true in Ec1.
    unfold validScalar in Ev. apply andb_true_iff in Ev.
    destruct Ev as [Ev _]. apply inRange_true in Ev.
    assert (Hv : 128 <= v < 2048) by (unfold v in *; lia).
    rewrite utf16Encode_unit by lia. cbn [app wellFormed utf8Bytes].
    replace (isLeadSurrogate v) with false
      by (symmetry; apply inRange_false; lia).
    replace (isTrailSurrogate v) with false
      by (symmetry; apply inRange_false; lia).
    replace (inRange 0 65535 v) with true
      by (symmetry; apply inRange_true; lia).
    rewrite Hw, Hu. split; [reflexivity|].
    unfold utf8Encode.
    destruct (Z.ltb_spec v 128); [lia|].
    destruct (Z.ltb_spec v 2048); [|lia].
    cbn [app]. f_equal; [|f_equal];
      unfold v; Z.div_mod_to_equations; lia. }
  destruct (Z.ltb_spec b 240) as [H4|H4].
  { destruct rest as [|b1 [|b2 rest2]]; try discriminate. cbn [map].
    inversion Hrest as [|? ? Hb1 Hrest1]; subst.
    inversion Hrest1 as [|? ? Hb2 Hrest2]; subst.
    set (v := (b - 224) * 4096 + (b1 - 128) * 64 + (b2 - 128)).
    destruct (isContinuation b1) eqn:Ec1; [|discriminate].
    destruct (isContinuation b2) eqn:Ec2; [|discriminate].
    destruct (validScalar 2048 v) eqn:Ev; [|discriminate].
    cbn [andb].
    destruct (utf8Decode (map Octet rest2)) as [r|e] eqn:E; [|discriminate].
    cbn [bind]. intros [= <-].
    destruct (IH rest2 ltac:(simpl in Hlen; lia) Hrest2 r E) as [Hw Hu].
    apply inRange_true in Ec1, Ec2.
    unfold validScalar in Ev. apply andb_true_iff in Ev.
    destruct Ev as [Ev Es]. apply inRange_true in Ev.
    apply negb_true_iff in Es. apply inRange_false in Es.
    assert (Hv : 2048 <= v < 65536) by (unfold v in *; lia).
    rewrite utf16Encode_unit by lia. cbn [app wellFormed utf8Bytes].
    replace (isLeadSurrogate v) with false
      by (symmetry; apply inRange_false; lia).
    replace (isTrailSurrogate v) with false
      by (symmetry; apply inRange_false; lia).
    replace (inRange 0 65535 v) with true
      by (symmetry; apply inRange_true; lia).
    rewrite Hw, Hu. split; [reflexivity|].
    unfold utf8Encode.
    destruct (Z.ltb_spec v 128); [lia|].
    destruct (Z.ltb_spec v 2048); [lia|].
    destruct (Z.ltb_spec v 65536); [|lia].
    cbn [app]. f_equal; [|f_equal; [|f_equal]];
      unfold v; Z.div_mod_to_equations; lia. }
  destruct (Z.ltb_spec b 248) as [H5|H5]; [|discriminate].
  destruct rest as [|b1 [|b2 [|b3 rest3]]]; try discriminate. cbn [map].
  inversion Hrest as [|? ? Hb1 Hrest1]; subst.
  inversion Hrest1 as [|? ? Hb2 Hrest2]; subst.
  inversion Hrest2 as [|? ? Hb3 Hrest3]; subst.
  set (v := (b - 240) * 262144 + (b1 - 128) * 4096 + (b2 - 128) * 64 +
            (b3 - 128)).
  destruct (isContinuation b1) eqn:Ec1; [|discriminate].
  destruct (isContinuation b2) eqn:Ec2; [|discriminate].
  destruct (isContinuation b3) eqn:Ec3; [|discriminate].
  destruct (validScalar 65536 v) eqn:Ev; [|discriminate].
  cbn [andb].
  destruct (utf8Decode (map Octet rest3)) as [r|e] eqn:E; [|discriminate].
  cbn [bind]. intros [= <-].
  destruct (IH rest3 ltac:(simpl in Hlen; lia) Hrest3 r E) as [Hw Hu].
  apply inRange_true in Ec1, Ec2, Ec3.
  unfold validScalar in Ev. apply andb_true_iff in Ev.
  destruct Ev as [Ev _]. apply inRange_true in Ev.
  unfold utf16Encode. destruct (Z.ltb_spec v 65536); [lia|].
  cbn [app wellFormed utf8Bytes].
  set (hi := 55296 + (v - 65536) / 1024).
  set (lo := 56320 + (v - 65536) mod 1024).
  assert (Hhi : 55296 <= hi <= 56319)
    by (unfold hi; Z.div_mod_to_equations; lia).
  assert (Hlo : 56320 <= lo <= 57343)
    by (unfold lo; Z.div_mod_to_equations; lia).
  replace (isLeadSurrogate hi) with true
    by (symmetry; apply inRange_true; lia).
  replace (isTrailSurrogate lo) with true
    by (symmetry; apply inRange_true; lia).
  rewrite Hw, Hu. split; [reflexivity|].
  replace ((hi - 55296) * 1024 + (lo - 56320) + 65536) with v
    by (unfold hi, lo; Z.div_mod_to_equations; lia).
  unfold utf8Encode.
  destruct (Z.ltb_spec v 128); [lia|].
  destruct (Z.ltb_spec v 2048); [lia|].
  destruct (Z.ltb_spec v 65536); [lia|].
  cbn [app]. f_equal; [|f_equal; [|f_equal; [|f_equal]]];
    unfold v; Z.div_mod_to_equations; lia.
Qed.

(** X21: the decoder accepts canonical text only.  Whenever
    [b64DecodeUnicode] returns a string, the string is well-formed, the
    octets that [atob] reads from the token are exactly the UTF-8 encoding
    of the string, and encoding the string gives the padded base64 text of
    those octets: no ill-formed UTF-8 (overlong forms, encoded surrogates,
    code points beyond the last one) gets through. *)
Theorem b64DecodeUnicode_exact t s :
  b64DecodeUnicode t = Ok s ->
  wellFormed s = true /\
  atob t = Ok (utf8Bytes s) /\
  b64EncodeUnicode s = Ok (btoaLoop (utf8Bytes s)).
Proof.
  unfold b64DecodeUnicode.
  destruct (atob t) as [bin|e] eqn:Ea; [|discriminate].
  cbn [bind]. unfold decodeURIComponent.
  pose proof (atob_bytes _ _ Ea) as Hb.
  rewrite unescapeTokens_bytes by exact Hb. cbn [bind]. intros Hd.
  destruct (utf8Decode_exact _ bin (le_n _) Hb s Hd) as [Hw Hu].
  split; [exact Hw|]. split; [now rewrite Hu|].
  destruct (encode_solid_bytes s Hw) as (e & He & Hsolid).
  unfold b64EncodeUnicode. rewrite He. cbn [bind]. rewrite Hsolid.
  apply btoa_bytes. now apply utf8Bytes_bytes.
Qed.
(** ** Laws of the engine *)

Section Laws.
Context {host : Host}.


(** *** Lemmas on the header transform *)

Lemma In_oget_some {V : Type} k (v : V) o :
  In (k, v) o -> oget k o <> None.
Proof.
  induction o as [|[k' v'] o IH]; simpl; [tauto|].
  intros [[= -> ->]|H].
  - now rewrite streq_refl.
  - destruct (streq k k'); [discriminate|auto].
Qed.

Lemma setHeadersLoop_plain toSet : forall entries hs,
  plainNames toSet -> incl entries toSet ->
  setHeadersLoop toSet entries hs = Ok (fold_left setHeader entries hs).
Proof.
  induction entries as [|[k v] entries IH]; intros hs Hp Hin; simpl; auto.
  unfold hasOwnProperty. rewrite Hp.
  destruct (oget k toSet) eqn:E.
  - cbn [bind]. apply IH; auto. intros e He. apply Hin. now right.
  - exfalso. apply (In_oget_some k v toSet); auto. apply Hin. now left.
Qed.

(** Without a property [hasOwnProperty] of its own, [toSet] has its entries
    applied one after the other. *)
Lemma setHeaders_plain hs toSet :
  plainNames toSet -> setHeaders hs toSet = Ok (fold_left setHeader toSet hs).
Proof.
  intros Hp. unfold setHeaders. apply setHeadersLoop_plain; auto.
  apply incl_refl.
Qed.

(** With one, the first test of the loop throws. *)
Lemma setHeaders_own hs toSet :
  oget (str "hasOwnProperty") toSet <> None ->
  setHeaders hs toSet = Throw TypeError.
Proof.
  intros Hown. unfold setHeaders. destruct toSet as [|[k v] toSet].
  - now elim Hown.
  - cbn [setHeadersLoop]. unfold hasOwnProperty.
    destruct (oget (str "hasOwnProperty") ((k, v) :: toSet));
      [reflexivity|now elim Hown].
Qed.

Lemma setHeaders_outcome hs toSet :
  setHeaders hs toSet =
    match oget (str "hasOwnProperty") toSet with
    | Some _ => Throw TypeError
    | None => Ok (fold_left setHeader toSet hs)
    end.
Proof.
  destruct (oget (str "hasOwnProperty") toSet) eqn:E.
  - apply setHeaders_own. congruence.
  - now apply setHeaders_plain.
Qed.

Lemma sameName_sym a b : sameName a b = sameName b a.
Proof. unfold sameName. apply streq_sym. Qed.

Lemma sameName_lower a b :
  sameName a b = true <-> toLowerCase a = toLowerCase b.
Proof. unfold sameName. apply streq_true. Qed.

Lemma name_overwriteOne k v h : name (overwriteOne k v h) = name h.
Proof. unfold overwriteOne. now destruct (sameName k (name h)). Qed.

Lemma overwriteAll_map k v hs :
  overwriteAll k v hs = (map (overwriteOne k v) hs, hasHeader hs k).
Proof.
  induction hs as [|h hs IH]; simpl; auto.
  rewrite IH. unfold overwriteOne.
  now destruct (sameName k (name h)).
Qed.

Lemma setHeader_map hs k v :
  setHeader hs (k, v) =
  map (overwriteOne k v) hs ++
  (if hasHeader hs k then [] else [{| name := k; value := Some v |}]).
Proof.
  unfold setHeader. rewrite overwriteAll_map.
  destruct (hasHeader hs k); auto using app_nil_r.
Qed.

Lemma hasHeader_app hs1 hs2 k :
  hasHeader (hs1 ++ hs2) k = hasHeader hs1 k || hasHeader hs2 k.
Proof. unfold hasHeader. apply existsb_app. Qed.

Lemma hasHeader_overwriteOne k v hs k' :
  hasHeader (map (overwriteOne k v) hs) k' = hasHeader hs k'.
Proof.
  induction hs as [|h hs IH]; simpl; auto.
  now rewrite name_overwriteOne, IH.
Qed.

Lemma assignedTo_None n toSet :
  ~ In (toLowerCase n) (map (fun kv => toLowerCase (fst kv)) toSet) ->
  assignedTo n toSet = None.
Proof.
  induction toSet as [|[k v] ts IH]; simpl; auto.
  intros H. destruct (sameName k n) eqn:E.
  - apply sameName_lower in E. exfalso. apply H. now left.
  - apply IH. tauto.
Qed.

Lemma overwritten_nil h : overwritten [] h = h.
Proof. reflexivity. Qed.

Lemma overwritten_cons k v ts h :
  ~ In (toLowerCase k) (map (fun kv => toLowerCase (fst kv)) ts) ->
  overwritten ts (overwriteOne k v h) = overwritten ((k, v) :: ts) h.
Proof.
  intros Hk. unfold overwritten, overwriteOne. simpl.
  destruct (sameName k (name h)) eqn:E; simpl; auto.
  rewrite assignedTo_None; auto.
  apply sameName_lower in E. now rewrite <- E.
Qed.

Lemma appended_after hs extra ts :
  (forall kv h, In kv ts -> In h extra -> sameName (fst kv) (name h) = false) ->
  appended (hs ++ extra) ts = appended hs ts.
Proof.
  intros H. unfold appended. f_equal. apply filter_ext_in.
  intros kv Hin. rewrite hasHeader_app.
  replace (hasHeader extra (fst kv)) with false; [now rewrite orb_false_r|].
  symmetry. unfold hasHeader. apply not_true_is_false. intros E.
  apply existsb_exists in E. destruct E as [h [Hh E]].
  rewrite (H kv h Hin Hh) in E. discriminate.
Qed.

Lemma appended_overwriteOne k v hs ts :
  appended (map (overwriteOne k v) hs) ts = appended hs ts.
Proof.
  unfold appended. f_equal. apply filter_ext. intros kv.
  now rewrite hasHeader_overwriteOne.
Qed.

Lemma setHeader_fold_closed toSet : forall hs,
  distinctNames toSet ->
  fold_left setHeader toSet hs =
    map (overwritten toSet) hs ++ appended hs toSet.
Proof.
  unfold distinctNames.
  induction toSet as [|[k v] ts IH]; intros hs Hnd; cbn [fold_left].
  - unfold appended. simpl. rewrite app_nil_r.
    rewrite (map_ext _ (fun h => h)) by apply overwritten_nil.
    now rewrite map_id.
  - simpl in Hnd. inversion Hnd as [|? ? Hk Hts]; subst.
    rewrite setHeader_map, IH by assumption.
    rewrite map_app, map_map.
    rewrite (map_ext _ (overwritten ((k, v) :: ts)))
      by (intros h; now apply overwritten_cons).
    rewrite <- app_assoc. f_equal.
    assert (Hfresh : forall kv h,
               In kv ts ->
               In h (if hasHeader hs k then []
                     else [{| name := k; value := Some v |}]) ->
               sameName (fst kv) (name h) = false).
    { intros kv h Hkv Hh. destruct (hasHeader hs k); [destruct Hh|].
      destruct Hh as [<-|[]]. simpl.
      apply not_true_is_false. intros E. apply sameName_lower in E.
      apply Hk. rewrite <- E.
      apply (in_map (fun kv => toLowerCase (fst kv))) in Hkv. exact Hkv. }
    rewrite appended_after by exact Hfresh.
    rewrite appended_overwriteOne.
    unfold appended at 2. simpl.
    destruct (hasHeader hs k) eqn:Ehas; simpl.
    + reflexivity.
    + f_equal. unfold overwritten. simpl.
      rewrite assignedTo_None; auto.
Qed.

Lemma hasHeader_setHeader hs k v k' :
  hasHeader hs k' = false -> sameName k k' = false ->
  hasHeader (setHeader hs (k, v)) k' = false.
Proof.
  intros Hh Hk. rewrite setHeader_map, hasHeader_app, hasHeader_overwriteOne, Hh.
  destruct (hasHeader hs k); simpl; auto.
  now rewrite sameName_sym, Hk.
Qed.

Lemma hasHeader_setHeader_fold toSet : forall hs k',
  hasHeader hs k' = false ->
  (forall k v, In (k, v) toSet -> sameName k k' = false) ->
  hasHeader (fold_left setHeader toSet hs) k' = false.
Proof.
  induction toSet as [|[k v] ts IH]; intros hs k' Hh Hk; simpl; auto.
  apply IH.
  - apply hasHeader_setHeader; auto. apply (Hk k v). now left.
  - intros k0 v0 Hin. apply (Hk k0 v0). now right.
Qed.

Lemma hasHeader_removeLoop lowered hs k :
  hasHeader hs k = false -> hasHeader (removeLoop lowered hs) k = false.
Proof.
  induction hs as [|h hs IH]; simpl; auto.
  intros H. apply orb_false_iff in H. destruct H as [H1 H2].
  destruct (includes lowered (toLowerCase (name h))); simpl; auto.
  now rewrite H1, IH.
Qed.

Lemma getHeader_absent hs k :
  hasHeader hs k = false -> getHeader hs k = Some None.
Proof.
  induction hs as [|h hs IH]; simpl; auto.
  intros H. apply orb_false_iff in H. destruct H as [H1 H2].
  unfold sameName in H1. rewrite streq_sym in H1. rewrite H1. auto.
Qed.

Lemma getHeader_app hs extra k :
  hasHeader extra k = false -> getHeader (hs ++ extra) k = getHeader hs k.
Proof.
  intros He. induction hs as [|h hs IH]; simpl.
  - now apply getHeader_absent.
  - now rewrite IH.
Qed.

Lemma getHeader_overwriteOne k0 v hs k :
  sameName k0 k = false ->
  getHeader (map (overwriteOne k0 v) hs) k = getHeader hs k.
Proof.
  intros Hk. induction hs as [|h hs IH]; simpl; auto.
  rewrite name_overwriteOne, IH.
  destruct (streq (toLowerCase (name h)) (toLowerCase k)) eqn:E; auto.
  unfold overwriteOne. destruct (sameName k0 (name h)) eqn:E0; auto.
  apply streq_true in E. apply sameName_lower in E0.
  apply not_true_iff_false in Hk. exfalso. apply Hk.
  apply sameName_lower. congruence.
Qed.

Lemma getHeader_setHeader_fold toSet : forall hs k,
  (forall k0 v, In (k0, v) toSet -> sameName k0 k = false) ->
  getHeader (fold_left setHeader toSet hs) k = getHeader hs k.
Proof.
  induction toSet as [|[k0 v] ts IH]; intros hs k Hk; cbn [fold_left]; auto.
  rewrite IH by (intros k1 v1 Hin; apply (Hk k1 v1); now right).
  assert (H0 : sameName k0 k = false) by (apply (Hk k0 v); now left).
  rewrite setHeader_map, getHeader_app.
  - now apply getHeader_overwriteOne.
  - destruct (hasHeader hs k0); auto. simpl.
    now rewrite sameName_sym, H0.
Qed.

Lemma getHeader_removeHeaders toRemove hs k :
  (forall n, In n toRemove -> sameName n k = false) ->
  getHeader (removeHeaders hs toRemove) k = getHeader hs k.
Proof.
  intros Hk. unfold removeHeaders.
  induction hs as [|h hs IH]; simpl; auto.
  destruct (includes (map toLowerCase toRemove) (toLowerCase (name h)))
    eqn:E; simpl; rewrite IH; auto.
  destruct (streq (toLowerCase (name h)) (toLowerCase k)) eqn:E1; auto.
  exfalso. unfold includes in E. apply existsb_exists in E.
  destruct E as (x & Hx & Ex). apply in_map_iff in Hx.
  destruct Hx as (n & <- & Hn). apply streq_true in Ex, E1.
  specialize (Hk n Hn). apply not_true_iff_false in Hk. apply Hk.
  apply sameName_lower. congruence.
Qed.


(** ** Resolution *)

Lemma makeRegex_compiles r :
  compiles r ->
  exists regex,
    newRegExp (re_source r) (re_flags r) = Some regex /\
    makeRegex r = Ok regex.
Proof.
  unfold compiles, makeRegex. intros H.
  destruct (newRegExp (re_source r) (re_flags r)) as [regex|];
    [eauto|now elim H].
Qed.

Lemma makeRegex_throws r : ~ compiles r -> makeRegex r = Throw SyntaxError.
Proof.
  unfold compiles, makeRegex. intros H.
  destruct (newRegExp (re_source r) (re_flags r)) as [regex|]; auto.
  elim H. discriminate.
Qed.

Lemma compiles_dec r : compiles r \/ ~ compiles r.
Proof.
  unfold compiles. destruct (newRegExp (re_source r) (re_flags r)).
  - left. discriminate.
  - right. intros H. now apply H.
Qed.

(** What [some] over the regexes comes to: the test of the list when it
    returns, and a SyntaxError of a regular expression that cannot be made
    when it throws. *)
Lemma someRegex_outcome url rs :
  match someRegex url rs with
  | Ok b => b = existsb (regexMatches url) rs
  | Throw x => x = SyntaxError /\ exists r, In r rs /\ ~ compiles r
  end.
Proof.
  induction rs as [|r rs IH]; simpl; auto.
  unfold makeRegex, regexMatches at 1, compiles.
  destruct (newRegExp (re_source r) (re_flags r)) as [regex|] eqn:E;
    cbn [bind].
  - destruct (stringMatch url regex); simpl; auto.
    destruct (someRegex url rs) as [b|x]; auto.
    destruct IH as (-> & r' & Hin & Hr'). split; auto.
    exists r'. split; auto.
  - split; [reflexivity|]. exists r. split; [now left|]. rewrite E. tauto.
Qed.

Lemma someRegex_compiles url rs :
  Forall compiles rs -> someRegex url rs = Ok (existsb (regexMatches url) rs).
Proof.
  intros Hc. pose proof (someRegex_outcome url rs) as H.
  destruct (someRegex url rs) as [b|x]; [now subst|].
  destruct H as (_ & r & Hin & Hr). rewrite Forall_forall in Hc.
  elim Hr. auto.
Qed.

(** The regexes are made in turn: one that cannot be made throws when none
    before it matches, and is not come to when one does. *)
Lemma someRegex_sequential url pre r post :
  Forall compiles pre ->
  someRegex url (pre ++ r :: post) =
    if existsb (regexMatches url) pre then Ok true
    else (made <- makeRegex r ;;
          if stringMatch url made then Ok true else someRegex url post).
Proof.
  induction 1 as [|p pre Hp Hpre IH]; simpl; auto.
  destruct (makeRegex_compiles p Hp) as (regex & Hnew & Hmake).
  rewrite Hmake. cbn [bind]. unfold regexMatches at 1. rewrite Hnew.
  destruct (stringMatch url regex); simpl; auto.
Qed.

Lemma entryMatched_outcome url e :
  match entryMatched url e with
  | Ok b => b = matchesUrl url e
  | Throw x =>
      ~ testable e /\
      match regexes e with
      | Some (Some rs) => x = SyntaxError
      | _ => x = TypeError
      end
  end.
Proof.
  unfold entryMatched, matchesUrl, testable.
  destruct (regexes e) as [[rs|]|].
  - pose proof (someRegex_outcome url rs) as H.
    destruct (someRegex url rs) as [b|x]; auto.
    destruct H as (-> & r & Hin & Hr). split; auto.
    intros Hc. rewrite Forall_forall in Hc. elim Hr. auto.
  - destruct (urls e) as [[us|]|]; auto; split; auto;
      intros (us & Hus); discriminate.
  - destruct (urls e) as [[us|]|]; auto; split; auto;
      intros (us & Hus); discriminate.
Qed.

Lemma entryMatched_testable url e :
  testable e -> entryMatched url e = Ok (matchesUrl url e).
Proof.
  intros Ht. pose proof (entryMatched_outcome url e) as H.
  destruct (entryMatched url e) as [b|x]; [now subst|].
  destruct H as (H & _). now elim H.
Qed.

Lemma scanLoop_outcome url l :
  match scanLoop url l with
  | Ok r =>
      r = match find (matchesUrl url) l with
          | Some e => Some (tamper e)
          | None => None
          end
  | Throw x =>
      (x = SyntaxError \/ x = TypeError) /\
      exists e, In e l /\ ~ testable e
  end.
Proof.
  induction l as [|e l IH]; simpl; auto.
  pose proof (entryMatched_outcome url e) as H.
  destruct (entryMatched url e) as [b|x]; cbn [bind].
  - subst b. destruct (matchesUrl url e); auto.
    destruct (scanLoop url l) as [r|x]; auto.
    destruct IH as (Hx & e' & Hin & He'). split; auto.
    exists e'. auto.
  - destruct H as (Ht & Hx). split.
    + destruct (regexes e) as [[rs|]|]; auto.
    + exists e. auto.
Qed.

Lemma scanLoop_find url l :
  Forall testable l ->
  scanLoop url l =
    Ok (match find (matchesUrl url) l with
        | Some e => Some (tamper e)
        | None => None
        end).
Proof.
  intros Ht. pose proof (scanLoop_outcome url l) as H.
  destruct (scanLoop url l) as [r|x]; [now subst|].
  destruct H as (_ & e & Hin & He). rewrite Forall_forall in Ht.
  elim He. auto.
Qed.

(** The scan stops at the first entry that applies, and throws what the
    test of an entry throws when no entry before it applies. *)
Lemma scanLoop_sequential url pre e post :
  Forall testable pre -> existsb (matchesUrl url) pre = false ->
  scanLoop url (pre ++ e :: post) =
    (matched <- entryMatched url e ;;
     if (matched : bool) then Ok (Some (tamper e)) else scanLoop url post).
Proof.
  induction 1 as [|p pre Hp Hpre IH]; simpl; auto.
  intros H. apply orb_false_iff in H. destruct H as (Hm & Hrest).
  rewrite (entryMatched_testable _ _ Hp), Hm. cbn [bind]. auto.
Qed.

Lemma found_tamper (P : PatternParams -> Prop) url l e :
  Forall P l -> find (matchesUrl url) l = Some e -> P e.
Proof.
  intros Hl F. apply find_some in F. destruct F as [Hin _].
  rewrite Forall_forall in Hl. auto.
Qed.

Lemma scanPatternMods_outcome st url :
  Forall patternKept (_patternMods st) ->
  match _scanPatternMods st url with
  | Ok r =>
      r = match find (matchesUrl url) (_patternMods st) with
          | Some e => object (tamper e)
          | None => None
          end
  | Throw x =>
      (x = SyntaxError \/ x = TypeError) /\
      exists e, In e (_patternMods st) /\ ~ testable e
  end.
Proof.
  intros Hp. unfold _scanPatternMods.
  pose proof (scanLoop_outcome url (_patternMods st)) as H.
  destruct (scanLoop url (_patternMods st)) as [r|x]; cbn [bind]; auto.
  subst r.
  destruct (find (matchesUrl url) (_patternMods st)) as [e|] eqn:F; auto.
  destruct (found_tamper _ _ _ _ Hp F) as (_ & t & -> & _). reflexivity.
Qed.

Lemma scanPatternMods_find st url :
  Forall patternKept (_patternMods st) ->
  Forall testable (_patternMods st) ->
  _scanPatternMods st url =
    Ok (match find (matchesUrl url) (_patternMods st) with
        | Some e => object (tamper e)
        | None => None
        end).
Proof.
  intros Hp Ht. pose proof (scanPatternMods_outcome st url Hp) as H.
  destruct (_scanPatternMods st url) as [r|x]; [now subst|].
  destruct H as (_ & e & Hin & He). rewrite Forall_forall in Ht.
  elim He. auto.
Qed.

Lemma get_direct st tabId frameId url s :
  oget (makeKey tabId frameId url) (_data st) = Some s ->
  get st tabId frameId url = Ok (Some s).
Proof. intros H. unfold get, getDirect, deepClone. now rewrite H. Qed.

Lemma get_outcome st tabId frameId url :
  storeKept st ->
  match get st tabId frameId url with
  | Ok r => r = resolve matchesUrl st tabId frameId url
  | Throw x =>
      (x = SyntaxError \/ x = TypeError) /\
      oget (makeKey tabId frameId url) (_data st) = None /\
      exists e, In e (_patternMods st) /\ ~ testable e
  end.
Proof.
  intros [_ _ Hp]. unfold get, resolve, getDirect, deepClone.
  destruct (oget (makeKey tabId frameId url) (_data st)); auto.
  pose proof (scanPatternMods_outcome st url Hp) as H.
  destruct (_scanPatternMods st url) as [r|x]; auto.
  destruct H as (Hx & He). auto.
Qed.

Lemma get_resolve st tabId frameId url :
  storeKept st -> Forall testable (_patternMods st) ->
  get st tabId frameId url = Ok (resolve matchesUrl st tabId frameId url).
Proof.
  intros Hk Ht. pose proof (get_outcome st tabId frameId url Hk) as H.
  destruct (get st tabId frameId url) as [r|x]; [now subst|].
  destruct H as (_ & _ & e & Hin & He). rewrite Forall_forall in Ht.
  elim He. auto.
Qed.

Lemma resolve_settled st tabId frameId url s :
  storeKept st -> resolve matchesUrl st tabId frameId url = Some s ->
  settledSpec s.
Proof.
  intros Hok. pose proof Hok as [Hd _ Hp]. unfold resolve.
  destruct (oget (makeKey tabId frameId url) (_data st)) as [s'|] eqn:E.
  - intros [= <-]. apply oget_In in E.
    now destruct (storeKept_entry _ _ _ Hok E).
  - destruct (find (matchesUrl url) (_patternMods st)) as [e|] eqn:F;
      [|discriminate].
    destruct (found_tamper _ _ _ _ Hp F) as (_ & t & Ht & Hn).
    rewrite Ht. now intros [= <-].
Qed.

Lemma resolve_normalized st tabId frameId url s :
  storeOk st -> resolve matchesUrl st tabId frameId url = Some s ->
  normalized s.
Proof.
  intros Hok. pose proof Hok as [Hd _ Hp]. unfold resolve.
  destruct (oget (makeKey tabId frameId url) (_data st)) as [s'|] eqn:E.
  - intros [= <-]. apply oget_In in E.
    now destruct (storeOk_entry _ _ _ Hok E).
  - destruct (find (matchesUrl url) (_patternMods st)) as [e|] eqn:F;
      [|discriminate].
    destruct (found_tamper _ _ _ _ Hp F) as (_ & t & Ht & Hn).
    rewrite Ht. now intros [= <-].
Qed.

(** ** The response listener *)

Lemma checkIfRedirect_terminal status hs :
  isRedirectStatus status = false ->
  checkIfRedirect status hs = Ok (Some None).
Proof. unfold checkIfRedirect, isRedirectStatus. now intros ->. Qed.

Lemma checkIfRedirect_redirect status hs :
  isRedirectStatus status = true ->
  checkIfRedirect status hs =
    match getHeader hs (str "Location") with
    | Some None => Throw (Error noLocation)
    | redirectTarget => Ok redirectTarget
    end.
Proof. unfold checkIfRedirect, isRedirectStatus. now intros ->. Qed.

(** The response-phase changes with the loop of [setHeaders] written as a
    fold. *)
Lemma tamperResponse_outcome spec hs :
  tamperResponse spec hs =
    match response spec with
    | Some (Some resp) =>
        match r_headers resp with
        | Some (Some toSet) =>
            match oget (str "hasOwnProperty") toSet with
            | Some _ => Throw TypeError
            | None =>
                let hs' := fold_left setHeader toSet hs in
                let hs' := match r_remove resp with
                           | Some (Some toRemove) => removeHeaders hs' toRemove
                           | _ => hs'
                           end in
                Ok (Some hs', hs')
            end
        | _ =>
            let hs' := match r_remove resp with
                       | Some (Some toRemove) => removeHeaders hs toRemove
                       | _ => hs
                       end in
            Ok (Some hs', hs')
        end
    | _ => Ok (None, hs)
    end.
Proof.
  unfold tamperResponse.
  destruct (response spec) as [[resp|]|]; auto.
  destruct (r_headers resp) as [[toSet|]|]; auto.
  rewrite setHeaders_outcome.
  now destruct (oget (str "hasOwnProperty") toSet).
Qed.

Lemma tamperResponse_callable spec hs :
  responseCallable spec -> exists out, tamperResponse spec hs = Ok out.
Proof.
  intros Hc. rewrite tamperResponse_outcome.
  destruct (response spec) as [[resp|]|] eqn:E; eauto.
  destruct (r_headers resp) as [[toSet|]|] eqn:E'; eauto.
  rewrite (Hc resp toSet E E'). eauto.
Qed.

Lemma tamperResponse_own spec hs resp toSet :
  response spec = Some (Some resp) ->
  r_headers resp = Some (Some toSet) ->
  ~ plainNames toSet ->
  tamperResponse spec hs = Throw TypeError.
Proof.
  intros E E' Hown. rewrite tamperResponse_outcome, E, E'.
  unfold plainNames in Hown.
  destruct (oget (str "hasOwnProperty") toSet); [reflexivity|now elim Hown].
Qed.

Lemma tamperResponse_throws spec hs e :
  tamperResponse spec hs = Throw e ->
  e = TypeError /\
  exists resp toSet,
    response spec = Some (Some resp) /\
    r_headers resp = Some (Some toSet) /\ ~ plainNames toSet.
Proof.
  rewrite tamperResponse_outcome.
  destruct (response spec) as [[resp|]|]; try discriminate.
  destruct (r_headers resp) as [[toSet|]|] eqn:E'; try discriminate.
  destruct (oget (str "hasOwnProperty") toSet) eqn:E; [|discriminate].
  intros [= <-]. split; auto. exists resp, toSet.
  repeat split; auto. unfold plainNames. congruence.
Qed.

Lemma locationSeen_absent spec hs :
  hasHeader hs (str "Location") = false -> setsNoLocation spec ->
  responseCallable spec ->
  locationSeen spec hs = Ok (Some None).
Proof.
  intros Hh Hs Hc. unfold locationSeen. rewrite tamperResponse_outcome.
  unfold setsNoLocation, responseCallable in *.
  assert (Hrem : forall l (r : option (option (list jsstring))),
             hasHeader l (str "Location") = false ->
             getHeader match r with
                       | Some (Some toRemove) => removeHeaders l toRemove
                       | _ => l
                       end (str "Location") = Some None).
  { intros l r Hl. apply getHeader_absent. destruct r as [[toRemove|]|]; auto.
    unfold removeHeaders. now apply hasHeader_removeLoop. }
  destruct (response spec) as [[resp|]|]; cbn [bind snd];
    try (f_equal; now apply getHeader_absent).
  destruct (r_headers resp) as [[toSet|]|] eqn:E; cbn [bind snd];
    try (f_equal; now apply Hrem).
  rewrite (Hc resp toSet eq_refl E). cbn [bind snd]. f_equal. apply Hrem.
  apply hasHeader_setHeader_fold; auto.
  intros k v Hin. eapply Hs; eauto.
Qed.

Lemma locationSeen_untouched spec hs v :
  setsNoLocation spec -> removesNoLocation spec ->
  locationSeen spec hs = Ok v -> v = getHeader hs (str "Location").
Proof.
  intros Hs Hr. unfold locationSeen. rewrite tamperResponse_outcome.
  unfold setsNoLocation, removesNoLocation in *.
  assert (Hrem : forall l resp,
             response spec = Some (Some resp) ->
             getHeader match r_remove resp with
                       | Some (Some toRemove) => removeHeaders l toRemove
                       | _ => l
                       end (str "Location") = getHeader l (str "Location")).
  { intros l resp E. destruct (r_remove resp) as [[toRemove|]|] eqn:E'; auto.
    apply getHeader_removeHeaders. intros n Hn. eapply Hr; eauto. }
  destruct (response spec) as [[resp|]|] eqn:Eresp; cbn [bind snd];
    try (now intros [= <-]).
  destruct (r_headers resp) as [[toSet|]|] eqn:E; cbn [bind snd];
    try (intros [= <-]; now apply Hrem).
  destruct (oget (str "hasOwnProperty") toSet); [discriminate|].
  cbn [bind snd]. intros [= <-]. rewrite Hrem by reflexivity.
  apply getHeader_setHeader_fold. intros k w Hin. eapply Hs; eauto.
Qed.

(** The listeners change the store through its methods only. *)
Lemma onBeforeRequest_reachable st d :
  reachable st -> reachable (fst (onBeforeRequest st d)).
Proof.
  intros Hr. unfold onBeforeRequest.
  destruct (matchTag (details.url d)) as [[origUrl token]|]; auto.
  destruct (decodeReqModifyOpts token) as [[spec|]|e]; auto.
  match goal with |- context [set ?a ?b ?c ?u ?v] =>
    destruct (set a b c u v) as [st'|e] eqn:E end; auto.
  simpl. eapply reach_set; eauto.
Qed.

Lemma onBeforeSendHeaders_reachable st d :
  reachable st -> reachable (fst (onBeforeSendHeaders st d)).
Proof.
  intros Hr. unfold onBeforeSendHeaders.
  destruct (get st (details.tabId d) (details.frameId d) (details.url d))
    as [[spec|]|e]; auto.
  destruct (tamperRequest spec (details.requestHeaders d)) as [hs|e]; auto.
  match goal with |- context [set ?a ?b ?c ?u ?v] =>
    destruct (set a b c u v) as [st'|e] eqn:E end; auto.
  simpl. eapply reach_set; eauto.
Qed.

Lemma onHeadersReceived_reachable st d :
  reachable st -> reachable (fst (onHeadersReceived st d)).
Proof.
  intros Hr. unfold onHeadersReceived.
  destruct (getByRequestId st (details.requestId d)) as [spec|]; auto.
  destruct (tamperResponse spec (details.responseHeaders d))
    as [[out held]|e]; auto.
  assert (Hset : forall target,
             reachable
               (fst match set (removeDirect st (propertyKey (key spec)))
                              (details.tabId d) (details.frameId d)
                              (asText target) (Some (Some spec)) with
                    | Ok st2 => (st2, Ok out)
                    | Throw e =>
                        (removeDirect st (propertyKey (key spec)), Throw e)
                    end)).
  { intros target.
    match goal with |- context [set ?a ?b ?c ?u ?v] =>
      destruct (set a b c u v) as [st'|e] eqn:E end; simpl.
    - eapply reach_set; [| |exact E]; [|exact I].
      now apply reach_removeDirect.
    - now apply reach_removeDirect. }
  destruct (checkIfRedirect (details.statusCode d) held)
    as [[[target|]|]|e].
  - apply (Hset (Some (Some target))).
  - destruct (onceSet spec) as [[|]|e]; auto.
    simpl. now apply reach_removeDirect.
  - apply (Hset None).
  - exact Hr.
Qed.

(** ** The claims on the engine *)

(** C6, as amended: when no two names of [toSet] are equal up to case and
    [toSet] has no entry named [hasOwnProperty], [setHeaders hs toSet]
    returns [hs] in its order, each header keeping its name as it is spelt
    and taking the value [toSet] gives to its name compared without case
    (every occurrence of it), followed by one new header, in the spelling
    of [toSet] and in the order of [toSet], for each entry of [toSet] whose
    name no header of [hs] bears.  In particular the header X-Foo with
    value a and the entry x-foo with value b give the single header X-Foo
    with value b.  With an entry named [hasOwnProperty], [setHeaders]
    throws a TypeError. *)
Theorem setHeaders_spec hs toSet :
  distinctNames toSet ->
  (plainNames toSet ->
   setHeaders hs toSet =
     Ok (map (overwritten toSet) hs ++ appended hs toSet)) /\
  (~ plainNames toSet -> setHeaders hs toSet = Throw TypeError) /\
  (toLowerCase (str "x-foo") = toLowerCase (str "X-Foo") ->
   setHeaders [{| name := str "X-Foo"; value := Some (Some (str "a")) |}]
              [(str "x-foo", Some (str "b"))] =
   Ok [{| name := str "X-Foo"; value := Some (Some (str "b")) |}]).
Proof.
  intros Hd. split; [|split].
  - intros Hp. rewrite setHeaders_plain by assumption.
    now rewrite setHeader_fold_closed.
  - intros Hown. now apply setHeaders_own.
  - intros Hlow. rewrite setHeaders_plain by reflexivity.
    rewrite setHeader_fold_closed.
    + unfold overwritten, appended, hasHeader. cbn [map filter assignedTo
        existsb name fst snd].
      apply sameName_lower in Hlow. now rewrite Hlow.
    + unfold distinctNames. simpl. constructor; [intros []|constructor].
Qed.

(** C10, as amended: in every state the store reaches from the empty store
    through [addPattern], [set], [setDirect] and [removeDirect], each given
    a spec or an association of the typedef (parts may be missing, none is
    [null]), every spec of the direct map is normalised ([headers],
    [remove], [response.headers], [response.remove] and [opts] present, no
    header mapped to [null]) and carries in [key] the key it is stored
    under, and the [tamper] of every pattern entry is normalised; hence
    whatever [get] and [getByRequestId] return is [null] or a normalised
    spec, and [get] does return when the regular expressions of the
    pattern entries can be made. *)
Theorem store_invariant st :
  reachablePlain st ->
  storeOk st /\
  (forall tabId frameId url r,
      get st tabId frameId url = Ok r ->
      forall s, r = Some s -> normalized s) /\
  (Forall testable (_patternMods st) ->
   forall tabId frameId url, exists r, get st tabId frameId url = Ok r) /\
  (forall id s, getByRequestId st id = Some s -> normalized s).
Proof.
  intros Hreach. pose proof (reachablePlain_storeOk _ Hreach) as Hok.
  pose proof (storeOk_storeKept _ Hok) as Hkept.
  split; [exact Hok|]. split; [|split].
  - intros tabId frameId url r Hget s ->.
    pose proof (get_outcome st tabId frameId url Hkept) as H.
    rewrite Hget in H. eapply resolve_normalized; eauto.
  - intros Ht tabId frameId url. eexists. now apply get_resolve.
  - intros id s Hs.
    destruct (getByRequestId_stored _ _ _ Hok Hs) as (k & _ & _ & Hn & _).
    exact Hn.
Qed.

(** C1, as amended: in every state of the store, [get] returns the spec
    the direct map holds under the composite key when there is one, without
    looking at the patterns; otherwise the scan of the pattern entries, most
    recently added first, returns the [tamper] of the first entry that
    applies to the URL -- through one of its regexes when the entry has
    regexes, through its urls only when it has none -- and [null], without
    an error, when none applies, provided the scan can test the entries:
    whatever [get] returns is that resolution, and what it throws is the
    SyntaxError of a regular expression that cannot be made or the
    TypeError of an entry without list to test.  A pattern registered
    later that can be tested and applies to the URL wins over all
    registered before it. *)
Theorem get_resolution st tabId frameId url :
  reachable st ->
  (forall s, oget (makeKey tabId frameId url) (_data st) = Some s ->
             get st tabId frameId url = Ok (Some s)) /\
  (Forall testable (_patternMods st) ->
   get st tabId frameId url = Ok (resolve matchesUrl st tabId frameId url)) /\
  (forall r, get st tabId frameId url = Ok r ->
             r = resolve matchesUrl st tabId frameId url) /\
  (forall x, get st tabId frameId url = Throw x ->
             (x = SyntaxError \/ x = TypeError) /\
             oget (makeKey tabId frameId url) (_data st) = None /\
             exists e, In e (_patternMods st) /\ ~ testable e) /\
  (forall params st',
      addPattern st params = Ok st' ->
      testable params ->
      matchesUrl url params = true ->
      oget (makeKey tabId frameId url) (_data st) = None ->
      exists n,
        _normalizeTamperSpec (tamper params) = Ok n /\
        get st' tabId frameId url = Ok (Some n)).
Proof.
  intros Hreach. pose proof (reachable_storeKept _ Hreach) as Hok.
  pose proof (get_outcome st tabId frameId url Hok) as Hout.
  split; [apply get_direct|]. split; [now apply get_resolve|].
  split; [|split].
  - intros r Hr. now rewrite Hr in Hout.
  - intros x Hx. now rewrite Hx in Hout.
  - intros params st' Hadd Ht Hm Hnone.
    apply addPattern_Ok in Hadd.
    destruct Hadd as (_ & t & n & Htamper & Hn & ->).
    exists n. rewrite Htamper. split; [exact Hn|].
    unfold get, getDirect. cbn [_data]. rewrite Hnone.
    unfold _scanPatternMods. cbn [_patternMods scanLoop].
    replace (entryMatched url {| regexes := regexes params;
                                 urls := urls params;
                                 tamper := Some (Some n) |})
      with (entryMatched url params) by reflexivity.
    rewrite (entryMatched_testable _ _ Ht), Hm. reflexivity.
Qed.

Lemma setDirect_throws st k v e :
  setDirect st k (Some (Some v)) = Throw e -> e = TypeError.
Proof.
  unfold setDirect, deepCloneOrMissing, deepClone. cbn [bind].
  destruct (_normalizeTamperSpec (Some (Some v))) as [n|x] eqn:E;
    [discriminate|].
  cbn [bind]. intros [= <-]. eapply normalize_TypeError; eauto.
Qed.

(** C9, as amended: when the lookup by request identifier finds a spec, the
    status is 301 or 302 and [getHeader] finds no [Location] header once
    the response-phase header changes of the spec have been made -- in
    particular when the received headers have none and the spec sets none
    and sets no header named [hasOwnProperty] -- the listener throws the
    error of [checkIfRedirect], returns no response headers and leaves the
    store as it was.  When making the changes throws, the listener throws
    that TypeError and leaves the store as it was; when a [Location]
    header is found, with or without a [value], the listener does not
    throw the error of [checkIfRedirect]. *)
Theorem redirect_without_location st d spec :
  getByRequestId st (details.requestId d) = Some spec ->
  isRedirectStatus (details.statusCode d) = true ->
  (hasHeader (details.responseHeaders d) (str "Location") = false ->
   setsNoLocation spec -> responseCallable spec ->
   locationSeen spec (details.responseHeaders d) = Ok (Some None)) /\
  (locationSeen spec (details.responseHeaders d) = Ok (Some None) ->
   onHeadersReceived st d = (st, Throw (Error noLocation))) /\
  (forall e, locationSeen spec (details.responseHeaders d) = Throw e ->
             e = TypeError /\
             onHeadersReceived st d = (st, Throw TypeError)) /\
  (forall target,
      locationSeen spec (details.responseHeaders d) = Ok target ->
      target <> Some None ->
      snd (onHeadersReceived st d) <> Throw (Error noLocation)).
Proof.
  intros Hget Hstatus. split; [apply locationSeen_absent|].
  unfold onHeadersReceived, locationSeen. rewrite Hget.
  destruct (tamperResponse spec (details.responseHeaders d))
    as [[out held]|x] eqn:Eout; cbn [bind snd].
  - rewrite checkIfRedirect_redirect by assumption.
    split; [|split].
    + intros [= ->]. reflexivity.
    + discriminate.
    + intros target [= <-] Htarget.
      assert (Hset : forall t,
                 snd match set (removeDirect st (propertyKey (key spec)))
                               (details.tabId d) (details.frameId d)
                               (asText t) (Some (Some spec)) with
                     | Ok st2 => (st2, Ok out)
                     | Throw e =>
                         (removeDirect st (propertyKey (key spec)), Throw e)
                     end <> Throw (Error noLocation)).
      { intros t. unfold set.
        match goal with |- context [setDirect ?a ?b ?c] =>
          destruct (setDirect a b c) as [st2|e] eqn:E end; simpl;
          [discriminate|].
        apply setDirect_throws in E. subst e. discriminate. }
      destruct (getHeader held (str "Location")) as [[target|]|];
        [apply (Hset (Some (Some target)))|now elim Htarget|apply (Hset None)].
  - split; [discriminate|]. split; [|discriminate].
    intros e [= <-]. apply tamperResponse_throws in Eout.
    destruct Eout as (-> & _). auto.
Qed.

(** C5, as amended: for a spec stored in the direct map that is the only
    stored spec carrying the request identifier and whose response-phase
    header changes can be made (it sets no response header named
    [hasOwnProperty]), a response with a status other than 301 and 302
    makes the listener, when [opts.once] is set, return the changed headers
    and delete the spec, after which its key is free and the lookup by the
    request identifier finds nothing; when [opts.once] is not set the store
    stays as it was and the lookup by the request identifier still returns
    the spec, the listener returning the changed headers when [opts] is an
    object.  When making the header changes throws, the listener throws
    that TypeError and the store stays as it was. *)
Theorem terminal_response st d k spec :
  reachable st ->
  In (k, spec) (_data st) ->
  hasRequestId (details.requestId d) spec = true ->
  onlyBearer st (details.requestId d) k ->
  isRedirectStatus (details.statusCode d) = false ->
  (responseCallable spec ->
   exists out, tamperResponse spec (details.responseHeaders d) = Ok out) /\
  (forall out,
      tamperResponse spec (details.responseHeaders d) = Ok out ->
      if isOnce spec then
        onHeadersReceived st d = (removeDirect st k, Ok (fst out)) /\
        getDirect (removeDirect st k) k = None /\
        getByRequestId (removeDirect st k) (details.requestId d) = None
      else
        fst (onHeadersReceived st d) = st /\
        getByRequestId st (details.requestId d) = Some spec /\
        (forall o, opts spec = Some (Some o) ->
                   onHeadersReceived st d = (st, Ok (fst out)))) /\
  (forall e,
      tamperResponse spec (details.responseHeaders d) = Throw e ->
      e = TypeError /\ onHeadersReceived st d = (st, Throw TypeError)).
Proof.
  intros Hreach Hin Hid Honly Hstatus.
  pose proof (reachable_storeKept _ Hreach) as Hok.
  destruct (storeKept_entry _ _ _ Hok Hin) as [Hnorm Hkey].
  assert (Hget : getByRequestId st (details.requestId d) = Some spec).
  { unfold getByRequestId.
    eapply getByRequestIdLoop_only; eauto. apply Hok. }
  split; [apply tamperResponse_callable|]. split.
  - intros [out held] Hout.
    assert (Hrun : onHeadersReceived st d =
                   match onceSet spec with
                   | Throw e => (st, Throw e)
                   | Ok true => (removeDirect st k, Ok out)
                   | Ok false => (st, Ok out)
                   end).
    { unfold onHeadersReceived. rewrite Hget, Hout.
      rewrite checkIfRedirect_terminal by assumption.
      now rewrite Hkey. }
    rewrite Hrun. cbn [fst]. unfold onceSet, isOnce.
    destruct (opts spec) as [[o|]|]; try (repeat split; auto; discriminate).
    destruct (once o) as [[[|]|]|];
      try (repeat split; auto; discriminate).
    split; [reflexivity|]. split.
    + unfold getDirect, removeDirect. simpl.
      now rewrite oget_odelete_same.
    + unfold getByRequestId, removeDirect. simpl.
      apply getByRequestIdLoop_None. intros k' s' Hin'.
      apply In_odelete in Hin'. destruct Hin' as [Hin' Hne]. simpl in Hne.
      destruct (hasRequestId (details.requestId d) s') eqn:E; auto.
      exfalso. apply Hne. eapply Honly; eauto.
  - intros e Hthrow. pose proof Hthrow as Hthrow'.
    apply tamperResponse_throws in Hthrow'. destruct Hthrow' as (-> & _).
    split; auto. unfold onHeadersReceived. now rewrite Hget, Hthrow.
Qed.

(** C2, as amended: let a spec be stored under the composite key of
    (tabId, frameId, urlA) and be the one the lookup by the request
    identifier finds.  When the response listener fires for that request in
    that tab and frame with status 301 or 302, and the [Location] header
    found once the response-phase header changes of the spec are made (the
    received one when the spec neither sets nor removes such a header)
    names urlB, different from urlA, then the listener returns the changed
    headers, the direct map has no entry under (tabId, frameId, urlA) any
    more, so that [get] for urlA is decided by the pattern list alone, and
    [get] for urlB returns the spec with its [key] stamped anew. *)
Theorem redirect_rekeys st d spec urlA urlB :
  reachable st ->
  oget (makeKey (details.tabId d) (details.frameId d) urlA) (_data st) =
    Some spec ->
  getByRequestId st (details.requestId d) = Some spec ->
  isRedirectStatus (details.statusCode d) = true ->
  locationSeen spec (details.responseHeaders d) = Ok (Some (Some urlB)) ->
  urlA <> urlB ->
  let keyB := makeKey (details.tabId d) (details.frameId d) urlB in
  (setsNoLocation spec -> removesNoLocation spec ->
   getHeader (details.responseHeaders d) (str "Location") =
     Some (Some urlB)) /\
  exists st' out,
    tamperResponse spec (details.responseHeaders d) = Ok out /\
    onHeadersReceived st d = (st', Ok (fst out)) /\
    getDirect st' (makeKey (details.tabId d) (details.frameId d) urlA) =
      None /\
    get st' (details.tabId d) (details.frameId d) urlA =
      _scanPatternMods st urlA /\
    get st' (details.tabId d) (details.frameId d) urlB =
      Ok (Some (with_key spec (Some keyB))).
Proof.
  intros Hreach Hstored Hget Hstatus Hloc Hne keyB.
  set (keyA := makeKey (details.tabId d) (details.frameId d) urlA) in *.
  pose proof (reachable_storeKept _ Hreach) as Hok.
  destruct (storeKept_entry _ _ _ Hok (oget_In _ _ _ Hstored))
    as [Hnorm Hkey].
  assert (Hkeys : keyA <> keyB).
  { intros E. apply makeKey_inj in E. contradiction. }
  split.
  { intros Hs Hr. symmetry. eapply locationSeen_untouched; eauto. }
  unfold locationSeen in Hloc.
  destruct (tamperResponse spec (details.responseHeaders d))
    as [[out held]|x] eqn:Eout; [|discriminate].
  cbn [bind snd] in Hloc. injection Hloc as Hloc.
  eexists. exists (out, held). split; [reflexivity|].
  split; [|split; [|split]].
  - unfold onHeadersReceived. rewrite Hget, Eout.
    rewrite checkIfRedirect_redirect by assumption.
    rewrite Hloc, Hkey. cbn [propertyKey asText].
    unfold set. rewrite setDirect_settled by assumption.
    reflexivity.
  - unfold getDirect. simpl. fold keyA keyB.
    rewrite oget_oset_other by assumption.
    now rewrite oget_odelete_same.
  - unfold get, getDirect. simpl. fold keyA keyB.
    rewrite oget_oset_other by assumption.
    now rewrite oget_odelete_same.
  - unfold get, getDirect, deepClone. simpl. fold keyB.
    now rewrite oget_oset_same.
Qed.

(** C4: for every spec that survives its JSON text (every
    JSON-representable spec, whatever code points its text holds), the
    encoding returns a token and decoding the token returns the spec:
    [decodeReqModifyOpts] inverts [b64EncodeUnicode] after
    [JSON.stringify]. *)
Theorem decode_inverts_encode s :
  JSON_representable s ->
  exists token,
    b64EncodeUnicode (JSON_stringify s) = Ok token /\
    decodeReqModifyOpts token = Ok (Some s).
Proof.
  intros [Hwf Hparse].
  destruct (b64_roundtrip _ Hwf) as (token & Henc & Hdec & _).
  exists token. split; [exact Henc|].
  unfold decodeReqModifyOpts. rewrite Hdec. exact Hparse.
Qed.

(** C3, as amended: the token of a JSON-representable spec is made of the
    base64 alphabet (letters, digits, plus and slash) and the padding
    character.  When it holds no slash and the URL u holds no line
    terminator, the tagged URL that [makeUrl] builds is recognised by the
    request listener, which recovers u and the spec, stores what the
    normaliser returns on the spec with [requestId] null, stamped with the
    composite key, under (tabId, frameId, u), where [get] finds it, and
    redirects to u.  On a spec of the typedef (no part [null]) the
    normaliser does return, and returns a normalised spec; should it throw,
    the listener throws the same, stores nothing and does not redirect. *)
Theorem tagged_url_recognized st d u s token :
  JSON_representable s ->
  b64EncodeUnicode (JSON_stringify s) = Ok token ->
  noSlash token = true ->
  noLineTerminator u = true ->
  details.url d = u ++ delimiter ++ token ->
  let k := makeKey (details.tabId d) (details.frameId d) u in
  Forall (fun c => isBase64Char c = true) token /\
  makeUrl u s = Ok (details.url d) /\
  match _normalizeTamperSpec
          (Some (Some (with_requestId s (Some None)))) with
  | Ok n =>
      requestId n = Some None /\
      onBeforeRequest st d =
        ({| _data := oset k (with_key n (Some k)) (_data st);
            _patternMods := _patternMods st |}, Ok (Some u)) /\
      get (fst (onBeforeRequest st d))
          (details.tabId d) (details.frameId d) u =
        Ok (Some (with_key n (Some k)))
  | Throw e => onBeforeRequest st d = (st, Throw e)
  end /\
  (withoutNull s ->
   exists n,
     _normalizeTamperSpec (Some (Some (with_requestId s (Some None)))) =
       Ok n /\
     normalized n).
Proof.
  intros [Hwf Hparse] Henc Hslash Hu Hurl k.
  destruct (b64_roundtrip _ Hwf) as (token' & Henc' & Hdec & Hchars).
  rewrite Henc in Henc'. injection Henc' as <-.
  split; [exact Hchars|]. split.
  { unfold makeUrl. rewrite Henc, Hurl. reflexivity. }
  split.
  - assert (Hrun : onBeforeRequest st d =
                   match set st (details.tabId d) (details.frameId d) u
                             (Some (Some (with_requestId s (Some None)))) with
                   | Throw e => (st, Throw e)
                   | Ok st' => (st', Ok (Some u))
                   end).
    { unfold onBeforeRequest. rewrite Hurl, matchTag_tagged by assumption.
      unfold decodeReqModifyOpts. rewrite Hdec. cbn [bind].
      now rewrite Hparse. }
    rewrite Hrun. unfold set, setDirect, deepCloneOrMissing, deepClone.
    fold k. cbn [bind].
    destruct (_normalizeTamperSpec
                (Some (Some (with_requestId s (Some None)))))
      as [n|e] eqn:En; cbn [bind]; [|reflexivity].
    split; [now destruct (normalize_keeps_ids _ _ En)|].
    split; [reflexivity|].
    unfold get, getDirect, deepClone. cbn [fst _data].
    now rewrite oget_oset_same.
  - intros Hplain.
    assert (Hplain' : withoutNull (with_requestId s (Some None)))
      by (destruct Hplain; constructor; assumption).
    destruct (normalize_total (Some (Some (with_requestId s (Some None))))
                              Hplain')
      as (n & h & r & rh & rr & o & Hrun & Hn & _).
    exists n. split; [exact Hrun|].
    eapply (normalize_Ok_normalized
              (Some (Some (with_requestId s (Some None))))); eauto.
Qed.


(** ** The header transforms on any mapping *)

Lemma sameName_refl a : sameName a a = true.
Proof. unfold sameName. apply streq_refl. Qed.

Lemma sameName_trans a b c :
  sameName a b = true -> sameName b c = true -> sameName a c = true.
Proof. rewrite !sameName_lower. congruence. Qed.

(** Names equal up to case are not told apart. *)
Lemma sameName_congr a b c : sameName a b = true -> sameName a c = sameName b c.
Proof.
  intros H. destruct (sameName b c) eqn:E.
  - eapply sameName_trans; eauto.
  - apply not_true_is_false. intros E'. rewrite sameName_sym in H.
    rewrite (sameName_trans _ _ _ H E') in E. discriminate.
Qed.

Lemma hasHeader_names hs k :
  existsb (sameName k) (map name hs) = hasHeader hs k.
Proof. induction hs as [|h hs IH]; simpl; auto. now rewrite IH. Qed.

Lemma lastAssigned_congr a b toSet :
  sameName a b = true -> lastAssigned a toSet = lastAssigned b toSet.
Proof.
  intros H. induction toSet as [|[k v] ts IH]; simpl; auto.
  rewrite IH. rewrite !(sameName_sym k), (sameName_congr _ _ _ H).
  reflexivity.
Qed.

Lemma lastAssigned_In k v toSet :
  In (k, v) toSet -> lastAssigned k toSet <> None.
Proof.
  induction toSet as [|[k' v'] ts IH]; simpl; [tauto|].
  intros [[= -> ->]|Hin].
  - rewrite sameName_refl. now destruct (lastAssigned k ts).
  - specialize (IH Hin). now destruct (lastAssigned k ts).
Qed.

Lemma lastAssigned_Some n toSet w :
  lastAssigned n toSet = Some w ->
  exists k, In (k, w) toSet /\ sameName k n = true.
Proof.
  induction toSet as [|[k v] ts IH]; simpl; [discriminate|].
  destruct (lastAssigned n ts) as [w'|].
  - intros [= ->]. destruct (IH eq_refl) as (k' & Hin & Hk). eauto.
  - destruct (sameName k n) eqn:E; [|discriminate].
    intros [= ->]. eauto.
Qed.

Lemma lastAssigned_None n toSet :
  lastAssigned n toSet = None ->
  forall k v, In (k, v) toSet -> sameName k n = false.
Proof.
  induction toSet as [|[k v] ts IH]; simpl; [tauto|].
  destruct (lastAssigned n ts) as [w'|]; [discriminate|].
  destruct (sameName k n) eqn:E; [discriminate|].
  intros _ k' v' [[= <- <-]|Hin]; [assumption|].
  eapply IH; eauto.
Qed.

Lemma name_settled toSet h : name (settled toSet h) = name h.
Proof. unfold settled. now destruct (lastAssigned (name h) toSet). Qed.

Lemma settled_overwriteOne k v ts h :
  settled ts (overwriteOne k v h) = settled ((k, v) :: ts) h.
Proof.
  unfold settled. rewrite name_overwriteOne. simpl.
  destruct (lastAssigned (name h) ts).
  - unfold overwriteOne. now destruct (sameName k (name h)).
  - unfold overwriteOne. now destruct (sameName k (name h)).
Qed.

Lemma settled_cons k v ts h :
  lastAssigned (name h) ts <> None ->
  settled ((k, v) :: ts) h = settled ts h.
Proof.
  unfold settled. simpl. now destruct (lastAssigned (name h) ts).
Qed.

Lemma settled_new k v ts :
  settled ts {| name := k; value := Some v |} =
  settled ((k, v) :: ts) (asHeader (k, v)).
Proof.
  unfold settled, asHeader. simpl. rewrite sameName_refl.
  now destruct (lastAssigned k ts).
Qed.

Lemma settled_idem toSet h : settled toSet (settled toSet h) = settled toSet h.
Proof.
  unfold settled. destruct (lastAssigned (name h) toSet) eqn:E; simpl.
  - now rewrite E.
  - now rewrite E.
Qed.

Lemma newNames_ext toSet : forall seen seen',
  (forall k, existsb (sameName k) seen = existsb (sameName k) seen') ->
  newNames seen toSet = newNames seen' toSet.
Proof.
  induction toSet as [|[k v] ts IH]; intros seen seen' H; simpl; auto.
  rewrite <- H. destruct (existsb (sameName k) seen); auto.
  f_equal. apply IH. intros k'. simpl. now rewrite H.
Qed.

Lemma newNames_In seen toSet : forall kv,
  In kv (newNames seen toSet) -> In kv toSet.
Proof.
  revert seen. induction toSet as [|[k v] ts IH]; intros seen kv; simpl; auto.
  destruct (existsb (sameName k) seen).
  - intros H. right. eapply IH; eauto.
  - intros [<-|H]; [now left|]. right. eapply IH; eauto.
Qed.

(** Every name of [toSet] is, up to case, one of [seen] or a new name. *)
Lemma newNames_covers toSet : forall seen k v,
  In (k, v) toSet ->
  existsb (sameName k) (seen ++ map fst (newNames seen toSet)) = true.
Proof.
  induction toSet as [|[k0 v0] ts IH]; intros seen k v; simpl; [tauto|].
  intros Hin. rewrite existsb_app.
  destruct (existsb (sameName k0) seen) eqn:E.
  - destruct Hin as [[= <- <-]|Hin].
    + now rewrite E.
    + rewrite <- existsb_app. eapply IH; eauto.
  - simpl. destruct Hin as [[= <- <-]|Hin].
    + rewrite sameName_refl. simpl. apply orb_true_r.
    + specialize (IH (k0 :: seen) k v Hin). simpl in IH.
      rewrite existsb_app in IH.
      destruct (sameName k k0), (existsb (sameName k) seen); simpl in *; auto.
Qed.

Lemma newNames_nil toSet : forall seen,
  (forall k v, In (k, v) toSet -> existsb (sameName k) seen = true) ->
  newNames seen toSet = [].
Proof.
  induction toSet as [|[k v] ts IH]; intros seen H; simpl; auto.
  rewrite (H k v) by now left.
  apply IH. intros k' v' Hin. apply (H k' v'). now right.
Qed.

Lemma names_overwriteOne k v hs :
  map name (map (overwriteOne k v) hs) = map name hs.
Proof.
  rewrite map_map. apply map_ext. intros h. apply name_overwriteOne.
Qed.

(** [setHeaders] on any mapping: the list, extended by one header for each
    new name, in which every header has the value last assigned to its
    name. *)
Lemma setHeader_fold_settled toSet : forall hs,
  fold_left setHeader toSet hs =
  map (settled toSet) (hs ++ map asHeader (newNames (map name hs) toSet)).
Proof.
  induction toSet as [|[k v] ts IH]; intros hs; cbn [fold_left].
  - simpl. rewrite app_nil_r. rewrite (map_ext _ (fun h => h)).
    + now rewrite map_id.
    + reflexivity.
  - rewrite IH, setHeader_map. cbn [newNames].
    rewrite hasHeader_names.
    assert (Hold : forall N,
               map (settled ts) (map asHeader (newNames N ts)) =
               map (settled ((k, v) :: ts)) (map asHeader (newNames N ts))).
    { intros N. apply map_ext_in. intros h Hh. symmetry.
      apply settled_cons. apply in_map_iff in Hh.
      destruct Hh as ([k' v'] & <- & Hin). simpl.
      apply newNames_In in Hin. eapply lastAssigned_In; eauto. }
    destruct (hasHeader hs k) eqn:Ehas.
    + rewrite app_nil_r, names_overwriteOne, !map_app, <- Hold.
      f_equal. rewrite map_map. apply map_ext.
      intros h. apply settled_overwriteOne.
    + rewrite (newNames_ext ts _ (k :: map name hs)).
      * rewrite <- app_assoc, !map_app. cbn [map app].
        rewrite <- Hold, settled_new. f_equal.
        rewrite map_map. apply map_ext.
        intros h. apply settled_overwriteOne.
      * intros k'. rewrite map_app, names_overwriteOne, existsb_app.
        simpl. now rewrite orb_false_r, orb_comm.
Qed.

Lemma names_settled toSet l : map name (map (settled toSet) l) = map name l.
Proof. rewrite map_map. apply map_ext. intros h. apply name_settled. Qed.

Lemma names_asHeader (l : jsobj (option jsstring)) :
  map name (map asHeader l) = map fst l.
Proof. rewrite map_map. now apply map_ext. Qed.

Lemma hasHeader_congr hs a b :
  sameName a b = true -> hasHeader hs a = hasHeader hs b.
Proof.
  intros H. unfold hasHeader. induction hs as [|h hs IH]; simpl; auto.
  now rewrite IH, (sameName_congr _ _ _ H).
Qed.

Lemma getHeader_settled toSet k : forall l,
  getHeader (map (settled toSet) l) k =
  if hasHeader l k then
    match lastAssigned k toSet with
    | Some v => Some v
    | None => getHeader l k
    end
  else Some None.
Proof.
  induction l as [|h l IH]; simpl; auto.
  rewrite name_settled, IH. unfold sameName at 1.
  rewrite (streq_sym (toLowerCase k)).
  destruct (streq (toLowerCase (name h)) (toLowerCase k)) eqn:E; simpl.
  - unfold settled.
    rewrite (lastAssigned_congr (name h) k) by exact E.
    now destruct (lastAssigned k toSet).
  - destruct (hasHeader l k); auto.
Qed.

Lemma setHeaders_settled hs toSet :
  setHeaders hs toSet =
    match oget (str "hasOwnProperty") toSet with
    | Some _ => Throw TypeError
    | None =>
        Ok (map (settled toSet)
                (hs ++ map asHeader (newNames (map name hs) toSet)))
    end.
Proof. now rewrite setHeaders_outcome, setHeader_fold_settled. Qed.

Lemma setHeader_fold_idem hs toSet :
  fold_left setHeader toSet (fold_left setHeader toSet hs) =
  fold_left setHeader toSet hs.
Proof.
  rewrite (setHeader_fold_settled toSet (fold_left setHeader toSet hs)).
  rewrite newNames_nil.
  - simpl. rewrite app_nil_r, setHeader_fold_settled, map_map.
    apply map_ext. intros h. apply settled_idem.
  - intros k v Hin.
    rewrite setHeader_fold_settled, names_settled, map_app, names_asHeader.
    eapply newNames_covers; eauto.
Qed.

Lemma getHeader_setHeader_fold_last hs toSet k :
  getHeader (fold_left setHeader toSet hs) k =
  match lastAssigned k toSet with
  | Some v => Some v
  | None => getHeader hs k
  end.
Proof.
  rewrite setHeader_fold_settled, getHeader_settled.
  set (news := map asHeader (newNames (map name hs) toSet)).
  destruct (lastAssigned k toSet) as [w|] eqn:E.
  - apply lastAssigned_Some in E. destruct E as (k0 & Hin & Hk).
    replace (hasHeader (hs ++ news) k) with true; [reflexivity|].
    symmetry. rewrite <- (hasHeader_congr _ k0 k) by exact Hk.
    rewrite <- hasHeader_names. unfold news.
    rewrite map_app, names_asHeader. eapply newNames_covers; eauto.
  - assert (Hnews : hasHeader news k = false).
    { unfold hasHeader, news. apply not_true_is_false. intros H.
      apply existsb_exists in H. destruct H as (h & Hh & Hs).
      apply in_map_iff in Hh. destruct Hh as ([k0 v0] & <- & Hin).
      apply newNames_In in Hin. simpl in Hs. rewrite sameName_sym in Hs.
      rewrite (lastAssigned_None _ _ E _ _ Hin) in Hs. discriminate. }
    rewrite getHeader_app by exact Hnews.
    rewrite hasHeader_app, Hnews, orb_false_r.
    destruct (hasHeader hs k) eqn:Eh; auto.
    symmetry. now apply getHeader_absent.
Qed.

(** X1: [setHeaders] on any header list and any mapping, also one with
    names equal up to case.  A mapping with an entry named
    [hasOwnProperty] makes it throw a TypeError.  On any other mapping it
    returns the given list followed by one new header for each name of the
    mapping that no header has and no earlier entry of the mapping has
    (names compared without case; the new header has the casing of that
    first entry), and in this list every header has the value that the
    last entry with its name assigns, a header named by no entry being as
    it was.  The names of the given headers, their casing and their order
    are kept. *)
Theorem setHeaders_any_mapping hs toSet :
  let news := newNames (map name hs) toSet in
  setHeaders hs toSet =
    match oget (str "hasOwnProperty") toSet with
    | Some _ => Throw TypeError
    | None => Ok (map (settled toSet) (hs ++ map asHeader news))
    end /\
  match setHeaders hs toSet with
  | Ok hs' => map name hs' = map name hs ++ map fst news
  | Throw e => e = TypeError
  end.
Proof.
  intros news. pose proof (setHeaders_settled hs toSet) as H.
  fold news in H. split; [exact H|]. rewrite H.
  destruct (oget (str "hasOwnProperty") toSet); [reflexivity|].
  now rewrite names_settled, map_app, names_asHeader.
Qed.

(** X2: making the same header changes a second time changes nothing:
    [setHeaders] twice has the outcome of [setHeaders] once, and on the
    list it has returned it returns that list. *)
Theorem setHeaders_idempotent hs toSet :
  (hs' <- setHeaders hs toSet ;; setHeaders hs' toSet) =
    setHeaders hs toSet /\
  match setHeaders hs toSet with
  | Ok hs' => setHeaders hs' toSet = Ok hs'
  | Throw e => e = TypeError
  end.
Proof.
  rewrite !setHeaders_outcome.
  destruct (oget (str "hasOwnProperty") toSet) eqn:E; cbn [bind].
  - split; reflexivity.
  - rewrite !setHeaders_outcome, E, setHeader_fold_idem. split; reflexivity.
Qed.

(** X3: reading a header in what [setHeaders] returns: a name that the
    mapping assigns, in whatever casing, reads as the value of the last
    entry with that name; any other name reads as before.  [setHeaders]
    returns unless the mapping has an entry named [hasOwnProperty], which
    makes it throw a TypeError. *)
Theorem getHeader_setHeaders_last hs toSet k :
  match setHeaders hs toSet with
  | Ok hs' =>
      plainNames toSet /\
      getHeader hs' k =
        match lastAssigned k toSet with
        | Some v => Some v
        | None => getHeader hs k
        end
  | Throw e => e = TypeError /\ ~ plainNames toSet
  end.
Proof.
  rewrite setHeaders_outcome. unfold plainNames.
  destruct (oget (str "hasOwnProperty") toSet) eqn:E.
  - split; [reflexivity|discriminate].
  - split; [reflexivity|]. apply getHeader_setHeader_fold_last.
Qed.

Lemma includes_lowered toRemove h :
  includes (map toLowerCase toRemove) (toLowerCase (name h)) =
  removed toRemove h.
Proof.
  unfold includes, removed, sameName.
  induction toRemove as [|n l IH]; simpl; auto.
  now rewrite IH, streq_sym.
Qed.

(** No header named like an entry of [toRemove] is left. *)
Lemma hasHeader_removeHeaders hs toRemove n k :
  In n toRemove -> sameName n k = true ->
  hasHeader (removeHeaders hs toRemove) k = false.
Proof.
  intros Hin Hk. unfold removeHeaders.
  induction hs as [|h hs IH]; simpl; auto.
  rewrite includes_lowered.
  destruct (removed toRemove h) eqn:E; simpl; auto.
  rewrite IH, orb_false_r. apply not_true_is_false. intros Hs.
  apply not_true_iff_false in E. apply E.
  unfold removed. apply existsb_exists. exists n. split; [exact Hin|].
  eapply sameName_trans; eauto.
Qed.

(** X4: [removeHeaders] drops every header whose name is, up to case, one
    of [toRemove], each occurrence of it, and keeps all the others as they
    are and in their order. *)
Theorem removeHeaders_filter hs toRemove :
  removeHeaders hs toRemove = filter (fun h => negb (removed toRemove h)) hs.
Proof.
  unfold removeHeaders. induction hs as [|h hs IH]; simpl; auto.
  rewrite includes_lowered, IH. now destruct (removed toRemove h).
Qed.


(** ** Storing, removing and registering, as [get] sees them *)

Lemma get_unfold st tabId frameId url :
  get st tabId frameId url =
  match oget (makeKey tabId frameId url) (_data st) with
  | Some s => Ok (Some s)
  | None => _scanPatternMods st url
  end.
Proof.
  unfold get, getDirect, deepClone.
  now destruct (oget (makeKey tabId frameId url) (_data st)).
Qed.

Lemma makeKey_other tabId frameId url tabId' frameId' url' :
  (tabId', frameId', url') <> (tabId, frameId, url) ->
  makeKey tabId' frameId' url' <> makeKey tabId frameId url.
Proof.
  intros Hne E. apply makeKey_components in E.
  destruct E as (-> & -> & ->). now apply Hne.
Qed.

(** X6: [set] on a spec that is there returns exactly when the normaliser
    returns on it, as it does on every spec none of whose parts is [null];
    [get] for the same tab, frame and URL then returns what the normaliser
    returned, stamped with the composite key, whatever patterns are
    registered, and for any other tab, frame or URL [get] does what it did
    before.  When the normaliser throws, [set] throws its TypeError; on a
    missing spec [set] throws the SyntaxError of the copy. *)
Theorem set_then_get st tabId frameId url spec :
  match set st tabId frameId url spec with
  | Ok st' =>
      exists s n,
        spec = Some s /\ _normalizeTamperSpec (Some s) = Ok n /\
        get st' tabId frameId url =
          Ok (Some (with_key n (Some (makeKey tabId frameId url)))) /\
        forall tabId' frameId' url',
          (tabId', frameId', url') <> (tabId, frameId, url) ->
          get st' tabId' frameId' url' = get st tabId' frameId' url'
  | Throw e =>
      match spec with
      | Some s => e = TypeError /\ _normalizeTamperSpec (Some s) = Throw e
      | None => e = SyntaxError
      end
  end /\
  (forall s, spec = Some (Some s) -> withoutNull s ->
             exists st', set st tabId frameId url spec = Ok st').
Proof.
  split.
  - unfold set.
    destruct (setDirect st (makeKey tabId frameId url) spec) as [st'|e] eqn:E.
    + destruct (setDirect_inv _ _ _ _ E) as (s & n & -> & Hn & ->).
      exists s, n. split; [reflexivity|]. split; [exact Hn|]. split.
      * rewrite get_unfold. simpl. now rewrite oget_oset_same.
      * intros tabId' frameId' url' Hne. rewrite !get_unfold. simpl.
        rewrite oget_oset_other by now apply makeKey_other.
        reflexivity.
    + unfold setDirect, deepCloneOrMissing, deepClone in E.
      destruct spec as [s|]; cbn [bind] in E; [|congruence].
      destruct (_normalizeTamperSpec (Some s)) as [n|x] eqn:En;
        [discriminate|].
      cbn [bind] in E. injection E as <-.
      split; [eapply normalize_TypeError; eauto|reflexivity].
  - intros s -> Hs. unfold set.
    destruct (setDirect_Ok st (makeKey tabId frameId url) s Hs)
      as (n & _ & _ & _ & Hset).
    eauto.
Qed.

(** X7: after [remove] the direct entry of that tab, frame and URL is
    gone, so that [get] is decided by the patterns alone; for any other
    tab, frame or URL [get] returns what it returned before. *)
Theorem remove_then_get st tabId frameId url :
  getDirect (remove_ st tabId frameId url) (makeKey tabId frameId url) =
    None /\
  get (remove_ st tabId frameId url) tabId frameId url =
    _scanPatternMods st url /\
  forall tabId' frameId' url',
    (tabId', frameId', url') <> (tabId, frameId, url) ->
    get (remove_ st tabId frameId url) tabId' frameId' url' =
    get st tabId' frameId' url'.
Proof.
  split; [|split].
  - unfold getDirect, remove_, removeDirect. simpl.
    now rewrite oget_odelete_same.
  - rewrite get_unfold. unfold remove_, removeDirect. simpl.
    now rewrite oget_odelete_same.
  - intros tabId' frameId' url' Hne. rewrite !get_unfold.
    unfold remove_, removeDirect. simpl.
    rewrite oget_odelete_other by now apply makeKey_other.
    reflexivity.
Qed.

(** X8: a registered pattern is consulted before all the older ones and
    after the direct entries: once [addPattern] has returned, [get]
    returns the direct entry of the tab, frame and URL if there is one;
    otherwise it tests the new pattern and returns its normalised [tamper]
    if it applies to the URL, does what it did before if it does not, and
    throws if the test throws, which it does not when the regular
    expressions of the pattern can be made or, for a pattern without
    regexes, when it has a list of urls. *)
Theorem addPattern_then_get st params st' :
  addPattern st params = Ok st' ->
  exists t n,
    tamper params = Some t /\ _normalizeTamperSpec (Some t) = Ok n /\
    (forall tabId frameId url,
        get st' tabId frameId url =
        match getDirect st (makeKey tabId frameId url) with
        | Some s => Ok (Some s)
        | None =>
            match entryMatched url params with
            | Ok true => Ok (Some n)
            | Ok false => get st tabId frameId url
            | Throw e => Throw e
            end
        end) /\
    (testable params ->
     forall url, entryMatched url params = Ok (matchesUrl url params)).
Proof.
  intros H. apply addPattern_Ok in H.
  destruct H as (Hm & t & n & Ht & Hn & ->).
  exists t, n. split; [exact Ht|]. split; [exact Hn|]. split.
  - intros tabId frameId url. rewrite !get_unfold.
    unfold getDirect, deepClone. simpl.
    destruct (oget (makeKey tabId frameId url) (_data st)); [reflexivity|].
    unfold _scanPatternMods. cbn [_patternMods scanLoop].
    replace (entryMatched url {| regexes := regexes params;
                                 urls := urls params;
                                 tamper := Some (Some n) |})
      with (entryMatched url params) by reflexivity.
    destruct (entryMatched url params) as [[|]|e]; reflexivity.
  - intros Htest url. now apply entryMatched_testable.
Qed.

(** X9: the lookup by request identifier returns the first stored spec, in
    the enumeration order of the direct map, that carries the identifier,
    and null exactly when no stored spec carries it. *)
Theorem getByRequestId_first st id :
  match getByRequestId st id with
  | Some s =>
      exists k before after,
        _data st = before ++ (k, s) :: after /\
        requestId s = Some (Some id) /\
        forall k' s', In (k', s') before -> requestId s' <> Some (Some id)
  | None =>
      forall k s, In (k, s) (_data st) -> requestId s <> Some (Some id)
  end.
Proof.
  assert (Hid : forall s, hasRequestId id s = true <->
                          requestId s = Some (Some id)).
  { intros s. unfold hasRequestId.
    destruct (requestId s) as [[r|]|]; try (split; discriminate).
    rewrite streq_true. split; congruence. }
  unfold getByRequestId.
  induction (_data st) as [|[k v] entries IH]; simpl.
  - tauto.
  - destruct (hasRequestId id v) eqn:E.
    + exists k, [], entries. split; [reflexivity|].
      split; [now apply Hid|]. intros k' s' [].
    + assert (Hv : requestId v <> Some (Some id)).
      { rewrite <- Hid. congruence. }
      destruct (getByRequestIdLoop id entries) as [s|].
      * destruct IH as (k0 & before & after & -> & Hs & Hb).
        exists k0, ((k, v) :: before), after.
        split; [reflexivity|]. split; [exact Hs|].
        intros k' s' [[= <- <-]|Hin]; eauto.
      * intros k' s' [[= <- <-]|Hin]; eauto.
Qed.

(** X23: [addPattern] tests that a matcher and a [tamper] are there and
    nothing more.  With a matcher, a [tamper] that is [null] makes it throw
    the TypeError of the normaliser, and a [tamper] none of whose parts is
    [null] makes it return, whatever the matcher is.  When the regexes of
    the association hold one that cannot be made, [get] for a URL without
    direct entry then returns the spec of the association if a regex
    before that one matches the URL, and throws a SyntaxError otherwise;
    when the association has neither a list of regexes nor a list of urls
    (either being [null]), [get] for every URL without direct entry throws
    a TypeError. *)
Theorem addPattern_unchecked st params :
  regexes params <> None \/ urls params <> None ->
  (tamper params = Some None -> addPattern st params = Throw TypeError) /\
  (forall t,
      tamper params = Some (Some t) -> withoutNull t ->
      exists n st',
        _normalizeTamperSpec (Some (Some t)) = Ok n /\
        addPattern st params = Ok st' /\
        forall tabId frameId url,
          oget (makeKey tabId frameId url) (_data st) = None ->
          (forall pre r post,
              regexes params = Some (Some (pre ++ r :: post)) ->
              Forall compiles pre -> ~ compiles r ->
              get st' tabId frameId url =
                if existsb (regexMatches url) pre then Ok (Some n)
                else Throw SyntaxError) /\
          (object (regexes params) = None -> object (urls params) = None ->
           get st' tabId frameId url = Throw TypeError)).
Proof.
  intros Hm.
  assert (Hrun : addPattern st params =
                 match tamper params with
                 | None => Throw (Error "params.tamper not specified.")
                 | Some t =>
                     n <- _normalizeTamperSpec (Some t) ;;
                     Ok {| _data := _data st;
                           _patternMods :=
                             {| regexes := regexes params;
                                urls := urls params;
                                tamper := Some (Some n) |}
                             :: _patternMods st |}
                 end).
  { unfold addPattern, deepClone.
    destruct (regexes params), (urls params); try reflexivity.
    destruct Hm as [Hm|Hm]; now elim Hm. }
  split.
  - intros Ht. now rewrite Hrun, Ht.
  - intros t Ht Hplain.
    destruct (normalize_total (Some (Some t)) Hplain)
      as (n & _ & _ & _ & _ & _ & Hn & _).
    exists n. eexists. split; [exact Hn|].
    split; [rewrite Hrun, Ht, Hn; reflexivity|].
    intros tabId frameId url Hnone.
    assert (Hget : get {| _data := _data st;
                          _patternMods :=
                            {| regexes := regexes params;
                               urls := urls params;
                               tamper := Some (Some n) |}
                            :: _patternMods st |} tabId frameId url =
                   (matched <- entryMatched url params ;;
                    if (matched : bool) then Ok (Some n)
                    else _scanPatternMods st url)).
    { rewrite get_unfold. cbn [_data]. rewrite Hnone.
      unfold _scanPatternMods. cbn [_patternMods scanLoop].
      replace (entryMatched url {| regexes := regexes params;
                                   urls := urls params;
                                   tamper := Some (Some n) |})
        with (entryMatched url params) by reflexivity.
      destruct (entryMatched url params) as [[|]|e]; reflexivity. }
    rewrite Hget. split.
    + intros pre r post Hr Hpre Hbad. unfold entryMatched. rewrite Hr.
      rewrite someRegex_sequential by assumption.
      destruct (existsb (regexMatches url) pre); [reflexivity|].
      now rewrite makeRegex_throws.
    + intros Hr Hu. unfold entryMatched.
      destruct (regexes params) as [[rs|]|]; try discriminate;
        destruct (urls params) as [[us|]|]; try discriminate; reflexivity.
Qed.

(** ** The listeners, case by case *)

Lemma set_settled st tabId frameId url n :
  settledSpec n ->
  set st tabId frameId url (Some (Some n)) =
    Ok {| _data := oset (makeKey tabId frameId url)
                     (with_key n (Some (makeKey tabId frameId url)))
                     (_data st);
          _patternMods := _patternMods st |}.
Proof. intros Hn. unfold set. now apply setDirect_settled. Qed.

Lemma set_outcome st tabId frameId url s :
  set st tabId frameId url (Some (Some s)) =
    (n <- _normalizeTamperSpec (Some (Some s)) ;;
     Ok {| _data := oset (makeKey tabId frameId url)
                      (with_key n (Some (makeKey tabId frameId url)))
                      (_data st);
           _patternMods := _patternMods st |}).
Proof. reflexivity. Qed.

Lemma getByRequestIdLoop_None_inv id entries :
  getByRequestIdLoop id entries = None ->
  forall k s, In (k, s) entries -> hasRequestId id s = false.
Proof.
  induction entries as [|[k v] entries IH]; simpl; [tauto|].
  destruct (hasRequestId id v) eqn:E; [discriminate|].
  intros H k' s' [[= <- <-]|Hin]; eauto.
Qed.

Lemma getByRequestIdLoop_oset id k v entries :
  NoDup (okeys entries) ->
  (forall k' s', In (k', s') entries -> k' <> k ->
                 hasRequestId id s' = false) ->
  hasRequestId id v = true ->
  getByRequestIdLoop id (oset k v entries) = Some v.
Proof.
  intros Hnd Hnone Hv.
  apply (getByRequestIdLoop_only id _ k).
  - now apply NoDup_oset.
  - apply oget_In. apply oget_oset_same.
  - exact Hv.
  - intros k' s' Hin Hid.
    destruct (list_eq_dec Z.eq_dec k' k) as [E|E]; [exact E|].
    apply In_oset in Hin. destruct Hin as [[= -> _]|Hin]; [reflexivity|].
    rewrite (Hnone _ _ Hin E) in Hid. discriminate.
Qed.

Lemma odelete_oset_absent {V : Type} k (v : V) o :
  oget k o = None -> odelete k (oset k v o) = o.
Proof.
  induction o as [|[k' v'] o IH]; simpl.
  - now rewrite streq_refl.
  - destruct (streq k k') eqn:E; [discriminate|].
    intros H. simpl. now rewrite E, IH.
Qed.

(** The request-phase changes with the loop of [setHeaders] written as a
    fold. *)
Lemma tamperRequest_outcome spec hs :
  tamperRequest spec hs =
    match headers spec with
    | Some (Some toSet) =>
        match oget (str "hasOwnProperty") toSet with
        | Some _ => Throw TypeError
        | None =>
            let hs' := fold_left setHeader toSet hs in
            Ok match remove spec with
               | Some (Some toRemove) => removeHeaders hs' toRemove
               | _ => hs'
               end
        end
    | _ =>
        Ok match remove spec with
           | Some (Some toRemove) => removeHeaders hs toRemove
           | _ => hs
           end
    end.
Proof.
  unfold tamperRequest.
  destruct (headers spec) as [[toSet|]|]; auto.
  rewrite setHeaders_outcome.
  now destruct (oget (str "hasOwnProperty") toSet).
Qed.

Lemma tamperRequest_callable spec hs :
  requestCallable spec -> exists out, tamperRequest spec hs = Ok out.
Proof.
  intros Hc. rewrite tamperRequest_outcome.
  destruct (headers spec) as [[toSet|]|] eqn:E; eauto.
  rewrite (Hc toSet E). eauto.
Qed.

Lemma tamperRequest_throws spec hs e :
  tamperRequest spec hs = Throw e ->
  e = TypeError /\ ~ requestCallable spec.
Proof.
  rewrite tamperRequest_outcome.
  destruct (headers spec) as [[toSet|]|] eqn:E'; try discriminate.
  destruct (oget (str "hasOwnProperty") toSet) eqn:E; [|discriminate].
  intros [= <-]. split; auto. intros Hc.
  specialize (Hc toSet E'). unfold plainNames in Hc. congruence.
Qed.

(** The request-header listener on a spec that [get] returns. *)
Lemma onBeforeSendHeaders_run st d spec out :
  get st (details.tabId d) (details.frameId d) (details.url d) =
    Ok (Some spec) ->
  settledSpec spec ->
  tamperRequest spec (details.requestHeaders d) = Ok out ->
  let k := makeKey (details.tabId d) (details.frameId d) (details.url d) in
  onBeforeSendHeaders st d =
    ({| _data :=
          oset k (with_key (with_requestId spec
                              (Some (Some (details.requestId d))))
                           (Some k)) (_data st);
        _patternMods := _patternMods st |},
     Ok (Some out)).
Proof.
  intros Hget Hn Hout k. unfold onBeforeSendHeaders.
  rewrite Hget, Hout.
  rewrite set_settled by now apply settled_with_requestId.
  reflexivity.
Qed.

(** The response listener on a response that is no redirect. *)
Lemma onHeadersReceived_terminal st d spec k out o :
  getByRequestId st (details.requestId d) = Some spec ->
  key spec = Some k -> opts spec = Some (Some o) ->
  isRedirectStatus (details.statusCode d) = false ->
  tamperResponse spec (details.responseHeaders d) = Ok out ->
  onHeadersReceived st d =
    (if isOnce spec then removeDirect st k else st, Ok (fst out)).
Proof.
  intros Hget Hkey Ho Hstatus Hout. unfold onHeadersReceived.
  rewrite Hget, Hout. destruct out as [out held].
  rewrite checkIfRedirect_terminal by assumption.
  rewrite (onceSet_object spec o) by assumption.
  rewrite Hkey. simpl. now destruct (isOnce spec).
Qed.

(** The headers of a spec the normaliser has returned, by those of the
    spec it was given. *)
Lemma normalize_headers_kept s n toSet :
  _normalizeTamperSpec (Some (Some s)) = Ok n ->
  headers n = Some (Some toSet) ->
  forall X, oget X toSet = kept (headerOf (Some (Some s)) X).
Proof.
  intros Hn Hh. apply normalize_Ok_inv in Hn.
  destruct Hn as (s' & resp & [h r] & sub & [[E _]|E] & _ & Htop & _ & ->);
    [discriminate|].
  inversion E; subst s'. cbn [headers fst] in Hh. subst h.
  unfold headerOf. cbn [object].
  destruct (headers s) as [[h0|]|]; cbn [orDefault object] in *.
  - destruct (orDefault (remove s) []) as [[r0|]|] eqn:Er.
    + destruct (doNormalize_spec h0 r0) as (h' & m & Hrun & _ & Hh').
      rewrite Hrun in Htop. inversion Htop; subst. exact Hh'.
    + unfold doNormalize in Htop.
      destruct (doNormalizeLoop (okeys h0) h0 (Some None))
        as [[h1 r1]|e] eqn:El; [|discriminate].
      apply doNormalizeLoop_unchanged in El; [|reflexivity].
      destruct El as (-> & -> & Hnn). simpl in Htop. inversion Htop; subst.
      intros X. rewrite kept_other; auto.
      intros HX. apply (Hnn X); auto. eapply oget_okeys; eauto.
    + now destruct (remove s).
  - discriminate.
  - simpl in Htop. inversion Htop. reflexivity.
Qed.

Lemma normalize_response_headers_kept s n resp toSet :
  _normalizeTamperSpec (Some (Some s)) = Ok n ->
  response n = Some (Some resp) ->
  r_headers resp = Some (Some toSet) ->
  forall X, oget X toSet = kept (responseHeaderOf (Some (Some s)) X).
Proof.
  intros Hn Hresp Hh. apply normalize_Ok_inv in Hn.
  destruct Hn as (s' & resp0 & top & [h r] & [[E _]|E] & Hr0 & _ & Hsub & ->);
    [discriminate|].
  inversion E; subst s'. cbn [response] in Hresp.
  inversion Hresp; subst resp. cbn [r_headers fst] in Hh. subst h.
  unfold responseHeaderOf. cbn [object].
  assert (Hh0 : forall X,
             match object (response s) with
             | Some resp =>
                 match object (r_headers resp) with
                 | Some h => oget X h
                 | None => None
                 end
             | None => None
             end =
             match object (r_headers resp0) with
             | Some h => oget X h
             | None => None
             end).
  { intros X. destruct (response s) as [[resp|]|]; cbn [orDefault] in Hr0;
      inversion Hr0; subst; reflexivity. }
  destruct (r_headers resp0) as [[h0|]|]; cbn [orDefault object] in *.
  - destruct (orDefault (r_remove resp0) []) as [[r0|]|] eqn:Er.
    + destruct (doNormalize_spec h0 r0) as (h' & m & Hrun & _ & Hh').
      rewrite Hrun in Hsub. inversion Hsub; subst.
      intros X. now rewrite Hh', Hh0.
    + unfold doNormalize in Hsub.
      destruct (doNormalizeLoop (okeys h0) h0 (Some None))
        as [[h1 r1]|e] eqn:El; [|discriminate].
      apply doNormalizeLoop_unchanged in El; [|reflexivity].
      destruct El as (-> & -> & Hnn). simpl in Hsub. inversion Hsub; subst.
      intros X. rewrite Hh0, kept_other; auto.
      intros HX. apply (Hnn X); auto. eapply oget_okeys; eauto.
    + now destruct (r_remove resp0).
  - discriminate.
  - simpl in Hsub. inversion Hsub. intros X. now rewrite Hh0.
Qed.

Lemma normalize_requestCallable s n :
  _normalizeTamperSpec (Some (Some s)) = Ok n ->
  noOwnRequestHeader s -> requestCallable n.
Proof.
  intros Hn Hs toSet Hh. unfold plainNames.
  now rewrite (normalize_headers_kept s n toSet Hn Hh).
Qed.

Lemma normalize_responseCallable s n :
  _normalizeTamperSpec (Some (Some s)) = Ok n ->
  noOwnResponseHeader s -> responseCallable n.
Proof.
  intros Hn Hs resp toSet Hresp Hh. unfold plainNames.
  now rewrite (normalize_response_headers_kept s n resp toSet Hn Hresp Hh).
Qed.

(** The names the normaliser has in [remove] when it returns: those given
    and those mapped to [null]. *)
Lemma normalize_remove_holds s n X :
  _normalizeTamperSpec (Some (Some s)) = Ok n ->
  headerOf (Some (Some s)) X = Some None \/ In X (removeOf (Some (Some s))) ->
  exists toRemove, remove n = Some (Some toRemove) /\ In X toRemove.
Proof.
  intros Hn HX. apply normalize_Ok_inv in Hn.
  destruct Hn as (s' & resp & [h r] & sub & [[E _]|E] & _ & Htop & _ & ->);
    [discriminate|].
  inversion E; subst s'. cbn [remove snd].
  unfold headerOf, removeOf in HX. cbn [object] in HX.
  destruct (headers s) as [[h0|]|]; cbn [orDefault object] in *.
  - destruct (remove s) as [[r0|]|]; cbn [orDefault object] in *.
    + destruct (doNormalize_spec h0 r0) as (h' & m & Hrun & Hm & _).
      rewrite Hrun in Htop. inversion Htop; subst.
      eexists. split; [reflexivity|]. apply in_or_app.
      destruct HX as [HX|HX]; [right; now apply Hm|now left].
    + destruct HX as [HX|[]].
      rewrite (doNormalize_throws h0 (Some None) X) in Htop;
        [discriminate|reflexivity|exact HX].
    + destruct (doNormalize_spec h0 []) as (h' & m & Hrun & Hm & _).
      rewrite Hrun in Htop. inversion Htop; subst.
      eexists. split; [reflexivity|].
      destruct HX as [HX|[]]. now apply Hm.
  - simpl in Htop. inversion Htop; subst.
    destruct HX as [HX|HX]; [discriminate|].
    destruct (remove s) as [[r0|]|]; cbn [orDefault object] in *;
      [eauto|destruct HX|destruct HX].
  - simpl in Htop. inversion Htop; subst.
    destruct HX as [HX|HX]; [discriminate|].
    destruct (remove s) as [[r0|]|]; cbn [orDefault object] in *;
      [eauto|destruct HX|destruct HX].
Qed.

(** X14: the request listener, case by case.  It does nothing, and
    returns nothing, exactly when the URL is not some u, the delimiter and
    a slash-free token; it redirects to u only when the URL has that form;
    and whenever it throws the store is left as it was.  On a URL of that
    form, what the decoding of the token throws the listener throws; a
    token that decodes to [null] makes it throw a TypeError; and a token
    that decodes to a spec makes it store what the normaliser returns on
    the spec with [requestId] null under the key of the tab, the frame and
    u, changing nothing else, and redirect to u, or throw what the
    normaliser throws. *)
Theorem onBeforeRequest_outcome st d :
  let k u := makeKey (details.tabId d) (details.frameId d) u in
  ((forall u token, ~ tagged (details.url d) u token) <->
   snd (onBeforeRequest st d) = Ok None) /\
  (snd (onBeforeRequest st d) = Ok None -> fst (onBeforeRequest st d) = st) /\
  (forall u, snd (onBeforeRequest st d) = Ok (Some u) ->
             exists token, tagged (details.url d) u token) /\
  (forall e, snd (onBeforeRequest st d) = Throw e ->
             fst (onBeforeRequest st d) = st) /\
  (forall u token,
      matchTag (details.url d) = Some (u, token) ->
      tagged (details.url d) u token /\
      (forall e, b64DecodeUnicode token = Throw e ->
                 onBeforeRequest st d = (st, Throw e)) /\
      (decodeReqModifyOpts token = Ok None ->
       onBeforeRequest st d = (st, Throw TypeError)) /\
      (forall spec,
          decodeReqModifyOpts token = Ok (Some spec) ->
          onBeforeRequest st d =
            match _normalizeTamperSpec
                    (Some (Some (with_requestId spec (Some None)))) with
            | Ok n =>
                ({| _data := oset (k u) (with_key n (Some (k u))) (_data st);
                    _patternMods := _patternMods st |}, Ok (Some u))
            | Throw e => (st, Throw e)
            end)).
Proof.
  intros k. unfold onBeforeRequest.
  destruct (matchTag (details.url d)) as [[origUrl token]|] eqn:Em.
  - pose proof (matchTag_sound _ _ _ Em) as Ht.
    assert (Hset : forall spec,
               match set st (details.tabId d) (details.frameId d) origUrl
                         (Some (Some (with_requestId spec (Some None)))) with
               | Ok st' => (st', Ok (Some origUrl))
               | Throw e => (st, Throw e)
               end =
               match _normalizeTamperSpec
                       (Some (Some (with_requestId spec (Some None)))) with
               | Ok n =>
                   ({| _data := oset (k origUrl)
                                  (with_key n (Some (k origUrl))) (_data st);
                       _patternMods := _patternMods st |},
                    Ok (Some origUrl))
               | Throw e => (st, Throw e)
               end).
    { intros spec. rewrite set_outcome.
      now destruct (_normalizeTamperSpec
                      (Some (Some (with_requestId spec (Some None))))). }
    split; [|split; [|split; [|split]]].
    + split.
      * intros Hno. elim (Hno origUrl token Ht).
      * intros Hnone. exfalso.
        destruct (decodeReqModifyOpts token) as [[spec|]|e];
          try discriminate.
        rewrite Hset in Hnone.
        destruct (_normalizeTamperSpec
                    (Some (Some (with_requestId spec (Some None)))));
          discriminate.
    + destruct (decodeReqModifyOpts token) as [[spec|]|e]; try reflexivity.
      rewrite Hset.
      destruct (_normalizeTamperSpec
                  (Some (Some (with_requestId spec (Some None)))));
        [discriminate|reflexivity].
    + intros u. destruct (decodeReqModifyOpts token) as [[spec|]|e];
        try discriminate.
      rewrite Hset.
      destruct (_normalizeTamperSpec
                  (Some (Some (with_requestId spec (Some None)))));
        [|discriminate].
      cbn [snd]. intros [= <-]. eauto.
    + intros e. destruct (decodeReqModifyOpts token) as [[spec|]|e'];
        try reflexivity.
      rewrite Hset.
      destruct (_normalizeTamperSpec
                  (Some (Some (with_requestId spec (Some None)))));
        [discriminate|reflexivity].
    + intros u token' [= <- <-]. split; [exact Ht|]. split; [|split].
      * intros e He. unfold decodeReqModifyOpts. now rewrite He.
      * now intros ->.
      * intros spec ->. apply Hset.
  - cbn [fst snd]. split; [|split; [|split; [|split]]]; try discriminate;
      auto.
    split; [reflexivity|]. intros _. now apply matchTag_None.
Qed.

(** X15: a token with a character that is neither of the base64 alphabet
    (letters, digits, plus, slash), nor the padding character, nor white
    space -- the minus sign and the underscore of the URL-safe alphabet,
    say -- is refused: on a URL tagged with such a token that holds no
    dollar sign, the request listener throws an InvalidCharacterError,
    stores nothing and does not redirect. *)
Theorem onBeforeRequest_rejects_token st d u token c :
  tagged (details.url d) u token ->
  Forall (fun x => x <> 36) token ->
  In c token -> isBase64Char c = false -> isAsciiWhitespace c = false ->
  onBeforeRequest st d = (st, Throw InvalidCharacterError).
Proof.
  intros (Hurl & Hu & Ht) Hd Hin Hc Hw. unfold onBeforeRequest.
  rewrite Hurl, matchTag_tagged_no_dollar by assumption.
  unfold decodeReqModifyOpts, b64DecodeUnicode.
  now rewrite (atob_invalid token c).
Qed.

(** X16: the request-header listener, on a store whose pattern entries the
    scan can test.  When neither a direct entry nor a pattern applies it
    returns nothing and leaves the store as it was.  Otherwise, when the
    spec found sets no header named [hasOwnProperty], it returns the
    request headers with the headers of the spec set and then the names of
    its [remove] list removed, and it stores the spec, bound to the request
    identifier, under the key of the tab, the frame and the URL, where
    [get] finds it from then on -- also when the spec came from a pattern;
    when the spec sets such a header the listener throws a TypeError and
    leaves the store as it was. *)
Theorem onBeforeSendHeaders_outcome st d :
  reachable st ->
  Forall testable (_patternMods st) ->
  let k := makeKey (details.tabId d) (details.frameId d) (details.url d) in
  match resolve matchesUrl st (details.tabId d) (details.frameId d)
                (details.url d) with
  | None => onBeforeSendHeaders st d = (st, Ok None)
  | Some spec =>
      let bound :=
        with_key (with_requestId spec (Some (Some (details.requestId d))))
                 (Some k) in
      match headers spec with
      | Some (Some toSet) =>
          match setHeaders (details.requestHeaders d) toSet with
          | Ok hs =>
              plainNames toSet /\
              let out := match remove spec with
                         | Some (Some toRemove) => removeHeaders hs toRemove
                         | _ => hs
                         end in
              onBeforeSendHeaders st d =
                ({| _data := oset k bound (_data st);
                    _patternMods := _patternMods st |}, Ok (Some out)) /\
              get (fst (onBeforeSendHeaders st d)) (details.tabId d)
                  (details.frameId d) (details.url d) = Ok (Some bound)
          | Throw e =>
              ~ plainNames toSet /\
              onBeforeSendHeaders st d = (st, Throw TypeError)
          end
      | _ =>
          let out := match remove spec with
                     | Some (Some toRemove) =>
                         removeHeaders (details.requestHeaders d) toRemove
                     | _ => details.requestHeaders d
                     end in
          onBeforeSendHeaders st d =
            ({| _data := oset k bound (_data st);
                _patternMods := _patternMods st |}, Ok (Some out)) /\
          get (fst (onBeforeSendHeaders st d)) (details.tabId d)
              (details.frameId d) (details.url d) = Ok (Some bound)
      end
  end.
Proof.
  intros Hreach Htest k. pose proof (reachable_storeKept _ Hreach) as Hok.
  pose proof (get_resolve st (details.tabId d) (details.frameId d)
                (details.url d) Hok Htest) as Hget.
  destruct (resolve matchesUrl st (details.tabId d) (details.frameId d)
              (details.url d)) as [spec|] eqn:Er.
  - pose proof (resolve_settled _ _ _ _ _ Hok Er) as Hn.
    assert (Hrun : forall out,
               tamperRequest spec (details.requestHeaders d) = Ok out ->
               onBeforeSendHeaders st d =
                 ({| _data :=
                       oset k (with_key
                                 (with_requestId spec
                                    (Some (Some (details.requestId d))))
                                 (Some k)) (_data st);
                     _patternMods := _patternMods st |}, Ok (Some out)) /\
               get (fst (onBeforeSendHeaders st d)) (details.tabId d)
                   (details.frameId d) (details.url d) =
                 Ok (Some (with_key
                             (with_requestId spec
                                (Some (Some (details.requestId d))))
                             (Some k)))).
    { intros out Hout.
      rewrite (onBeforeSendHeaders_run st d spec out) by assumption.
      split; [reflexivity|].
      rewrite get_unfold. cbn [fst _data]. fold k.
      now rewrite oget_oset_same. }
    cbv zeta. unfold tamperRequest in Hrun.
    destruct (headers spec) as [[toSet|]|] eqn:Eh;
      try (apply Hrun; reflexivity).
    pose proof (setHeaders_outcome (details.requestHeaders d) toSet) as Hs.
    unfold plainNames.
    destruct (oget (str "hasOwnProperty") toSet) eqn:Eown.
    + rewrite Hs. split; [discriminate|].
      unfold onBeforeSendHeaders, tamperRequest.
      now rewrite Hget, Eh, Hs.
    + rewrite Hs in *. split; [reflexivity|]. apply Hrun. reflexivity.
  - unfold onBeforeSendHeaders. now rewrite Hget.
Qed.

(** X17: a header that a spec maps to null, or lists under [remove], is
    not sent.  Once the spec, which gives no value to a header named
    [hasOwnProperty], is stored for a tab, frame and URL, the request
    headers that the request-header listener returns for a request there
    hold no header of that name in any casing, whatever headers the
    request came with and also when the spec sets the header under another
    casing. *)
Theorem removed_header_not_sent st d spec st1 X :
  set st (details.tabId d) (details.frameId d) (details.url d)
      (Some (Some spec)) = Ok st1 ->
  noOwnRequestHeader spec ->
  headerOf (Some (Some spec)) X = Some None \/
  In X (removeOf (Some (Some spec))) ->
  exists st2 out,
    onBeforeSendHeaders st1 d = (st2, Ok (Some out)) /\
    hasHeader out X = false.
Proof.
  intros Hset Hown HX.
  set (k := makeKey (details.tabId d) (details.frameId d) (details.url d)).
  rewrite set_outcome in Hset. fold k in Hset.
  destruct (_normalizeTamperSpec (Some (Some spec))) as [n|e] eqn:Hn;
    [|discriminate].
  cbn [bind] in Hset. injection Hset as <-.
  pose proof (normalize_settled _ _ Hn) as Hsettled.
  pose proof (normalize_requestCallable _ _ Hn Hown) as Hcall.
  destruct (normalize_remove_holds _ _ X Hn HX) as (toRemove & Hrem & Hin).
  assert (Hout : exists hs,
             tamperRequest (with_key n (Some k)) (details.requestHeaders d) =
               Ok (removeHeaders hs toRemove)).
  { rewrite tamperRequest_outcome. cbn [with_key headers remove].
    rewrite Hrem.
    destruct (headers n) as [[toSet|]|] eqn:Eh; eauto.
    rewrite (Hcall toSet Eh). eauto. }
  destruct Hout as (hs & Hout).
  eexists _, _. split.
  - apply (onBeforeSendHeaders_run _ d (with_key n (Some k))).
    + rewrite get_unfold. cbn [_data]. fold k.
      now rewrite oget_oset_same.
    + now apply settled_with_key.
    + exact Hout.
  - apply (hasHeader_removeHeaders _ _ X X); [exact Hin|apply sameName_refl].
Qed.

(** X22: a token with a slash is passed over in silence.  When the URL is
    u, the delimiter and a token that holds a slash, with no dollar sign
    in u or in the token (a base64 token has none), the request listener
    finds no tag: it stores nothing, does not redirect and throws nothing,
    so that the request goes out to the tagged URL as it is. *)
Theorem onBeforeRequest_slash_token st d u token :
  details.url d = u ++ delimiter ++ token ->
  Forall (fun c => c <> 36) u -> Forall (fun c => c <> 36) token ->
  noSlash token = false ->
  onBeforeRequest st d = (st, Ok None).
Proof.
  intros Hurl Hu Ht Hs. unfold onBeforeRequest.
  now rewrite Hurl, matchTag_slash.
Qed.

(** ** A request from its tagged URL to its response *)

Lemma oset_oset {V : Type} k (v w : V) o :
  oset k w (oset k v o) = oset k w o.
Proof.
  induction o as [|[k' v'] o IH]; simpl.
  - now rewrite streq_refl.
  - destruct (streq k k') eqn:E; simpl.
    + now rewrite streq_refl.
    + now rewrite E, IH.
Qed.

Lemma odelete_oset {V : Type} k (v : V) o :
  odelete k (oset k v o) = odelete k o.
Proof.
  induction o as [|[k' v'] o IH]; simpl.
  - now rewrite streq_refl.
  - destruct (streq k k') eqn:E; simpl.
    + now rewrite streq_refl.
    + now rewrite E, IH.
Qed.

(** The normaliser does not look at [requestId]. *)
Lemma normalize_with_requestId s id n :
  _normalizeTamperSpec (Some (Some s)) = Ok n ->
  _normalizeTamperSpec (Some (Some (with_requestId s id))) =
    Ok (with_requestId n id).
Proof.
  intros Hn.
  replace (with_requestId s id)
    with (with_key (with_requestId s id) (key s)) by now destruct s.
  rewrite normalize_with_ids, Hn. cbn [bind].
  destruct (normalize_keeps_ids _ _ Hn) as (_ & <-). now destruct n.
Qed.

(** The spec as the store holds it for a request. *)
Lemma getByRequestId_bound st k v id :
  storeKept st ->
  getByRequestId st id = None ->
  hasRequestId id v = true ->
  getByRequestId {| _data := oset k v (_data st);
                    _patternMods := _patternMods st |} id = Some v.
Proof.
  intros Hok Hnone Hv. unfold getByRequestId in *. cbn [_data].
  apply getByRequestIdLoop_oset; auto.
  - apply Hok.
  - intros k' s' Hin _. eapply getByRequestIdLoop_None_inv; eauto.
Qed.

Lemma hasRequestId_bound n id k :
  hasRequestId id (with_key (with_requestId n (Some (Some id))) k) = true.
Proof. unfold hasRequestId. simpl. apply streq_refl. Qed.

(** X18: a request from its tagged URL to its response.  Let the URL of a
    request be u, the delimiter and the slash-free token of a
    JSON-representable spec none of whose parts is [null] and that gives
    no value to a header named [hasOwnProperty], u holding no line
    terminator, and let no stored spec carry the identifier of the request
    that follows.  Then the request listener redirects to u; for the
    request to u in the same tab and frame the request-header listener
    returns the request headers with the headers of the normalised spec
    set and its [remove] names removed; and for a response to that request
    that is no redirect the response listener returns the response headers
    changed likewise by the [response] part of the spec.  With [opts.once]
    set the store is then what [remove] for the tab, frame and u makes of
    the store before the request; otherwise it holds the normalised spec,
    bound to the request identifier, under the key of the tab, frame and
    u. *)
Theorem tagged_request_lifecycle st d1 d2 d3 u s token :
  reachable st ->
  JSON_representable s ->
  withoutNull s -> noOwnRequestHeader s -> noOwnResponseHeader s ->
  b64EncodeUnicode (JSON_stringify s) = Ok token ->
  noSlash token = true -> noLineTerminator u = true ->
  details.url d1 = u ++ delimiter ++ token ->
  details.url d2 = u ->
  details.tabId d2 = details.tabId d1 ->
  details.frameId d2 = details.frameId d1 ->
  details.requestId d3 = details.requestId d2 ->
  getByRequestId st (details.requestId d2) = None ->
  isRedirectStatus (details.statusCode d3) = false ->
  let k := makeKey (details.tabId d1) (details.frameId d1) u in
  let stored n id :=
    {| _data := oset k (with_key (with_requestId n (Some id)) (Some k))
                     (_data st);
       _patternMods := _patternMods st |} in
  exists n toSet toRemove rSet rRemove sent received,
    _normalizeTamperSpec (Some (Some s)) = Ok n /\
    headers n = Some (Some toSet) /\ remove n = Some (Some toRemove) /\
    response n =
      Some (Some {| r_headers := Some (Some rSet);
                    r_remove := Some (Some rRemove) |}) /\
    setHeaders (details.requestHeaders d2) toSet = Ok sent /\
    setHeaders (details.responseHeaders d3) rSet = Ok received /\
    onBeforeRequest st d1 = (stored n None, Ok (Some u)) /\
    onBeforeSendHeaders (stored n None) d2 =
      (stored n (Some (details.requestId d2)),
       Ok (Some (removeHeaders sent toRemove))) /\
    onHeadersReceived (stored n (Some (details.requestId d2))) d3 =
      (if isOnce n
       then remove_ st (details.tabId d1) (details.frameId d1) u
       else stored n (Some (details.requestId d2)),
       Ok (Some (removeHeaders received rRemove))).
Proof.
  intros Hreach [Hwf Hparse] Hplain Hown Hown' Henc Hslash Hu Hurl1 Hurl2
    Htab Hframe Hid Hfresh Hstatus k stored.
  pose proof (reachable_storeKept _ Hreach) as Hok.
  destruct (b64_roundtrip _ Hwf) as (token' & Henc' & Hdec & Hchars).
  rewrite Henc in Henc'. injection Henc' as <-.
  destruct (normalize_total (Some (Some s)) Hplain)
    as (n & h & r & rh & rr & o & Hrun & Hn & _).
  pose proof (normalize_Ok_normalized (Some (Some s)) _ Hplain Hrun)
    as Hnorm.
  pose proof (normalize_requestCallable _ _ Hrun Hown) as Hcall.
  pose proof (normalize_responseCallable _ _ Hrun Hown') as Hcall'.
  assert (Hh : headers n = Some (Some h)) by now rewrite Hn.
  assert (Hr : remove n = Some (Some r)) by now rewrite Hn.
  assert (Hresp : response n =
                  Some (Some {| r_headers := Some (Some rh);
                                r_remove := Some (Some rr) |}))
    by now rewrite Hn.
  assert (Ho : opts n = Some (Some o)) by now rewrite Hn.
  assert (Hph : plainNames h) by (apply Hcall; exact Hh).
  assert (Hprh : plainNames rh) by (eapply Hcall'; [exact Hresp|reflexivity]).
  exists n, h, r, rh, rr.
  exists (fold_left setHeader h (details.requestHeaders d2)),
         (fold_left setHeader rh (details.responseHeaders d3)).
  split; [exact Hrun|]. split; [exact Hh|]. split; [exact Hr|].
  split; [exact Hresp|].
  split; [now apply setHeaders_plain|].
  split; [now apply setHeaders_plain|]. split; [|split].
  - unfold onBeforeRequest. rewrite Hurl1, matchTag_tagged by assumption.
    unfold decodeReqModifyOpts. rewrite Hdec. cbn [bind]. rewrite Hparse.
    rewrite set_outcome.
    rewrite (normalize_with_requestId s (Some None) n Hrun).
    reflexivity.
  - rewrite (onBeforeSendHeaders_run (stored n None) d2
               (with_key (with_requestId n (Some None)) (Some k))
               (removeHeaders
                  (fold_left setHeader h (details.requestHeaders d2)) r)).
    + rewrite Hurl2, Htab, Hframe. fold k. unfold stored. cbn [_data].
      now rewrite oset_oset.
    + rewrite get_unfold, Hurl2, Htab, Hframe. fold k.
      unfold stored. cbn [_data]. now rewrite oget_oset_same.
    + apply settled_with_key, settled_with_requestId.
      now apply settled_normalized.
    + rewrite tamperRequest_outcome. cbn [with_key with_requestId headers
        remove]. now rewrite Hh, Hr, Hph.
  - set (bound := with_key (with_requestId n
                              (Some (Some (details.requestId d2))))
                           (Some k)).
    rewrite (onHeadersReceived_terminal _ d3 bound k
               (Some (removeHeaders
                        (fold_left setHeader rh (details.responseHeaders d3))
                        rr),
                removeHeaders
                  (fold_left setHeader rh (details.responseHeaders d3)) rr)
               o).
    + f_equal.
      change (isOnce bound) with (isOnce n).
      destruct (isOnce n); [|reflexivity].
      unfold remove_, removeDirect, stored. cbn [_data _patternMods].
      fold k. now rewrite odelete_oset.
    + rewrite Hid. apply getByRequestId_bound; auto.
      apply hasRequestId_bound.
    + reflexivity.
    + exact Ho.
    + assumption.
    + rewrite tamperResponse_outcome.
      change (response bound) with (response n). rewrite Hresp.
      cbn [r_headers r_remove]. now rewrite Hprh.
Qed.

(** X19: [opts.once] does not retire a pattern.  Let no direct entry
    exist for the tab, frame and URL of a request, let the scan be able to
    test the pattern entries, let the first pattern that applies to the
    URL carry a spec with [opts.once] set that sets no header named
    [hasOwnProperty], and let no stored spec carry the request identifier.
    The request-header listener then stores the spec, bound to the
    request, under the key of the request; after a response that is no
    redirect the response listener deletes just that entry, so that the
    store is again exactly what it was before the request and [get]
    returns the spec of the pattern for the next request to the URL as
    well. *)
Theorem once_keeps_pattern st d2 d3 e spec :
  reachable st ->
  Forall testable (_patternMods st) ->
  let k := makeKey (details.tabId d2) (details.frameId d2) (details.url d2) in
  getDirect st k = None ->
  find (matchesUrl (details.url d2)) (_patternMods st) = Some e ->
  tamper e = Some (Some spec) ->
  isOnce spec = true ->
  requestCallable spec -> responseCallable spec ->
  getByRequestId st (details.requestId d2) = None ->
  details.requestId d3 = details.requestId d2 ->
  isRedirectStatus (details.statusCode d3) = false ->
  let st2 := fst (onBeforeSendHeaders st d2) in
  let st3 := fst (onHeadersReceived st2 d3) in
  getDirect st2 k =
    Some (with_key (with_requestId spec
                      (Some (Some (details.requestId d2)))) (Some k)) /\
  st3 = st /\
  get st3 (details.tabId d2) (details.frameId d2) (details.url d2) =
    Ok (Some spec).
Proof.
  intros Hreach Htest k Hdirect Hfind Htamper Honce Hcall Hcall' Hfresh Hid
    Hstatus.
  pose proof (reachable_storeKept _ Hreach) as Hok.
  assert (Hnone : oget k (_data st) = None).
  { unfold getDirect in Hdirect. now destruct (oget k (_data st)). }
  assert (Hres : resolve matchesUrl st (details.tabId d2)
                   (details.frameId d2) (details.url d2) = Some spec).
  { unfold resolve. fold k. now rewrite Hnone, Hfind, Htamper. }
  pose proof (get_resolve st (details.tabId d2) (details.frameId d2)
                (details.url d2) Hok Htest) as Hget.
  rewrite Hres in Hget.
  pose proof (resolve_settled _ _ _ _ _ Hok Hres) as Hn.
  destruct (tamperRequest_callable spec (details.requestHeaders d2) Hcall)
    as (sent & Hsent).
  set (bound := with_key (with_requestId spec
                            (Some (Some (details.requestId d2))))
                         (Some k)).
  destruct (tamperResponse_callable bound (details.responseHeaders d3))
    as (received & Hreceived).
  { intros resp toSet. apply Hcall'. }
  assert (Ho : exists o, opts spec = Some (Some o)).
  { unfold isOnce in Honce. destruct (opts spec) as [[o|]|];
      [eauto|discriminate|discriminate]. }
  destruct Ho as (o & Ho).
  intros st2 st3.
  assert (Hst2 : st2 = {| _data := oset k bound (_data st);
                          _patternMods := _patternMods st |}).
  { unfold st2. now rewrite (onBeforeSendHeaders_run st d2 spec sent). }
  assert (Hst3 : st3 = st).
  { unfold st3. rewrite Hst2.
    rewrite (onHeadersReceived_terminal _ d3 bound k received o).
    - change (isOnce bound) with (isOnce spec). rewrite Honce.
      unfold removeDirect. cbn [fst _data _patternMods].
      rewrite odelete_oset_absent by exact Hnone. now destruct st.
    - rewrite Hid. apply getByRequestId_bound; auto.
      apply hasRequestId_bound.
    - reflexivity.
    - exact Ho.
    - assumption.
    - exact Hreceived. }
  split; [|split].
  - rewrite Hst2. unfold getDirect, deepClone. cbn [_data].
    now rewrite oget_oset_same.
  - exact Hst3.
  - now rewrite Hst3.
Qed.

(** ** Messages *)

(** X20: the message listener, case by case.  It answers with a success
    only to a [MetaTamper] message whose options [addPattern] accepts, the
    store then being the one [addPattern] leaves; it answers with a
    failure only to a message without a command; in every other case -- an
    echo request, a [MetaTamper] message that [addPattern] refuses or that
    has no options, the command [RegisterCb], an unknown command -- the
    store is left as it was, and a message it throws on or does not know
    gets no answer at all.  The direct map is never changed. *)
Theorem onMessage_outcome st msg :
  _data (fst (onMessage st msg)) = _data st /\
  match snd (onMessage st msg) with
  | Ok (Some (Outcome true _)) =>
      command msg = Some (str "MetaTamper") /\
      exists params,
        options msg = Some params /\
        addPattern st params = Ok (fst (onMessage st msg))
  | Ok (Some (Outcome false _)) =>
      (command msg = None \/ command msg = Some []) /\
      fst (onMessage st msg) = st
  | Ok (Some (Text _)) =>
      command msg = Some (str "sendBackground") /\
      fst (onMessage st msg) = st
  | Ok None =>
      (exists cmd,
         command msg = Some cmd /\
         ~ In cmd [[]; str "sendBackground"; str "RegisterCb";
                   str "MetaTamper"]) /\
      fst (onMessage st msg) = st
  | Throw e =>
      (command msg = Some (str "RegisterCb") /\ e = Error "not implemented."
       \/
       command msg = Some (str "MetaTamper") /\
       addMetaTamper st (options msg) = Throw e) /\
      fst (onMessage st msg) = st
  end.
Proof.
  unfold onMessage.
  destruct (command msg) as [cmd|]; [|simpl; auto].
  destruct (streq cmd []) eqn:E0.
  { apply streq_true in E0. subst. simpl. auto. }
  destruct (streq cmd (str "sendBackground")) eqn:E1.
  { apply streq_true in E1. subst. simpl. auto. }
  destruct (streq cmd (str "RegisterCb")) eqn:E2.
  { apply streq_true in E2. subst. simpl. auto. }
  destruct (streq cmd (str "MetaTamper")) eqn:E3.
  - apply streq_true in E3. subst.
    destruct (addMetaTamper st (options msg)) as [st'|e] eqn:Ea.
    + cbn [fst snd]. unfold addMetaTamper in Ea.
      destruct (options msg) as [params|]; [|discriminate].
      split.
      * apply addPattern_Ok in Ea. destruct Ea as (_ & t & n & _ & _ & ->).
        reflexivity.
      * split; [reflexivity|]. exists params. auto.
    + cbn [fst snd]. auto.
  - cbn [fst snd]. split; [reflexivity|]. split; [|reflexivity].
    exists cmd. split; [reflexivity|].
    apply streq_false in E0, E1, E2, E3. simpl. intuition congruence.
Qed.
End Laws.


(** ** The claims at concrete inputs, on the reference host *)

Lemma reachable_storePatterns : reachable storePatterns.
Proof.
  apply (reach_addPattern _ _ (run (addPattern newTamperStore patternUrlX))
                          patternRegexX); [|exact I|reflexivity].
  apply (reach_addPattern _ _ newTamperStore patternUrlX);
    [|exact I|reflexivity].
  apply reach_new.
Defined.

Lemma reachable_storeBound : reachable storeBound.
Proof.
  apply (reach_set _ _ newTamperStore 1 0 urlA (Some (Some specBound)));
    [|exact I|reflexivity].
  apply reach_new.
Defined.

Lemma reachable_storeBoundPattern : reachable storeBoundPattern.
Proof.
  apply (reach_set _ _ (run (addPattern newTamperStore patternUrlA)) 1 0 urlA
                   (Some (Some specBound))); [|exact I|reflexivity].
  apply (reach_addPattern _ _ newTamperStore patternUrlA);
    [|exact I|reflexivity].
  apply reach_new.
Defined.

Lemma withoutNull_emptySpec : withoutNull emptySpec.
Proof. typedef_spec. Defined.

Lemma withoutNull_specBound : withoutNull specBound.
Proof. typedef_spec. Defined.

Lemma reachablePlain_storeBoundPattern : reachablePlain storeBoundPattern.
Proof.
  apply (reach_set _ _ (run (addPattern newTamperStore patternUrlA)) 1 0 urlA
                   (Some (Some specBound)));
    [|exact withoutNull_specBound|reflexivity].
  apply (reach_addPattern _ _ newTamperStore patternUrlA); [| |reflexivity].
  - apply reach_new.
  - constructor; try discriminate. exact withoutNull_emptySpec.
Defined.

Lemma reachable_storeOnce : reachable storeOnce.
Proof.
  apply (reach_set _ _ newTamperStore 1 0 urlA (Some (Some specOnce)));
    [|exact I|reflexivity].
  apply reach_new.
Defined.

Lemma reachable_storeTwice : reachable storeTwice.
Proof.
  apply (reach_set _ _ storeOnce 1 0 urlB (Some (Some specOnce)));
    [|exact I|reflexivity].
  apply reachable_storeOnce.
Defined.

Lemma reachable_storeBoth : reachable storeBoth.
Proof.
  apply (reach_addPattern _ _ newTamperStore patternBoth);
    [|exact I|reflexivity].
  apply reach_new.
Defined.

Lemma reachable_storeUnclosed : reachable storeUnclosed.
Proof.
  apply (reach_addPattern _ _ (run (addPattern newTamperStore patternUrlX))
                          patternUnclosed); [|exact I|reflexivity].
  apply (reach_addPattern _ _ newTamperStore patternUrlX);
    [|exact I|reflexivity].
  apply reach_new.
Defined.

Lemma reachable_storeNullParts : reachable storeNullParts.
Proof.
  apply (reach_set _ _ newTamperStore 1 0 urlA (Some (Some specNullParts)));
    [|exact I|reflexivity].
  apply reach_new.
Defined.

Lemma reachable_storeOwnResponse : reachable storeOwnResponse.
Proof.
  apply (reach_set _ _ newTamperStore 1 0 urlA (Some (Some specOwnResponse)));
    [|exact I|reflexivity].
  apply reach_new.
Defined.

(** C1 at two patterns that both apply to the URL. *)
Lemma get_resolution_witness :
  reachable storePatterns /\
  ((forall s, oget (makeKey 1 0 urlX) (_data storePatterns) = Some s ->
              get storePatterns 1 0 urlX = Ok (Some s)) /\
   (Forall testable (_patternMods storePatterns) ->
    get storePatterns 1 0 urlX =
      Ok (resolve matchesUrl storePatterns 1 0 urlX)) /\
   (forall r, get storePatterns 1 0 urlX = Ok r ->
              r = resolve matchesUrl storePatterns 1 0 urlX) /\
   (forall x, get storePatterns 1 0 urlX = Throw x ->
              (x = SyntaxError \/ x = TypeError) /\
              oget (makeKey 1 0 urlX) (_data storePatterns) = None /\
              exists e, In e (_patternMods storePatterns) /\ ~ testable e) /\
   (forall params st',
       addPattern storePatterns params = Ok st' ->
       testable params ->
       matchesUrl urlX params = true ->
       oget (makeKey 1 0 urlX) (_data storePatterns) = None ->
       exists n,
         _normalizeTamperSpec (tamper params) = Ok n /\
         get st' 1 0 urlX = Ok (Some n))).
Proof.
  split; [exact reachable_storePatterns|].
  exact (get_resolution storePatterns 1 0 urlX reachable_storePatterns).
Defined.

(** C1 as stated fails on an association that has both an (empty) list of
    regexes and a list of urls holding the URL: the claim resolves to its
    spec, [get] returns [null]; and it fails on an association with a
    regular expression that cannot be made: [get] throws a SyntaxError. *)
Lemma get_counterexample :
  reachable storeBoth /\
  resolve matchesEither storeBoth 1 0 urlX <> None /\
  get storeBoth 1 0 urlX = Ok None /\
  reachable storeUnclosed /\
  get storeUnclosed 1 0 urlX = Throw SyntaxError /\
  ~ get_as_stated.
Proof.
  split; [exact reachable_storeBoth|]. split; [discriminate|].
  split; [reflexivity|]. split; [exact reachable_storeUnclosed|].
  split; [reflexivity|]. intros H.
  specialize (H storeBoth 1 0 urlX reachable_storeBoth).
  vm_compute in H. discriminate.
Qed.

(** C6 at a header list with one header to overwrite and one to add. *)
Lemma setHeaders_spec_witness :
  let hs := [{| name := str "X-Foo"; value := Some (Some (str "a")) |}] in
  let toSet := [(str "x-foo", Some (str "b"));
                (str "Origin", Some (str "o"))] in
  distinctNames toSet /\
  ((plainNames toSet ->
    setHeaders hs toSet =
      Ok (map (overwritten toSet) hs ++ appended hs toSet)) /\
   (~ plainNames toSet -> setHeaders hs toSet = Throw TypeError) /\
   (toLowerCase (str "x-foo") = toLowerCase (str "X-Foo") ->
    setHeaders [{| name := str "X-Foo"; value := Some (Some (str "a")) |}]
               [(str "x-foo", Some (str "b"))] =
    Ok [{| name := str "X-Foo"; value := Some (Some (str "b")) |}])).
Proof.
  intros hs toSet.
  assert (H : distinctNames toSet).
  { unfold distinctNames. vm_compute.
    repeat constructor; simpl; intuition discriminate. }
  split; [exact H|]. exact (setHeaders_spec hs toSet H).
Defined.

(** C6 as stated fails on two names equal up to case: the claim appends a
    header for each, [setHeaders] appends one and overwrites it; and it
    fails on an entry named [hasOwnProperty], on which [setHeaders]
    throws. *)
Lemma setHeaders_counterexample :
  let toSet := [(str "A", Some (str "1")); (str "a", Some (str "2"))] in
  setHeaders [] toSet =
    Ok [{| name := str "A"; value := Some (Some (str "2")) |}] /\
  map (overwritten toSet) [] ++ appended [] toSet =
    [{| name := str "A"; value := Some (Some (str "1")) |};
     {| name := str "a"; value := Some (Some (str "2")) |}] /\
  setHeaders [] [(str "hasOwnProperty", Some (str "x"))] = Throw TypeError /\
  ~ setHeaders_as_stated.
Proof.
  intros toSet. split; [reflexivity|]. split; [reflexivity|].
  split; [reflexivity|].
  intros H. specialize (H [] toSet). vm_compute in H. discriminate.
Qed.



(** C10 at a store with a pattern and a direct entry. *)
Lemma store_invariant_witness :
  reachablePlain storeBoundPattern /\
  (storeOk storeBoundPattern /\
   (forall tabId frameId url r,
       get storeBoundPattern tabId frameId url = Ok r ->
       forall s, r = Some s -> normalized s) /\
   (Forall testable (_patternMods storeBoundPattern) ->
    forall tabId frameId url,
      exists r, get storeBoundPattern tabId frameId url = Ok r) /\
   (forall id s, getByRequestId storeBoundPattern id = Some s ->
                 normalized s)).
Proof.
  split; [exact reachablePlain_storeBoundPattern|].
  exact (store_invariant storeBoundPattern reachablePlain_storeBoundPattern).
Defined.

(** C10 as stated fails on a spec with parts that are [null]: [set]
    accepts it and stores it with these parts [null], and [get] returns
    it. *)
Lemma store_invariant_counterexample :
  reachable storeNullParts /\
  (exists s, get storeNullParts 1 0 urlA = Ok (Some s) /\
             headers s = Some None /\ opts s = Some None) /\
  ~ storeOk storeNullParts /\
  ~ store_invariant_as_stated.
Proof.
  assert (Hno : ~ storeOk storeNullParts).
  { intros [Hd _ _]. vm_compute in Hd. inversion Hd as [|kv l Hkv _]; subst.
    destruct Hkv as [[(h & Hh & _) _ _ _] _]. discriminate. }
  split; [exact reachable_storeNullParts|].
  split; [eexists; repeat split; reflexivity|].
  split; [exact Hno|].
  intros H. exact (Hno (H storeNullParts reachable_storeNullParts)).
Qed.

(** C9 at a bound spec that sets no header and a 302 response without
    headers. *)
Lemma redirect_without_location_witness :
  let d := event urlA 302 [] in
  let spec := boundSpec None (makeKey 1 0 urlA) in
  getByRequestId storeBound (details.requestId d) = Some spec /\
  isRedirectStatus (details.statusCode d) = true /\
  ((hasHeader (details.responseHeaders d) (str "Location") = false ->
    setsNoLocation spec -> responseCallable spec ->
    locationSeen spec (details.responseHeaders d) = Ok (Some None)) /\
   (locationSeen spec (details.responseHeaders d) = Ok (Some None) ->
    onHeadersReceived storeBound d = (storeBound, Throw (Error noLocation))) /\
   (forall e, locationSeen spec (details.responseHeaders d) = Throw e ->
              e = TypeError /\
              onHeadersReceived storeBound d = (storeBound, Throw TypeError)) /\
   (forall target,
       locationSeen spec (details.responseHeaders d) = Ok target ->
       target <> Some None ->
       snd (onHeadersReceived storeBound d) <> Throw (Error noLocation))).
Proof.
  intros d spec.
  assert (H1 : getByRequestId storeBound (details.requestId d) = Some spec)
    by reflexivity.
  assert (H2 : isRedirectStatus (details.statusCode d) = true)
    by reflexivity.
  split; [exact H1|]. split; [exact H2|].
  exact (redirect_without_location storeBound d spec H1 H2).
Defined.

(** C9 as stated fails on a spec that sets the response header
    [Location]: the 302 response has no such header, yet the listener does
    not throw; it returns the changed headers and stores the spec under the
    URL the spec names.  It fails as well on a spec that sets a response
    header named [hasOwnProperty]: the listener throws a TypeError, not the
    error of [checkIfRedirect]. *)
Lemma malformed_redirect_counterexample :
  let d := event urlA 302 [] in
  getByRequestId storeSetsLocation (details.requestId d) =
    Some storedSetsLocation /\
  isRedirectStatus (details.statusCode d) = true /\
  hasHeader (details.responseHeaders d) (str "Location") = false /\
  snd (onHeadersReceived storeSetsLocation d) = Ok (Some [locationB]) /\
  okeys (_data (fst (onHeadersReceived storeSetsLocation d))) =
    [makeKey 1 0 urlB] /\
  onHeadersReceived storeOwnResponse d = (storeOwnResponse, Throw TypeError) /\
  ~ malformed_redirect_as_stated.
Proof.
  intros d. repeat (split; [reflexivity|]).
  intros H.
  specialize (H storeSetsLocation d storedSetsLocation
                eq_refl eq_refl eq_refl).
  vm_compute in H. discriminate.
Qed.

(** C5 at a one-shot spec and a 200 response. *)
Lemma terminal_response_witness :
  let d := event urlA 200 [] in
  let k := makeKey 1 0 urlA in
  let spec := boundSpec (Some (Some true)) k in
  reachable storeOnce /\
  In (k, spec) (_data storeOnce) /\
  hasRequestId (details.requestId d) spec = true /\
  onlyBearer storeOnce (details.requestId d) k /\
  isRedirectStatus (details.statusCode d) = false /\
  ((responseCallable spec ->
    exists out, tamperResponse spec (details.responseHeaders d) = Ok out) /\
   (forall out,
       tamperResponse spec (details.responseHeaders d) = Ok out ->
       if isOnce spec then
         onHeadersReceived storeOnce d =
           (removeDirect storeOnce k, Ok (fst out)) /\
         getDirect (removeDirect storeOnce k) k = None /\
         getByRequestId (removeDirect storeOnce k) (details.requestId d) =
           None
       else
         fst (onHeadersReceived storeOnce d) = storeOnce /\
         getByRequestId storeOnce (details.requestId d) = Some spec /\
         (forall o, opts spec = Some (Some o) ->
                    onHeadersReceived storeOnce d =
                      (storeOnce, Ok (fst out)))) /\
   (forall e,
       tamperResponse spec (details.responseHeaders d) = Throw e ->
       e = TypeError /\
       onHeadersReceived storeOnce d = (storeOnce, Throw TypeError))).
Proof.
  intros d k spec.
  assert (H1 : In (k, spec) (_data storeOnce)) by (left; reflexivity).
  assert (H2 : hasRequestId (details.requestId d) spec = true)
    by reflexivity.
  assert (H3 : onlyBearer storeOnce (details.requestId d) k).
  { intros k' s' [E|[]] _. now injection E as <- _. }
  assert (H4 : isRedirectStatus (details.statusCode d) = false)
    by reflexivity.
  repeat (split; [assumption || exact reachable_storeOnce|]).
  exact (terminal_response storeOnce d k spec reachable_storeOnce
                           H1 H2 H3 H4).
Defined.

(** C5 as stated fails when two stored specs carry the request
    identifier: the one-shot spec found first is deleted, and the lookup by
    the identifier then returns the other.  It fails as well on a one-shot
    spec that sets a response header named [hasOwnProperty]: the listener
    throws and the spec stays in the store. *)
Lemma retirement_counterexample :
  let d := event urlA 200 [] in
  let k := makeKey 1 0 urlA in
  let spec := boundSpec (Some (Some true)) k in
  reachable storeTwice /\
  In (k, spec) (_data storeTwice) /\
  hasRequestId (details.requestId d) spec = true /\
  isRedirectStatus (details.statusCode d) = false /\
  isOnce spec = true /\
  getByRequestId (fst (onHeadersReceived storeTwice d)) (details.requestId d) =
    Some (boundSpec (Some (Some true)) (makeKey 1 0 urlB)) /\
  reachable storeOwnResponse /\
  onHeadersReceived storeOwnResponse d = (storeOwnResponse, Throw TypeError) /\
  (exists s, getDirect storeOwnResponse k = Some s /\ isOnce s = true) /\
  ~ retirement_as_stated.
Proof.
  intros d k spec. split; [exact reachable_storeTwice|].
  split; [left; reflexivity|]. repeat (split; [reflexivity|]).
  split; [exact reachable_storeOwnResponse|]. split; [reflexivity|].
  split; [eexists; split; reflexivity|].
  intros H.
  specialize (H storeTwice d k spec reachable_storeTwice
                (or_introl eq_refl) eq_refl eq_refl).
  vm_compute in H. destruct H as [_ H]. discriminate.
Qed.

(** C2 at a spec stored for [http://a] and a 302 response to
    [http://b]. *)
Lemma redirect_rekeys_witness :
  let d := event urlA 302 [locationB] in
  let spec := boundSpec None (makeKey 1 0 urlA) in
  let keyB := makeKey (details.tabId d) (details.frameId d) urlB in
  reachable storeBound /\
  oget (makeKey (details.tabId d) (details.frameId d) urlA)
       (_data storeBound) = Some spec /\
  getByRequestId storeBound (details.requestId d) = Some spec /\
  isRedirectStatus (details.statusCode d) = true /\
  locationSeen spec (details.responseHeaders d) = Ok (Some (Some urlB)) /\
  urlA <> urlB /\
  (setsNoLocation spec -> removesNoLocation spec ->
   getHeader (details.responseHeaders d) (str "Location") =
     Some (Some urlB)) /\
  exists st' out,
    tamperResponse spec (details.responseHeaders d) = Ok out /\
    onHeadersReceived storeBound d = (st', Ok (fst out)) /\
    getDirect st' (makeKey (details.tabId d) (details.frameId d) urlA) =
      None /\
    get st' (details.tabId d) (details.frameId d) urlA =
      _scanPatternMods storeBound urlA /\
    get st' (details.tabId d) (details.frameId d) urlB =
      Ok (Some (with_key spec (Some keyB))).
Proof.
  intros d spec keyB.
  assert (H1 : oget (makeKey (details.tabId d) (details.frameId d) urlA)
                    (_data storeBound) = Some spec) by reflexivity.
  assert (H2 : getByRequestId storeBound (details.requestId d) = Some spec)
    by reflexivity.
  assert (H3 : isRedirectStatus (details.statusCode d) = true)
    by reflexivity.
  assert (H4 : locationSeen spec (details.responseHeaders d) =
               Ok (Some (Some urlB)))
    by reflexivity.
  assert (H5 : urlA <> urlB) by discriminate.
  repeat (split; [assumption || exact reachable_storeBound|]).
  exact (redirect_rekeys storeBound d spec urlA urlB reachable_storeBound
                         H1 H2 H3 H4 H5).
Defined.

(** C2 as stated fails when a pattern applies to the first URL: after the
    redirect [get] for it returns the spec of the pattern, not [null]. *)
Lemma redirect_counterexample :
  let d := event urlA 302 [locationB] in
  let spec := boundSpec None (makeKey 1 0 urlA) in
  reachable storeBoundPattern /\
  oget (makeKey (details.tabId d) (details.frameId d) urlA)
       (_data storeBoundPattern) = Some spec /\
  hasRequestId (details.requestId d) spec = true /\
  isRedirectStatus (details.statusCode d) = true /\
  getHeader (details.responseHeaders d) (str "Location") =
    Some (Some urlB) /\
  get (fst (onHeadersReceived storeBoundPattern d)) 1 0 urlA <> Ok None /\
  ~ redirect_as_stated.
Proof.
  intros d spec. split; [exact reachable_storeBoundPattern|].
  repeat (split; [reflexivity|]). split; [discriminate|].
  intros H.
  specialize (H storeBoundPattern d spec urlA urlB
                reachable_storeBoundPattern eq_refl eq_refl eq_refl eq_refl).
  vm_compute in H. destruct H as [H _]. discriminate.
Qed.

(** C4 at a spec with text beyond ASCII; the empty object survives as
    well. *)
Lemma decode_inverts_encode_witness :
  JSON_representable specUnicode /\
  exists token,
    b64EncodeUnicode (JSON_stringify specUnicode) = Ok token /\
    decodeReqModifyOpts token = Ok (Some specUnicode).
Proof.
  assert (H : JSON_representable specUnicode) by (split; reflexivity).
  split; [exact H|]. exact (decode_inverts_encode specUnicode H).
Defined.

Example empty_object_round_trip :
  JSON_stringify emptySpec = str "{}" /\
  b64EncodeUnicode (JSON_stringify emptySpec) = Ok (str "e30=") /\
  decodeReqModifyOpts (str "e30=") = Ok (Some emptySpec).
Proof. repeat split. Qed.

(** C3 at the spec of the end-to-end scenario. *)
Lemma tagged_url_recognized_witness :
  let d := event (urlX ++ delimiter ++ tokenOrigin) 0 [] in
  let k := makeKey (details.tabId d) (details.frameId d) urlX in
  JSON_representable specOrigin /\
  b64EncodeUnicode (JSON_stringify specOrigin) = Ok tokenOrigin /\
  noSlash tokenOrigin = true /\
  noLineTerminator urlX = true /\
  details.url d = urlX ++ delimiter ++ tokenOrigin /\
  (Forall (fun c => isBase64Char c = true) tokenOrigin /\
   makeUrl urlX specOrigin = Ok (details.url d) /\
   match _normalizeTamperSpec
           (Some (Some (with_requestId specOrigin (Some None)))) with
   | Ok n =>
       requestId n = Some None /\
       onBeforeRequest newTamperStore d =
         ({| _data := oset k (with_key n (Some k)) (_data newTamperStore);
             _patternMods := _patternMods newTamperStore |},
          Ok (Some urlX)) /\
       get (fst (onBeforeRequest newTamperStore d))
           (details.tabId d) (details.frameId d) urlX =
         Ok (Some (with_key n (Some k)))
   | Throw e => onBeforeRequest newTamperStore d = (newTamperStore, Throw e)
   end /\
   (withoutNull specOrigin ->
    exists n,
      _normalizeTamperSpec
        (Some (Some (with_requestId specOrigin (Some None)))) = Ok n /\
      normalized n)).
Proof.
  intros d k.
  assert (H1 : JSON_representable specOrigin) by (split; reflexivity).
  assert (H2 : b64EncodeUnicode (JSON_stringify specOrigin) = Ok tokenOrigin)
    by reflexivity.
  assert (H3 : noSlash tokenOrigin = true)
    by reflexivity.
  assert (H4 : noLineTerminator urlX = true)
    by reflexivity.
  assert (H5 : details.url d = urlX ++ delimiter ++ tokenOrigin)
    by reflexivity.
  repeat (split; [assumption|]).
  exact (tagged_url_recognized newTamperStore d urlX specOrigin tokenOrigin
                               H1 H2 H3 H4 H5).
Defined.

(** C3 as stated fails on a spec whose token holds a slash: the tagged URL
    is not recognised and the request listener does nothing. *)
Lemma tagging_counterexample :
  let token := str "eyJoZWFkZXJzIjp7ImEiOiI/In19" in
  let d := event (urlX ++ delimiter ++ token) 0 [] in
  JSON_representable specQuestion /\
  makeUrl urlX specQuestion = Ok (details.url d) /\
  noSlash token = false /\
  onBeforeRequest newTamperStore d = (newTamperStore, Ok None) /\
  ~ tagging_as_stated.
Proof.
  intros token d.
  assert (H : JSON_representable specQuestion) by (split; reflexivity).
  split; [exact H|]. repeat (split; [reflexivity|]).
  intros Hc.
  destruct (Hc newTamperStore d urlX specQuestion H)
    as (token' & Henc & Hslash & _).
  vm_compute in Henc. injection Henc as <-.
  vm_compute in Hslash. discriminate.
Qed.

(** The end-to-end scenario: a pattern applies to the request, the headers
    sent carry the header of its spec, and the spec is stored under the
    request identifier. *)
Example end_to_end :
  let st := run (addPattern newTamperStore patternUrlX) in
  let d := event urlX 0 [] in
  onBeforeRequest st d = (st, Ok None) /\
  snd (onBeforeSendHeaders st d) =
    Ok (Some [{| name := str "Origin";
                 value := Some (Some (str "evil.test")) |}]) /\
  exists s, getByRequestId (fst (onBeforeSendHeaders st d)) (str "7") = Some s.
Proof.
  repeat split. eexists. reflexivity.
Qed.

(** The later of two patterns that apply is the one [get] returns. *)
Example recent_pattern_wins :
  exists n,
    _normalizeTamperSpec (Some (Some specQuestion)) = Ok n /\
    get storePatterns 1 0 urlX = Ok (Some n).
Proof. eexists. split; reflexivity. Qed.

(** A redirect whose [Location] header has no [value]: the listener does
    not throw; it stores the spec under the key made with the name of
    [undefined]. *)
Example location_without_value :
  let d := event urlA 302 [locationBinary] in
  snd (onHeadersReceived storeBound d) = Ok (Some [locationBinary]) /\
  okeys (_data (fst (onHeadersReceived storeBound d))) =
    [str "1::0::undefined"].
Proof. split; reflexivity. Qed.

(** A spec that sets a header named [hasOwnProperty] makes the
    request-header listener throw, so that the header it maps to [null]
    is sent all the same. *)
Example own_property_throws :
  let st := run (set newTamperStore 1 0 urlA (Some (Some specOwnProperty))) in
  let d := event urlA 0 [] in
  onBeforeSendHeaders st d = (st, Throw TypeError).
Proof. reflexivity. Qed.

(** A token that decodes to [null] makes the request listener throw. *)
Example null_token_throws :
  let d := event (urlX ++ delimiter ++ str "bnVsbA==") 0 [] in
  decodeReqModifyOpts (str "bnVsbA==") = Ok None /\
  onBeforeRequest newTamperStore d = (newTamperStore, Throw TypeError).
Proof. split; reflexivity. Qed.


(** ** The further properties at concrete inputs, on the reference host *)

Lemma reachable_storeOncePattern : reachable storeOncePattern.
Proof.
  apply (reach_addPattern _ _ newTamperStore patternOnceA);
    [|exact I|reflexivity].
  apply reach_new.
Defined.

(** X8 at a first pattern. *)
Lemma addPattern_then_get_witness :
  let st' := run (addPattern newTamperStore patternUrlX) in
  addPattern newTamperStore patternUrlX = Ok st' /\
  exists t n,
    tamper patternUrlX = Some t /\ _normalizeTamperSpec (Some t) = Ok n /\
    (forall tabId frameId url,
        get st' tabId frameId url =
        match getDirect newTamperStore (makeKey tabId frameId url) with
        | Some s => Ok (Some s)
        | None =>
            match entryMatched url patternUrlX with
            | Ok true => Ok (Some n)
            | Ok false => get newTamperStore tabId frameId url
            | Throw e => Throw e
            end
        end) /\
    (testable patternUrlX ->
     forall url, entryMatched url patternUrlX = Ok (matchesUrl url patternUrlX)).
Proof.
  intros st'.
  assert (H : addPattern newTamperStore patternUrlX = Ok st')
    by reflexivity.
  split; [exact H|].
  exact (addPattern_then_get newTamperStore patternUrlX st' H).
Defined.

(** X11 at a lone surrogate. *)
Lemma b64EncodeUnicode_defined_witness :
  codeUnits [104; 55357] /\
  b64EncodeUnicode [104; 55357] =
    if wellFormed [104; 55357] then Ok (btoaLoop (utf8Bytes [104; 55357]))
    else Throw URIError.
Proof.
  assert (H : codeUnits [104; 55357]) by (repeat constructor; lia).
  split; [exact H|]. exact (b64EncodeUnicode_defined [104; 55357] H).
Defined.

(** X12 at two texts that differ in one character. *)
Lemma b64EncodeUnicode_injective_witness :
  wellFormed (str "a=1") = true /\ wellFormed (str "a=2") = true /\
  str "a=1" <> str "a=2" /\
  b64EncodeUnicode (str "a=1") <> b64EncodeUnicode (str "a=2").
Proof.
  assert (H1 : wellFormed (str "a=1") = true) by reflexivity.
  assert (H2 : wellFormed (str "a=2") = true) by reflexivity.
  assert (H3 : str "a=1" <> str "a=2") by discriminate.
  repeat (split; [assumption|]).
  exact (b64EncodeUnicode_injective (str "a=1") (str "a=2") H1 H2 H3).
Defined.

(** X15 at a token with a minus sign. *)
Lemma onBeforeRequest_rejects_token_witness :
  let d := event (urlX ++ delimiter ++ tokenUrlSafe) 0 [] in
  tagged (details.url d) urlX tokenUrlSafe /\
  Forall (fun x => x <> 36) tokenUrlSafe /\
  In 45 tokenUrlSafe /\ isBase64Char 45 = false /\
  isAsciiWhitespace 45 = false /\
  onBeforeRequest newTamperStore d =
    (newTamperStore, Throw InvalidCharacterError).
Proof.
  intros d.
  assert (H1 : tagged (details.url d) urlX tokenUrlSafe)
    by (repeat split; reflexivity).
  assert (H2 : Forall (fun x => x <> 36) tokenUrlSafe)
    by (vm_compute; repeat constructor; discriminate).
  assert (H3 : In 45 tokenUrlSafe) by (vm_compute; tauto).
  assert (H4 : isBase64Char 45 = false) by reflexivity.
  assert (H5 : isAsciiWhitespace 45 = false) by reflexivity.
  repeat (split; [assumption|]).
  exact (onBeforeRequest_rejects_token newTamperStore d urlX tokenUrlSafe 45
                                       H1 H2 H3 H4 H5).
Defined.

Lemma testable_storePatterns : Forall testable (_patternMods storePatterns).
Proof.
  repeat constructor.
  - discriminate.
  - eexists. reflexivity.
Defined.

(** X16 at a request to which two patterns apply. *)
Lemma onBeforeSendHeaders_outcome_witness :
  let st := storePatterns in
  let d := event urlX 0 [] in
  let k := makeKey (details.tabId d) (details.frameId d) (details.url d) in
  reachable st /\
  Forall testable (_patternMods st) /\
  match resolve matchesUrl st (details.tabId d) (details.frameId d)
                (details.url d) with
  | None => onBeforeSendHeaders st d = (st, Ok None)
  | Some spec =>
      let bound :=
        with_key (with_requestId spec (Some (Some (details.requestId d))))
                 (Some k) in
      match headers spec with
      | Some (Some toSet) =>
          match setHeaders (details.requestHeaders d) toSet with
          | Ok hs =>
              plainNames toSet /\
              let out := match remove spec with
                         | Some (Some toRemove) => removeHeaders hs toRemove
                         | _ => hs
                         end in
              onBeforeSendHeaders st d =
                ({| _data := oset k bound (_data st);
                    _patternMods := _patternMods st |}, Ok (Some out)) /\
              get (fst (onBeforeSendHeaders st d)) (details.tabId d)
                  (details.frameId d) (details.url d) = Ok (Some bound)
          | Throw e =>
              ~ plainNames toSet /\
              onBeforeSendHeaders st d = (st, Throw TypeError)
          end
      | _ =>
          let out := match remove spec with
                     | Some (Some toRemove) =>
                         removeHeaders (details.requestHeaders d) toRemove
                     | _ => details.requestHeaders d
                     end in
          onBeforeSendHeaders st d =
            ({| _data := oset k bound (_data st);
                _patternMods := _patternMods st |}, Ok (Some out)) /\
          get (fst (onBeforeSendHeaders st d)) (details.tabId d)
              (details.frameId d) (details.url d) = Ok (Some bound)
      end
  end.
Proof.
  intros st d k. split; [exact reachable_storePatterns|].
  split; [exact testable_storePatterns|].
  exact (onBeforeSendHeaders_outcome st d reachable_storePatterns
                                     testable_storePatterns).
Defined.

(** X17 at a spec that maps [Origin] to null and a request that carries
    the header in lower case. *)
Lemma removed_header_not_sent_witness :
  let d := request urlA [{| name := str "origin";
                            value := Some (Some (str "http://a")) |}] in
  let st1 := run (set newTamperStore 1 0 urlA (Some (Some specUnicode))) in
  set newTamperStore (details.tabId d) (details.frameId d) (details.url d)
      (Some (Some specUnicode)) = Ok st1 /\
  noOwnRequestHeader specUnicode /\
  (headerOf (Some (Some specUnicode)) (str "Origin") = Some None \/
   In (str "Origin") (removeOf (Some (Some specUnicode)))) /\
  exists st2 out,
    onBeforeSendHeaders st1 d = (st2, Ok (Some out)) /\
    hasHeader out (str "Origin") = false.
Proof.
  intros d st1.
  assert (H1 : set newTamperStore (details.tabId d) (details.frameId d)
                   (details.url d) (Some (Some specUnicode)) = Ok st1)
    by reflexivity.
  assert (H2 : noOwnRequestHeader specUnicode) by reflexivity.
  assert (H3 : headerOf (Some (Some specUnicode)) (str "Origin") = Some None \/
               In (str "Origin") (removeOf (Some (Some specUnicode))))
    by (left; reflexivity).
  repeat (split; [assumption|]).
  exact (removed_header_not_sent newTamperStore d specUnicode st1
                                 (str "Origin") H1 H2 H3).
Defined.

Lemma withoutNull_specOrigin : withoutNull specOrigin.
Proof. typedef_spec. Defined.

(** X18 at the spec of the end-to-end scenario and a 200 response. *)
Lemma tagged_request_lifecycle_witness :
  let d1 := event (urlX ++ delimiter ++ tokenOrigin) 0 [] in
  let d2 := event urlX 0 [] in
  let d3 := event urlX 200 [] in
  let st := newTamperStore in
  let k := makeKey (details.tabId d1) (details.frameId d1) urlX in
  let stored n id :=
    {| _data := oset k (with_key (with_requestId n (Some id)) (Some k))
                     (_data st);
       _patternMods := _patternMods st |} in
  reachable st /\
  JSON_representable specOrigin /\
  withoutNull specOrigin /\
  noOwnRequestHeader specOrigin /\ noOwnResponseHeader specOrigin /\
  b64EncodeUnicode (JSON_stringify specOrigin) = Ok tokenOrigin /\
  noSlash tokenOrigin = true /\ noLineTerminator urlX = true /\
  details.url d1 = urlX ++ delimiter ++ tokenOrigin /\
  details.url d2 = urlX /\
  details.tabId d2 = details.tabId d1 /\
  details.frameId d2 = details.frameId d1 /\
  details.requestId d3 = details.requestId d2 /\
  getByRequestId st (details.requestId d2) = None /\
  isRedirectStatus (details.statusCode d3) = false /\
  exists n toSet toRemove rSet rRemove sent received,
    _normalizeTamperSpec (Some (Some specOrigin)) = Ok n /\
    headers n = Some (Some toSet) /\ remove n = Some (Some toRemove) /\
    response n =
      Some (Some {| r_headers := Some (Some rSet);
                    r_remove := Some (Some rRemove) |}) /\
    setHeaders (details.requestHeaders d2) toSet = Ok sent /\
    setHeaders (details.responseHeaders d3) rSet = Ok received /\
    onBeforeRequest st d1 = (stored n None, Ok (Some urlX)) /\
    onBeforeSendHeaders (stored n None) d2 =
      (stored n (Some (details.requestId d2)),
       Ok (Some (removeHeaders sent toRemove))) /\
    onHeadersReceived (stored n (Some (details.requestId d2))) d3 =
      (if isOnce n
       then remove_ st (details.tabId d1) (details.frameId d1) urlX
       else stored n (Some (details.requestId d2)),
       Ok (Some (removeHeaders received rRemove))).
Proof.
  intros d1 d2 d3 st k stored.
  assert (H0 : reachable st) by exact (reach_new _ _).
  assert (H1 : JSON_representable specOrigin) by (split; reflexivity).
  assert (Ha : withoutNull specOrigin) by exact withoutNull_specOrigin.
  assert (Hb : noOwnRequestHeader specOrigin) by reflexivity.
  assert (Hc : noOwnResponseHeader specOrigin) by reflexivity.
  assert (H2 : b64EncodeUnicode (JSON_stringify specOrigin) = Ok tokenOrigin)
    by reflexivity.
  assert (H3 : noSlash tokenOrigin = true) by reflexivity.
  assert (H4 : noLineTerminator urlX = true) by reflexivity.
  assert (H5 : details.url d1 = urlX ++ delimiter ++ tokenOrigin)
    by reflexivity.
  assert (H6 : details.url d2 = urlX) by reflexivity.
  assert (H7 : details.tabId d2 = details.tabId d1) by reflexivity.
  assert (H8 : details.frameId d2 = details.frameId d1) by reflexivity.
  assert (H9 : details.requestId d3 = details.requestId d2) by reflexivity.
  assert (H10 : getByRequestId st (details.requestId d2) = None)
    by reflexivity.
  assert (H11 : isRedirectStatus (details.statusCode d3) = false)
    by reflexivity.
  repeat (split; [assumption|]).
  exact (tagged_request_lifecycle st d1 d2 d3 urlX specOrigin tokenOrigin
           H0 H1 Ha Hb Hc H2 H3 H4 H5 H6 H7 H8 H9 H10 H11).
Defined.

(** X19 at a one-shot spec registered for a URL. *)
Lemma once_keeps_pattern_witness :
  let d2 := event urlA 0 [] in
  let d3 := event urlA 200 [] in
  let st := storeOncePattern in
  let e := {| regexes := None; urls := Some (Some [urlA]);
              tamper := Some (Some normalOnceOnly) |} in
  let k := makeKey (details.tabId d2) (details.frameId d2) (details.url d2) in
  reachable st /\
  Forall testable (_patternMods st) /\
  getDirect st k = None /\
  find (matchesUrl (details.url d2)) (_patternMods st) = Some e /\
  tamper e = Some (Some normalOnceOnly) /\
  isOnce normalOnceOnly = true /\
  requestCallable normalOnceOnly /\ responseCallable normalOnceOnly /\
  getByRequestId st (details.requestId d2) = None /\
  details.requestId d3 = details.requestId d2 /\
  isRedirectStatus (details.statusCode d3) = false /\
  let st2 := fst (onBeforeSendHeaders st d2) in
  let st3 := fst (onHeadersReceived st2 d3) in
  getDirect st2 k =
    Some (with_key (with_requestId normalOnceOnly
                      (Some (Some (details.requestId d2)))) (Some k)) /\
  st3 = st /\
  get st3 (details.tabId d2) (details.frameId d2) (details.url d2) =
    Ok (Some normalOnceOnly).
Proof.
  intros d2 d3 st e k.
  assert (H0 : Forall testable (_patternMods st)).
  { repeat constructor. eexists. reflexivity. }
  assert (H1 : getDirect st k = None) by reflexivity.
  assert (H2 : find (matchesUrl (details.url d2)) (_patternMods st) = Some e)
    by reflexivity.
  assert (H3 : tamper e = Some (Some normalOnceOnly)) by reflexivity.
  assert (H4 : isOnce normalOnceOnly = true) by reflexivity.
  assert (Ha : requestCallable normalOnceOnly).
  { intros toSet E. injection E as <-. reflexivity. }
  assert (Hb : responseCallable normalOnceOnly).
  { intros resp toSet E E'. injection E as <-. injection E' as <-.
    reflexivity. }
  assert (H5 : getByRequestId st (details.requestId d2) = None)
    by reflexivity.
  assert (H6 : details.requestId d3 = details.requestId d2) by reflexivity.
  assert (H7 : isRedirectStatus (details.statusCode d3) = false)
    by reflexivity.
  repeat (split; [assumption || exact reachable_storeOncePattern|]).
  exact (once_keeps_pattern st d2 d3 e normalOnceOnly
           reachable_storeOncePattern H0 H1 H2 H3 H4 Ha Hb H5 H6 H7).
Defined.

(** X23 at an association whose regular expression is an unclosed
    group. *)
Lemma addPattern_unchecked_witness :
  let st := run (addPattern newTamperStore patternUrlX) in
  let params := patternUnclosed in
  (regexes params <> None \/ urls params <> None) /\
  (tamper params = Some None -> addPattern st params = Throw TypeError) /\
  (forall t,
      tamper params = Some (Some t) -> withoutNull t ->
      exists n st',
        _normalizeTamperSpec (Some (Some t)) = Ok n /\
        addPattern st params = Ok st' /\
        forall tabId frameId url,
          oget (makeKey tabId frameId url) (_data st) = None ->
          (forall pre r post,
              regexes params = Some (Some (pre ++ r :: post)) ->
              Forall compiles pre -> ~ compiles r ->
              get st' tabId frameId url =
                if existsb (regexMatches url) pre then Ok (Some n)
                else Throw SyntaxError) /\
          (object (regexes params) = None -> object (urls params) = None ->
           get st' tabId frameId url = Throw TypeError)).
Proof.
  intros st params.
  assert (H : regexes params <> None \/ urls params <> None)
    by (left; discriminate).
  split; [exact H|]. exact (addPattern_unchecked st params H).
Defined.

(** An association with an unclosed group is accepted, and [get] then
    throws also for a URL that an older association holds. *)
Example unclosed_group_throws :
  addPattern (run (addPattern newTamperStore patternUrlX)) patternUnclosed =
    Ok storeUnclosed /\
  get storeUnclosed 1 0 urlX = Throw SyntaxError /\
  get (run (addPattern newTamperStore patternNullRegexes)) 1 0 urlX =
    Throw TypeError.
Proof. repeat split. Qed.

(** X21 at the token of the end-to-end scenario. *)
Lemma b64DecodeUnicode_exact_witness :
  let s := JSON_stringify specOrigin in
  b64DecodeUnicode tokenOrigin = Ok s /\
  wellFormed s = true /\
  atob tokenOrigin = Ok (utf8Bytes s) /\
  b64EncodeUnicode s = Ok (btoaLoop (utf8Bytes s)).
Proof.
  intros s.
  assert (H : b64DecodeUnicode tokenOrigin = Ok s) by reflexivity.
  split; [exact H|]. exact (b64DecodeUnicode_exact tokenOrigin s H).
Defined.

(** X22 at the token of a header value made of a question mark. *)
Lemma onBeforeRequest_slash_token_witness :
  let d := event (urlX ++ delimiter ++ tokenQuestion) 0 [] in
  details.url d = urlX ++ delimiter ++ tokenQuestion /\
  Forall (fun c => c <> 36) urlX /\
  Forall (fun c => c <> 36) tokenQuestion /\
  noSlash tokenQuestion = false /\
  makeUrl urlX specQuestion = Ok (details.url d) /\
  onBeforeRequest newTamperStore d = (newTamperStore, Ok None).
Proof.
  intros d.
  assert (H1 : details.url d = urlX ++ delimiter ++ tokenQuestion)
    by reflexivity.
  assert (H2 : Forall (fun c => c <> 36) urlX)
    by (vm_compute; repeat constructor; discriminate).
  assert (H3 : Forall (fun c => c <> 36) tokenQuestion)
    by (vm_compute; repeat constructor; discriminate).
  assert (H4 : noSlash tokenQuestion = false) by reflexivity.
  repeat (split; [assumption|]). split; [reflexivity|].
  exact (onBeforeRequest_slash_token newTamperStore d urlX tokenQuestion
                                     H1 H2 H3 H4).
Defined.
